(** * Research-Discovery-Engine: the knowledge-graph analysis pipeline

    A shallow embedding of [path/research_paths.py]: the metadata
    extractor, the link graph builder, the co-occurrence builder, the
    master node list, the centrality and community stages, the two
    knowledge gap scorers and the trajectory synthesizer, followed by the
    properties proved about them.

    Modelling conventions.
    - Text is a [string] of characters with code points below 256, each
      an [ascii]; a text holding a character beyond them is outside the
      model.  A concept id is a [string].
    - A Python [dict] keyed by concept id is a [gmap string _]; the order in
      which a dict is iterated is therefore not modelled, and lists produced
      by iterating one are meaningful up to permutation.
    - A Python float is the rational it denotes ([Q]); [nan] is [None]
      where the code can see one.  The predicted strength of the gap
      scorer, whose comparison with the threshold decides what is listed,
      is computed with the rounding of binary64 arithmetic ([float64]); the
      trajectory score is the exact value of its formula.
    - A Python exception is the [Raise] branch of [result]. *)

From Stdlib Require Import Ascii QArith Qminmax Qround Qabs Lqa.
From stdpp Require Import gmap strings list sorting.

Set Warnings "-clear-no-such-hyp".

Local Open Scope string_scope.
Local Open Scope list_scope.

(* ===================================================================== *)
(** * Exceptions *)
(* ===================================================================== *)

Inductive exn : Type :=
| KeyError (key : string)
| ValueError
| NodeNotFound (node : string)
| IndexError
| LibraryError (what : string).

Inductive result (A : Type) : Type :=
| Ok (a : A)
| Raise (e : exn).
Arguments Ok {A} a.
Arguments Raise {A} e.

Global Instance result_ret : MRet result := λ A, Ok.
Global Instance result_bind : MBind result :=
  λ A B f r, match r with Ok a => f a | Raise e => Raise e end.
Global Instance result_fmap : FMap result :=
  λ A B f r, match r with Ok a => Ok (f a) | Raise e => Raise e end.

Definition raises {A} (r : result A) : Prop := ∃ e, r = Raise e.

(* ===================================================================== *)
(** * Configuration *)
(* ===================================================================== *)

Inductive Category : Type :=
| Theory | Mechanism | Phenomenon | Method | Material | Application.

Global Instance Category_eq_dec : EqDecision Category.
Proof. solve_decision. Defined.

Definition Category_to_nat (c : Category) : nat :=
  match c with
  | Theory => 0 | Mechanism => 1 | Phenomenon => 2
  | Method => 3 | Material => 4 | Application => 5
  end.

Definition Category_of_nat (n : nat) : option Category :=
  match n with
  | 0 => Some Theory | 1 => Some Mechanism | 2 => Some Phenomenon
  | 3 => Some Method | 4 => Some Material | 5 => Some Application
  | _ => None
  end.

Global Instance Category_countable : Countable Category.
Proof.
  apply (inj_countable Category_to_nat Category_of_nat).
  by intros [].
Defined.

(** The value stored for a concept in the node registry:
    [{'category': category, 'color': color}]. *)
Record NodeMeta : Type := { category : Category; color : string }.

Global Instance NodeMeta_eq_dec : EqDecision NodeMeta.
Proof. solve_decision. Defined.

Definition NODE_CATEGORIES (md_file : string) : option (Category * string) :=
  if decide (md_file = "applications.md") then Some (Application, "#e41a1c")
  else if decide (md_file = "materials.md") then Some (Material, "#377eb8")
  else if decide (md_file = "mechanisms.md") then Some (Mechanism, "#4daf4a")
  else if decide (md_file = "methods.md") then Some (Method, "#984ea3")
  else if decide (md_file = "phenomena.md") then Some (Phenomenon, "#ff7f00")
  else if decide (md_file = "theoretical.md") then Some (Theory, "#a65628")
  else None.

Definition CATEGORY_ORDER : list Category :=
  [Theory; Mechanism; Phenomenon; Method; Material; Application].

(** [l.index(x)] for an [x] known to be in [l]; [length l] otherwise. *)
Fixpoint list_index `{EqDecision A} (x : A) (l : list A) : nat :=
  match l with
  | [] => 0
  | y :: l' => if decide (y = x) then 0 else S (list_index x l')
  end.

(** [itertools.combinations(l, 2)]. *)
Fixpoint combinations2 {A} (l : list A) : list (A * A) :=
  match l with
  | [] => []
  | x :: l' => map (pair x) l' ++ combinations2 l'
  end.

(* ===================================================================== *)
(** * The three regular expressions *)
(* ===================================================================== *)

Module Regex.

Definition code (c : ascii) : N := N_of_ascii c.

Definition between (lo hi : N) (c : ascii) : bool :=
  (lo <=? code c)%N && (code c <=? hi)%N.

(** [\s] of a [str] pattern, on the characters below 256: tab to
    carriage return, the four separators 0x1c-0x1f, the space, the next
    line character 0x85 and the no-break space 0xa0. *)
Definition is_space (c : ascii) : bool :=
  between 9 13 c || between 28 31 c || (code c =? 32)%N
  || (code c =? 133)%N || (code c =? 160)%N.

(** [[a-zA-Z0-9\-\_]] *)
Definition is_id_char (c : ascii) : bool :=
  between 97 122 c || between 65 90 c || between 48 57 c
  || (code c =? 45)%N || (code c =? 95)%N.

(** [[a-z\-\_]] *)
Definition is_file_char (c : ascii) : bool :=
  between 97 122 c || (code c =? 45)%N || (code c =? 95)%N.

(** The longest prefix whose characters satisfy [p], and what follows. *)
Fixpoint span (p : ascii → bool) (s : string) : string * string :=
  match s with
  | EmptyString => (EmptyString, EmptyString)
  | String c s' =>
      if p c then let '(a, b) := span p s' in (String c a, b)
      else (EmptyString, s)
  end.

(** [s] without the literal [lit] in front, when it starts with it. *)
Fixpoint strip (lit s : string) : option string :=
  match lit, s with
  | EmptyString, _ => Some s
  | String a lit', String b s' =>
      if decide (a = b) then strip lit' s' else None
  | String _ _, EmptyString => None
  end.

(** One or more characters of class [p], taken greedily.  The classes
    used below never overlap with the character that must follow, so
    giving back characters cannot turn a failure into a match. *)
Definition plus (p : ascii → bool) (s : string) : option (string * string) :=
  let '(a, b) := span p s in
  if decide (a = EmptyString) then None else Some (a, b).

(** [###\s+] at the start of [s]: the text after the match. *)
Definition match_split (s : string) : option string :=
  r1 ← strip "###" s;
  '(_, r2) ← plus is_space r1;
  Some r2.

(** [###\s+([a-zA-Z0-9\-\_]+)] at the start of [s]: the captured id and
    the text after the match. *)
Definition match_header (s : string) : option (string * string) :=
  r2 ← match_split s;
  plus is_id_char r2.

(** [\[\[\./([a-z\-\_]+\.md)#([a-zA-Z0-9\-\_]+)\]\]] at the start of
    [s]: the two captured groups and the text after the match. *)
Definition match_link (s : string) : option ((string * string) * string) :=
  r1 ← strip "[[./" s;
  '(file, r2) ← plus is_file_char r1;
  r3 ← strip ".md#" r2;
  '(target, r4) ← plus is_id_char r3;
  r5 ← strip "]]" r4;
  Some ((file +:+ ".md", target), r5).

(** Number of characters a match at the start of [s] consumed. *)
Definition consumed (s rest : string) : nat :=
  String.length s - String.length rest.

(** [re.findall]: scan left to right; after a match, resume at its end.
    [skip] counts the characters of the last match still to pass. *)
Fixpoint findall_from {A} (m : string → option (A * string))
    (skip : nat) (s : string) : list A :=
  match s with
  | EmptyString => []
  | String _ s' =>
      match skip with
      | S k => findall_from m k s'
      | O =>
          match m s with
          | Some (a, rest) => a :: findall_from m (consumed s rest - 1) s'
          | None => findall_from m 0 s'
          end
      end
  end.

Definition findall {A} (m : string → option (A * string)) (s : string) :
    list A :=
  findall_from m 0 s.

(** [re.split]: the pieces of [s] between the matches; [piece] is the
    piece being read. *)
Fixpoint split_from (m : string → option string)
    (skip : nat) (piece : string) (s : string) : list string :=
  match s with
  | EmptyString => [piece]
  | String c s' =>
      match skip with
      | S k => split_from m k piece s'
      | O =>
          match m s with
          | Some rest =>
              piece :: split_from m (consumed s rest - 1) EmptyString s'
          | None => split_from m 0 (piece +:+ String c EmptyString) s'
          end
      end
  end.

Definition split (m : string → option string) (s : string) : list string :=
  split_from m 0 EmptyString s.

End Regex.

(** [re.findall(r"###\s+([a-zA-Z0-9\-\_]+)", content)] *)
Definition find_headers (content : string) : list string :=
  Regex.findall Regex.match_header content.

(** [re.split(r"###\s+", content)] *)
Definition split_sections (content : string) : list string :=
  Regex.split Regex.match_split content.

(** [link_regex.findall(text)]: the (file, target) pairs. *)
Definition find_links (text : string) : list (string * string) :=
  Regex.findall Regex.match_link text.

(* ===================================================================== *)
(** * Metadata extractor *)
(* ===================================================================== *)

(** A document as the pipeline reads it: the file name from [files] with
    the text that [open(md_file).read()] returns for it. *)
Definition Document : Type := string * string.

(** [if header not in node_info: node_info[header] = {...}] *)
Definition register_header (meta : NodeMeta) (node_info : gmap string NodeMeta)
    (header : string) : gmap string NodeMeta :=
  match node_info !! header with
  | Some _ => node_info
  | None => <[header := meta]> node_info
  end.

Definition get_node_metadata_file (node_info : gmap string NodeMeta)
    (doc : Document) : gmap string NodeMeta :=
  match NODE_CATEGORIES doc.1 with
  | Some (cat, col) =>
      foldl (register_header {| category := cat; color := col |})
            node_info (find_headers doc.2)
  | None => node_info
  end.

Definition get_node_metadata (files : list Document) : gmap string NodeMeta :=
  foldl get_node_metadata_file ∅ files.

(* ===================================================================== *)
(** * Directed link graph ([networkx.DiGraph]) *)
(* ===================================================================== *)

(** The node dictionary maps a node to its attributes ([None]: the node
    carries none, as one created by [add_edge] would), the adjacency is the
    set of (source, target) pairs, and the two annotation maps hold what
    [set_node_attributes] writes under ['pagerank'] and ['community']. *)
Record DiGraph : Type := {
  dg_nodes : gmap string (option NodeMeta);
  dg_edges : gset (string * string);
  dg_pagerank : gmap string Q;
  dg_community : gmap string Z
}.

Module DiGraph.

Definition empty : DiGraph :=
  {| dg_nodes := ∅; dg_edges := ∅; dg_pagerank := ∅; dg_community := ∅ |}.

Definition has_node (G : DiGraph) (n : string) : bool :=
  bool_decide (n ∈ dom (dg_nodes G)).

Definition has_edge (G : DiGraph) (u v : string) : bool :=
  bool_decide ((u, v) ∈ dg_edges G).

Definition number_of_nodes (G : DiGraph) : nat := size (dg_nodes G).

(** [G.add_node(n, **data)] *)
Definition add_node (n : string) (data : NodeMeta) (G : DiGraph) : DiGraph :=
  {| dg_nodes := <[n := Some data]> (dg_nodes G);
     dg_edges := dg_edges G;
     dg_pagerank := dg_pagerank G;
     dg_community := dg_community G |}.

(** An endpoint that is not yet a node becomes one, without attributes. *)
Definition touch (n : string) (nodes : gmap string (option NodeMeta)) :
    gmap string (option NodeMeta) :=
  match nodes !! n with
  | Some _ => nodes
  | None => <[n := None]> nodes
  end.

(** [G.add_edge(u, v)] *)
Definition add_edge (u v : string) (G : DiGraph) : DiGraph :=
  {| dg_nodes := touch v (touch u (dg_nodes G));
     dg_edges := {[ (u, v) ]} ∪ dg_edges G;
     dg_pagerank := dg_pagerank G;
     dg_community := dg_community G |}.

(** [set(G.successors(u))] *)
Definition successors (G : DiGraph) (u : string) : gset string :=
  set_map snd (filter (λ e, e.1 = u) (dg_edges G)).

Definition number_of_edges (G : DiGraph) : nat := size (dg_edges G).

End DiGraph.

(* ===================================================================== *)
(** * Link graph builder *)
(* ===================================================================== *)

(** [for _, target_node in found_links: if target_node in G: G.add_edge(...)] *)
Definition add_section_links (source_node : string) (G : DiGraph)
    (found_links : list (string * string)) : DiGraph :=
  foldl (λ G link,
           if DiGraph.has_node G link.2
           then DiGraph.add_edge source_node link.2 G else G)
        G found_links.

(** The body of [for i, section in enumerate(sections[1:], 1)]. *)
Definition add_section (headers : list string) (G : DiGraph)
    (isec : nat * string) : DiGraph :=
  match headers !! isec.1 with
  | Some source_node =>
      if DiGraph.has_node G source_node
      then add_section_links source_node G (find_links isec.2)
      else G
  | None => G
  end.

(** [enumerate(l, start)] *)
Fixpoint enumerate_from {A} (start : nat) (l : list A) : list (nat * A) :=
  match l with
  | [] => []
  | x :: l' => (start, x) :: enumerate_from (S start) l'
  end.

Definition build_explicit_link_graph_file (G : DiGraph) (doc : Document) :
    DiGraph :=
  match NODE_CATEGORIES doc.1 with
  | Some _ =>
      let sections := split_sections doc.2 in
      let headers := "" :: find_headers doc.2 in
      foldl (add_section headers) G (enumerate_from 1 (drop 1 sections))
  | None => G
  end.

Definition build_explicit_link_graph (files : list Document)
    (node_info : gmap string NodeMeta) : DiGraph :=
  let G := map_fold DiGraph.add_node DiGraph.empty node_info in
  foldl build_explicit_link_graph_file G files.

(* ===================================================================== *)
(** * Tables ([pandas.DataFrame]) *)
(* ===================================================================== *)

(** A table with row labels [df_index], column labels [df_columns] and a
    value for every (row, column) pair of labels that each stand once on
    their axis; what [df_cell] says outside the labels, or under a label
    that repeats, is never read. *)
Record Frame (A : Type) : Type := {
  df_index : list string;
  df_columns : list string;
  df_cell : string → string → A
}.
Arguments df_index {A} _.
Arguments df_columns {A} _.
Arguments df_cell {A} _ _ _.

Abbreviation DataFrame := (Frame Q).

(** What [df.loc[r, c]] gives for two labels of the table: the cell when
    each label stands once on its axis, and otherwise a [Series] or a
    [DataFrame] with the cells of every row and column that carry them. *)
Inductive Located (A : Type) : Type :=
| Scalar (x : A)
| Slice.
Arguments Scalar {A} x.
Arguments Slice {A}.

Module Frame.

(** [df.empty]: some axis has length 0. *)
Definition empty {A} (df : Frame A) : bool :=
  bool_decide (df_index df = []) || bool_decide (df_columns df = []).

Definition occurs_once (x : string) (l : list string) : bool :=
  bool_decide (length (filter (λ y, y = x) l) = 1%nat).

(** [df.loc[r, c]] *)
Definition loc {A} (df : Frame A) (r c : string) : result (Located A) :=
  if decide (r ∈ df_index df) then
    if decide (c ∈ df_columns df) then
      if occurs_once r (df_index df) && occurs_once c (df_columns df)
      then Ok (Scalar (df_cell df r c))
      else Ok Slice
    else Raise (KeyError c)
  else Raise (KeyError r).

(** The number a located value stands for where the code compares it and
    takes the truth value of the comparison ([if score > x],
    [max(0, score)]): compared with a number, a [Series] gives a
    [Series], whose truth value is ambiguous. *)
Definition scalar {A} (x : Located A) : result A :=
  match x with
  | Scalar a => Ok a
  | Slice => Raise ValueError
  end.

(** [df.loc[r, c] = x] for labels of the table. *)
Definition set_loc {A} (r c : string) (x : A) (df : Frame A) : Frame A :=
  {| df_index := df_index df;
     df_columns := df_columns df;
     df_cell := λ r' c', if decide (r' = r ∧ c' = c) then x
                         else df_cell df r' c' |}.

(** [df.fillna(x)] *)
Definition fillna {A} (x : A) (df : Frame (option A)) : Frame A :=
  {| df_index := df_index df;
     df_columns := df_columns df;
     df_cell := λ r c, default x (df_cell df r c) |}.

(** The row of [df] labelled [r], as a vector over the columns. *)
Definition row {A} (df : Frame A) (r : string) : list A :=
  map (df_cell df r) (df_columns df).

End Frame.

(** [sorted(d.keys())]: lexicographic order of the code points. *)
Definition string_le (a b : string) : Prop := String.leb a b = true.

Global Instance string_le_dec : RelDecision string_le.
Proof. intros a b. unfold string_le. apply _. Defined.

Definition sorted_keys {V} (d : gmap string V) : list string :=
  merge_sort string_le (elements (dom d)).

(* ===================================================================== *)
(** * Co-occurrence builder *)
(* ===================================================================== *)

(** [{mf: [link[1] for link in link_regex.findall(read(mf))] for mf in files
      if mf in NODE_CATEGORIES}] *)
Definition doc_links (files : list Document) : gmap string (list string) :=
  foldl (λ acc (doc : Document),
           match NODE_CATEGORIES doc.1 with
           | Some _ => <[doc.1 := map snd (find_links doc.2)]> acc
           | None => acc
           end) ∅ files.

Definition count (c : string) (links : list string) : nat :=
  length (filter (λ x, x = c) links).

(** [pd.Series(links).value_counts().items()]: each distinct value with the
    number of times it occurs. *)
Definition value_counts (links : list string) : list (string * nat) :=
  map (λ c, (c, count c links)) (remove_dups links).

(** The loop that fills the abundance table. *)
Definition fill_abundance (doc : string) (links : list string)
    (abundance_matrix : Frame nat) : Frame nat :=
  foldl (λ acc (cc : string * nat),
           if decide (cc.1 ∈ df_index acc)
           then Frame.set_loc cc.1 doc cc.2 acc else acc)
        abundance_matrix (value_counts links).

Definition abundance_table (files : list Document)
    (node_info : gmap string NodeMeta) : Frame nat :=
  let links := doc_links files in
  let zeros := {| df_index := sorted_keys node_info;
                  df_columns := sorted_keys links;
                  df_cell := λ _ _, 0 |} in
  map_fold fill_abundance zeros links.

(** [abundance_matrix.loc[(abundance_matrix.sum(axis=1) > 0)]] *)
Definition drop_unreferenced (abundance_matrix : Frame nat) : Frame nat :=
  {| df_index :=
       filter (λ c, 0 < sum_list (Frame.row abundance_matrix c))
              (df_index abundance_matrix);
     df_columns := df_columns abundance_matrix;
     df_cell := df_cell abundance_matrix |}.

Section Cooccurrence.

(** Spearman's rank correlation of two abundance vectors as pandas
    computes it, [None] where it is undefined ([nan]), as for a constant
    vector. *)
Variable spearman : list nat → list nat → option Q.

(** [df.T.corr(method='spearman')]: the table of the pairwise
    correlations of the rows of [df], labelled by them on both axes. *)
Definition corr_T (df : Frame nat) : Frame (option Q) :=
  {| df_index := df_index df;
     df_columns := df_index df;
     df_cell := λ u v, spearman (Frame.row df u) (Frame.row df v) |}.

Definition build_cooccurrence_data (files : list Document)
    (node_info : gmap string NodeMeta) : DataFrame :=
  let abundance_matrix := abundance_table files node_info in
  let abundance_matrix := drop_unreferenced abundance_matrix in
  Frame.fillna 0%Q (corr_T abundance_matrix).

End Cooccurrence.

(* ===================================================================== *)
(** * Numbers *)
(* ===================================================================== *)

Global Instance Qlt_rel_dec : RelDecision Qlt.
Proof.
  intros x y. destruct (Qlt_le_dec x y) as [H|H].
  - left. exact H.
  - right. apply Qle_not_lt. exact H.
Defined.

Global Instance Qle_rel_dec : RelDecision Qle.
Proof.
  intros x y. destruct (Qlt_le_dec y x) as [H|H].
  - right. apply Qlt_not_le. exact H.
  - left. exact H.
Defined.

(** Rounding to the nearest integer, ties to the even one. *)
Definition round_half_even (x : Q) : Z :=
  let f := Qfloor x in
  match (x - inject_Z f ?= 1 # 2)%Q with
  | Lt => f
  | Gt => (f + 1)%Z
  | Eq => if Z.even f then f else (f + 1)%Z
  end.

(** The [e] with [2^e <= x < 2^(e+1)], for a positive [x]. *)
Definition Qlog2 (x : Q) : Z :=
  let n := Qnum x in
  let d := Z.pos (Qden x) in
  let k := (Z.log2 n - Z.log2 d)%Z in
  if (0 <=? k)%Z
  then (if (2 ^ k * d <=? n)%Z then k else k - 1)%Z
  else (if (d <=? n * 2 ^ (- k))%Z then k else k - 1)%Z.

(** The binary64 number nearest to [x], ties to even: 53 significant bits,
    and steps of [2^-1074] below [2^-1022].  A value beyond the largest
    binary64 number, which Python holds as [inf], is rounded to 53 bits all
    the same: it compares with a threshold as [inf] does. *)
Definition float64 (x : Q) : Q :=
  if Qeq_bool x 0 then 0%Q
  else
    let e := Z.max (Qlog2 (Qabs x) - 52) (-1074) in
    (inject_Z (round_half_even (x / 2 ^ e)) * 2 ^ e)%Q.

(** [x * y] and [x + y] on floats. *)
Definition fmul (x y : Q) : Q := float64 (x * y).
Definition fadd (x y : Q) : Q := float64 (x + y).

(** Proofs rest on comparisons of rounded values, not on their digits:
    the rounding is unfolded by evaluation only. *)
Global Opaque float64.
Global Arguments fmul : simpl never.
Global Arguments fadd : simpl never.

(** [round(x, 3)] *)
Definition round3 (x : Q) : Q :=
  (inject_Z (round_half_even (x * 1000)) / 1000)%Q.

Definition Qnat (n : nat) : Q := inject_Z (Z.of_nat n).

(** [np.mean(l)] of a non-empty list. *)
Definition mean (l : list Q) : Q :=
  (foldr Qplus 0 l / Qnat (length l))%Q.

(* ===================================================================== *)
(** * Centrality and community stage *)
(* ===================================================================== *)

(** The undirected simple graph that [to_undirected] returns: the same
    nodes, each edge in both directions. *)
Record UGraph : Type := {
  ug_nodes : gset string;
  ug_edges : gset (string * string)
}.

Definition to_undirected (G : DiGraph) : UGraph :=
  {| ug_nodes := dom (dg_nodes G);
     ug_edges := dg_edges G ∪ set_map (λ e : string * string, (e.2, e.1))
                                      (dg_edges G) |}.

Inductive StageSignal : Type := Skipped | Completed.

Section Centrality.

(** [nx.pagerank], which raises when the power iteration does not
    converge, and [community_louvain.best_partition] with its
    [random_state]. *)
Variable nx_pagerank : DiGraph → result (gmap string Q).
Variable best_partition : UGraph → Z → gmap string Z.

(** Degree and betweenness centrality only feed the exported table and
    the plot; the graph handed to the later stages carries the PageRank
    and community annotations. *)
Definition analyze_centrality_and_communities (G_directed : DiGraph) :
    result (StageSignal * DiGraph) :=
  if bool_decide (DiGraph.number_of_nodes G_directed = 0) then
    Ok (Skipped, G_directed)
  else
    pagerank_cent ← nx_pagerank G_directed;
    let G1 := {| dg_nodes := dg_nodes G_directed;
                 dg_edges := dg_edges G_directed;
                 dg_pagerank := pagerank_cent;
                 dg_community := dg_community G_directed |} in
    let G_undirected := to_undirected G1 in
    if bool_decide (size (ug_nodes G_undirected) = 0) then
      Ok (Completed, G1)
    else
      let partition := best_partition G_undirected 42 in
      Ok (Completed,
          {| dg_nodes := dg_nodes G1;
             dg_edges := dg_edges G1;
             dg_pagerank := dg_pagerank G1;
             dg_community := partition |}).

End Centrality.

(* ===================================================================== *)
(** * Knowledge gap scorer *)
(* ===================================================================== *)

Record GapRecord : Type := {
  Source_Category : Category;
  Source_Node : string;
  Target_Category : Category;
  Target_Node : string;
  Topological_Score : nat;
  Cooccurrence_Score : Q;
  Bridge_Bonus : Q;
  Predicted_Link_Strength : Q
}.

(** [node_info[n]['category']] *)
Definition category_of (node_info : gmap string NodeMeta) (n : string) :
    result Category :=
  match node_info !! n with
  | Some d => Ok (category d)
  | None => Raise (KeyError n)
  end.

(** [[n for n, d in node_info.items() if d['category'] == cat and n in G]] *)
Definition nodes_by_cat (node_info : gmap string NodeMeta) (G : DiGraph)
    (cat : Category) : list string :=
  map fst (filter (λ nd : string * NodeMeta,
                     category nd.2 = cat ∧ DiGraph.has_node G nd.1)
                  (map_to_list node_info)).

Definition topo_score (G : DiGraph) (u v : string) : nat :=
  size (DiGraph.successors G u ∩ DiGraph.successors G v).

Definition bridge_bonus (cu cv : Category) : Q :=
  if bool_decide (cu = Theory ∧ cv = Application)
     || bool_decide (cv = Theory ∧ cu = Application) then 1.5%Q
  else if bool_decide (cu = Material ∧ cv = Application)
          || bool_decide (cv = Material ∧ cu = Application) then 1.0%Q
  else 0%Q.

(** [cooc_score]: 0.0 unless [u] is a row label and [v] a column label. *)
Definition cooc_score (M : DataFrame) (u v : string) : result (Located Q) :=
  if bool_decide (u ∈ df_index M) && bool_decide (v ∈ df_columns M)
  then Frame.loc M u v
  else Ok (Scalar 0%Q).

(** [(2.0 * topo_score) + (1.0 * max(0, cooc_score)) + bridge_bonus]: the
    count is converted to a float, exactly for any count below [2^53], and
    each product and sum is rounded. *)
Definition predicted_link_strength (topo : nat) (cooc bonus : Q) : Q :=
  fadd (fadd (fmul 2.0 (Qnat topo)) (fmul 1.0 (Qmax 0 cooc))) bonus.
Global Arguments predicted_link_strength : simpl never.

(** The body of the two inner loops for one pair [(u, v)]: the record
    appended to [all_potential_links], if any. *)
Definition gap_candidate (G : DiGraph) (M : DataFrame)
    (node_info : gmap string NodeMeta) (uv : string * string) :
    result (option GapRecord) :=
  let '(u, v) := uv in
  if bool_decide (u = v) || negb (DiGraph.has_node G u)
     || negb (DiGraph.has_node G v) then Ok None
  else if negb (DiGraph.has_edge G u v) && negb (DiGraph.has_edge G v u) then
    let topo := topo_score G u v in
    located ← cooc_score M u v;
    cu ← category_of node_info u;
    cv ← category_of node_info v;
    let bonus := bridge_bonus cu cv in
    cooc ← Frame.scalar located;
    let strength := predicted_link_strength topo cooc bonus in
    if bool_decide (1.0 < strength)%Q then
      Ok (Some {| Source_Category := cu; Source_Node := u;
                  Target_Category := cv; Target_Node := v;
                  Topological_Score := topo;
                  Cooccurrence_Score := round3 cooc;
                  Bridge_Bonus := bonus;
                  Predicted_Link_Strength := round3 strength |})
    else Ok None
  else Ok None.

(** The pairs the three nested loops visit, in order. *)
Definition candidate_pairs (G : DiGraph) (node_info : gmap string NodeMeta) :
    list (string * string) :=
  cats ← combinations2 CATEGORY_ORDER;
  u ← nodes_by_cat node_info G cats.1;
  v ← nodes_by_cat node_info G cats.2;
  [(u, v)].

(** [sort_values(by='Predicted_Link_Strength', ascending=False)] *)
Definition stronger (a b : GapRecord) : Prop :=
  (Predicted_Link_Strength b <= Predicted_Link_Strength a)%Q.

Global Instance stronger_dec : RelDecision stronger.
Proof. intros a b. unfold stronger. apply _. Defined.

(** [None]: the stage was skipped or found nothing; [Some df_gaps]: the
    ranked list. *)
Definition analyze_probabilistic_knowledge_gaps (G_directed : DiGraph)
    (cooccurrence_matrix : DataFrame) (node_info : gmap string NodeMeta) :
    result (option (list GapRecord)) :=
  if bool_decide (DiGraph.number_of_nodes G_directed = 0)
     || Frame.empty cooccurrence_matrix then Ok None
  else
    scored ← mapM (gap_candidate G_directed cooccurrence_matrix node_info)
                  (candidate_pairs G_directed node_info);
    let all_potential_links := omap id scored in
    if bool_decide (all_potential_links = []) then Ok None
    else Ok (Some (merge_sort stronger all_potential_links)).

(* ===================================================================== *)
(** * Weighted undirected graph ([networkx.Graph]) *)
(* ===================================================================== *)

(** The adjacency dictionary: node, then neighbour, then the ['weight']
    of the edge between them. *)
Abbreviation WGraph := (gmap string (gmap string Q)).

Module WGraph.

Definition adj (g : WGraph) (u : string) : gmap string Q :=
  default ∅ (g !! u).

(** [g.add_edge(u, v, weight=w)] *)
Definition add_edge (u v : string) (w : Q) (g : WGraph) : WGraph :=
  let g1 := <[u := <[v := w]> (adj g u)]> g in
  <[v := <[u := w]> (adj g1 v)]> g1.

Definition has_node (g : WGraph) (n : string) : bool :=
  bool_decide (is_Some (g !! n)).

(** [g[u][v]['weight']] when [g.has_edge(u, v)]. *)
Definition weight (g : WGraph) (u v : string) : option Q :=
  g !! u ≫= λ a, a !! v.

Definition neighbors (g : WGraph) (u : string) : list string :=
  map fst (map_to_list (adj g u)).

(** The depth-first search of [all_simple_paths] below [cur], which was
    reached along [visited] (oldest first), with [cutoff] edges left. *)
Fixpoint simple_paths_from (g : WGraph) (target : string) (cutoff : nat)
    (visited : list string) (cur : string) : list (list string) :=
  match cutoff with
  | O => []
  | S k =>
      child ← neighbors g cur;
      if decide (child ∈ visited) then []
      else if decide (child = target) then [visited ++ [child]]
      else simple_paths_from g target k (visited ++ [child]) child
  end.

(** [nx.all_simple_paths(g, source, target, cutoff)]: a source equal to
    the target gives the one-node path. *)
Definition all_simple_paths (g : WGraph) (source target : string)
    (cutoff : nat) : result (list (list string)) :=
  if negb (has_node g source) then Raise (NodeNotFound source)
  else if decide (source = target) then Ok [[source]]
  else Ok (simple_paths_from g target cutoff [source] source).

End WGraph.

(* ===================================================================== *)
(** * Trajectory synthesizer *)
(* ===================================================================== *)

Fixpoint foldlM {A B} (f : B → A → result B) (b : B) (l : list A) :
    result B :=
  match l with
  | [] => Ok b
  | x :: l' => b' ← f b x; foldlM f b' l'
  end.

(** One turn of the loop that builds [G_cooc_weighted]. *)
Definition add_cooc_edge (M : DataFrame) (min_cooc_for_edge_in_path : Q)
    (g : WGraph) (uv : string * string) : result WGraph :=
  let '(u, v) := uv in
  if bool_decide (u ∈ df_index M) && bool_decide (v ∈ df_columns M)
     && bool_decide (u ≠ v) then
    located ← Frame.loc M u v;
    score ← Frame.scalar located;
    if bool_decide (min_cooc_for_edge_in_path < score)%Q
    then Ok (WGraph.add_edge u v score g) else Ok g
  else Ok g.

Definition pruned_cooccurrence_graph (M : DataFrame)
    (min_cooc_for_edge_in_path : Q) : result WGraph :=
  foldlM (add_cooc_edge M min_cooc_for_edge_in_path) ∅
         (combinations2 (df_columns M)).

Record PathRecord : Type := {
  path_nodes : list string;
  score : Q;
  path_length : nat;
  avg_cooc_score : Q;
  num_explicit_links : nat;
  hierarchical_flow_score : nat;
  category_span_score : nat
}.

(** The row written when no path was found. *)
Definition fallback_record (start_node_id end_node_id : string) : PathRecord :=
  {| path_nodes := [start_node_id; end_node_id];
     score := 0;
     path_length := 2;
     avg_cooc_score := 0;
     num_explicit_links := 0;
     hierarchical_flow_score := 0;
     category_span_score := 0 |}.

(** The variables of the scoring loop. *)
Record LoopState : Type := {
  path_cooc_scores : list Q;
  explicit_links_count : nat;
  hierarchical_score : nat;
  path_categories_set : gset Category;
  valid_path : bool
}.

Definition loop_start : LoopState :=
  {| path_cooc_scores := [];
     explicit_links_count := 0;
     hierarchical_score := 0;
     path_categories_set := ∅;
     valid_path := true |}.

(** [node_info.get(n, {}).get('category')] *)
Definition get_category (node_info : gmap string NodeMeta) (n : string) :
    option Category :=
  category <$> node_info !! n.

(** Whether a step from category [cat_u] to [cat_v] counts as flowing
    along [CATEGORY_ORDER]. *)
Definition flows (cat_u cat_v : option Category) : bool :=
  match cat_u, cat_v with
  | Some cu, Some cv =>
      bool_decide (cu ∈ CATEGORY_ORDER) && bool_decide (cv ∈ CATEGORY_ORDER)
      && bool_decide (list_index cu CATEGORY_ORDER
                      ≤ list_index cv CATEGORY_ORDER)%nat
  | _, _ => false
  end.

Section Scoring.

Variable G_cooc_weighted : WGraph.
Variable G_directed : DiGraph.
Variable node_info : gmap string NodeMeta.

(** [for i in range(len(path) - 1)], with its [break]. *)
Fixpoint score_steps (st : LoopState) (path : list string) : LoopState :=
  match path with
  | u :: ((v :: _) as rest) =>
      match WGraph.weight G_cooc_weighted u v with
      | None =>
          {| path_cooc_scores := path_cooc_scores st;
             explicit_links_count := explicit_links_count st;
             hierarchical_score := hierarchical_score st;
             path_categories_set := path_categories_set st;
             valid_path := false |}
      | Some w =>
          let cat_u := get_category node_info u in
          let cat_v := get_category node_info v in
          score_steps
            {| path_cooc_scores := path_cooc_scores st ++ [w];
               explicit_links_count :=
                 if DiGraph.has_edge G_directed u v
                 then S (explicit_links_count st)
                 else explicit_links_count st;
               hierarchical_score :=
                 if flows cat_u cat_v then S (hierarchical_score st)
                 else hierarchical_score st;
               path_categories_set :=
                 match cat_u with
                 | Some cu => {[cu]} ∪ path_categories_set st
                 | None => path_categories_set st
                 end;
               valid_path := valid_path st |}
            rest
      end
  | _ => st
  end.

(** The record appended to [scored_paths_list] for [path], if any. *)
Definition score_path (path : list string) : option PathRecord :=
  let st := score_steps loop_start path in
  let cats :=
    match last path ≫= λ n, node_info !! n with
    | Some d => {[category d]} ∪ path_categories_set st
    | None => path_categories_set st
    end in
  if negb (valid_path st) then None
  else
    let avg_cooc :=
      if bool_decide (path_cooc_scores st = []) then 0%Q
      else mean (path_cooc_scores st) in
    let category_span_bonus :=
      if bool_decide (3 ≤ size cats)%nat then size cats else 0%nat in
    let final_score :=
      (avg_cooc * 10 + Qnat (explicit_links_count st) * 5
       + Qnat (hierarchical_score st) * 2
       + Qnat category_span_bonus * 1)%Q in
    Some {| path_nodes := path;
            score := final_score;
            path_length := length path;
            avg_cooc_score := round3 avg_cooc;
            num_explicit_links := explicit_links_count st;
            hierarchical_flow_score := hierarchical_score st;
            category_span_score := category_span_bonus |}.

End Scoring.

(** [sort_values(by='score', ascending=False)] *)
Definition better (a b : PathRecord) : Prop := (score b <= score a)%Q.

Global Instance better_dec : RelDecision better.
Proof. intros a b. unfold better. apply _. Defined.

(** What the synthesizer leaves behind before it draws: nothing after the
    message that a node is missing, a table without rows when an endpoint
    is not in the pruned graph, and otherwise the saved table with the
    path chosen for display. *)
Inductive TrajectoryOutcome : Type :=
| MissingNode
| EmptyTable
| Trajectories (table : list PathRecord) (best_path_nodes : list string).

Definition synthesize_and_plot_trajectory (G_directed : DiGraph)
    (cooccurrence_matrix : DataFrame) (node_info : gmap string NodeMeta)
    (start_node_id end_node_id : string)
    (max_path_len_for_search : nat) (min_cooc_for_edge_in_path : Q)
    (top_n_paths_to_save : nat) : result TrajectoryOutcome :=
  if negb (DiGraph.has_node G_directed start_node_id)
     || negb (DiGraph.has_node G_directed end_node_id)
     || bool_decide (node_info !! start_node_id = None)
     || bool_decide (node_info !! end_node_id = None)
  then Ok MissingNode
  else
    G_cooc_weighted ←
      pruned_cooccurrence_graph cooccurrence_matrix min_cooc_for_edge_in_path;
    if negb (WGraph.has_node G_cooc_weighted start_node_id)
       || negb (WGraph.has_node G_cooc_weighted end_node_id)
    then Ok EmptyTable
    else
      paths ← WGraph.all_simple_paths G_cooc_weighted start_node_id
                end_node_id max_path_len_for_search;
      let all_found_paths :=
        filter (λ path, 2 ≤ length path)%nat paths in
      let fallback :=
        Trajectories [fallback_record start_node_id end_node_id]
                     [start_node_id; end_node_id] in
      if bool_decide (all_found_paths = []) then Ok fallback
      else
        let scored_paths_list :=
          omap (score_path G_cooc_weighted G_directed node_info)
               all_found_paths in
        if bool_decide (scored_paths_list = []) then Ok fallback
        else
          match merge_sort better scored_paths_list with
          | (best :: _) as df_paths_to_save =>
              Ok (Trajectories (take top_n_paths_to_save df_paths_to_save)
                               (path_nodes best))
          | [] => Raise IndexError
          end.

(* ===================================================================== *)
(** * The atlas of opportunity ([analyze_knowledge_gaps]) *)
(* ===================================================================== *)

(** [itertools.product(l, repeat=2)] *)
Definition product2 {A} (l : list A) : list (A * A) :=
  x ← l; y ← l; [(x, y)].

Module Atlas.

(** A row of [potential_links]. *)
Record LinkRecord : Type := {
  Source : string;
  Target : string;
  Score : nat;
  Source_Category : Category;
  Target_Category : Category
}.

(** [[n for n, d in node_info.items() if d['category'] == cat]] *)
Definition nodes_by_cat (node_info : gmap string NodeMeta) (cat : Category) :
    list string :=
  map fst (filter (λ nd : string * NodeMeta, category nd.2 = cat)
                  (map_to_list node_info)).

(** The body of the two inner loops for the categories [cat1], [cat2] and
    the pair [(u, v)]: the row appended, if any. *)
Definition potential_link (G : DiGraph) (cat1 cat2 : Category)
    (u v : string) : option LinkRecord :=
  if DiGraph.has_node G u && DiGraph.has_node G v
     && negb (DiGraph.has_edge G u v) then
    let score := size (DiGraph.successors G u ∩ DiGraph.successors G v) in
    if bool_decide (0 < score)%nat then
      Some {| Source := u; Target := v; Score := score;
              Source_Category := cat1; Target_Category := cat2 |}
    else None
  else None.

(** The rows the loops append, in order. *)
Definition potential_links (G : DiGraph) (node_info : gmap string NodeMeta) :
    list LinkRecord :=
  cats ← product2 CATEGORY_ORDER;
  if decide (cats.1 = cats.2) then []
  else
    u ← nodes_by_cat node_info cats.1;
    v ← nodes_by_cat node_info cats.2;
    option_list (potential_link G cats.1 cats.2 u v).

(** [sort_values('Score', ascending=False)] *)
Definition higher (a b : LinkRecord) : Prop := (Score b ≤ Score a)%nat.

Global Instance higher_dec : RelDecision higher.
Proof. intros a b. unfold higher. apply _. Defined.

(** [None]: the graph is empty or no link was found; [Some df_gaps]: the
    ranked rows. *)
Definition analyze_knowledge_gaps (G : DiGraph)
    (node_info : gmap string NodeMeta) : option (list LinkRecord) :=
  if bool_decide (DiGraph.number_of_nodes G = 0) then None
  else
    let potential_links := potential_links G node_info in
    if bool_decide (potential_links = []) then None
    else Some (merge_sort higher potential_links).

End Atlas.

(* ===================================================================== *)
(** * Master node list *)
(* ===================================================================== *)

(** [nx.set_node_attributes(G, values, 'pagerank')] *)
Definition set_pagerank (values : gmap string Q) (G : DiGraph) : DiGraph :=
  {| dg_nodes := dg_nodes G;
     dg_edges := dg_edges G;
     dg_pagerank := values;
     dg_community := dg_community G |}.

(** [create_and_save_node_list], with the columns of the master list that
    are read off the graph: the two innovation score columns, which are
    joined to these rows from the table of the innovation stage without
    adding or removing a row, are left out.  [category = None] stands for
    the default ['Unknown']. *)
Module MasterList.

Record Row : Type := {
  node_id : string;
  category : option Category;
  color : string;
  pagerank : Q
}.

(** The row appended for a node and its attributes. *)
Definition node_row (G : DiGraph) (nd : string * option NodeMeta) : Row :=
  {| node_id := nd.1;
     category :=
       match nd.2 with
       | Some (Build_NodeMeta cat _) => Some cat
       | None => None
       end;
     color :=
       match nd.2 with
       | Some (Build_NodeMeta _ col) => col
       | None => "grey"
       end;
     pagerank := default 0%Q (dg_pagerank G !! nd.1) |}.

Definition node_data_list (G : DiGraph) : list Row :=
  map (node_row G) (map_to_list (dg_nodes G)).

(** [sort_values(by='pagerank', ascending=False)] *)
Definition by_pagerank (a b : Row) : Prop := (pagerank b <= pagerank a)%Q.

Global Instance by_pagerank_dec : RelDecision by_pagerank.
Proof. intros a b. unfold by_pagerank. apply _. Defined.

(** The saved table; [None] when the stage is skipped. *)
Definition create_and_save_node_list (G_directed : DiGraph) :
    option (list Row) :=
  if bool_decide (DiGraph.number_of_nodes G_directed = 0) then None
  else Some (merge_sort by_pagerank (node_data_list G_directed)).

End MasterList.

(* ===================================================================== *)
(** * Community stage ([analyze_communities]) *)
(* ===================================================================== *)

(** One turn of the loop that refreshes the node attributes:
    [if node in G_directed: G_directed.nodes[node].update(data)]. *)
Definition update_node (node : string) (data : NodeMeta) (G : DiGraph) :
    DiGraph :=
  if DiGraph.has_node G node then DiGraph.add_node node data G else G.

Section Communities.

Variable best_partition : UGraph → Z → gmap string Z.

(** The graph the stage returns; the map it draws is not modelled. *)
Definition analyze_communities (G_directed : DiGraph)
    (node_info : gmap string NodeMeta) : DiGraph :=
  if bool_decide (DiGraph.number_of_nodes G_directed = 0) then G_directed
  else
    let G1 := map_fold update_node G_directed node_info in
    let G_undirected := to_undirected G1 in
    if bool_decide (size (ug_nodes G_undirected) = 0) then G1
    else
      let partition := best_partition G_undirected 42 in
      {| dg_nodes := dg_nodes G1;
         dg_edges := dg_edges G1;
         dg_pagerank := dg_pagerank G1;
         dg_community := partition |}.

End Communities.

(* ===================================================================== *)
(** * Notions used to state the properties *)
(* ===================================================================== *)

(** The defining headers of the corpus in processing order, each with the
    category and colour of the document it stands in. *)
Definition header_definitions (files : list Document) :
    list (string * NodeMeta) :=
  doc ← files;
  match NODE_CATEGORIES doc.1 with
  | Some (cat, col) =>
      map (λ h, (h, {| category := cat; color := col |})) (find_headers doc.2)
  | None => []
  end.

(** Registering a list of (id, metadata) definitions in order. *)
Definition register_all (defs : list (string * NodeMeta))
    (node_info : gmap string NodeMeta) : gmap string NodeMeta :=
  foldl (λ ni d, register_header d.2 ni d.1) node_info defs.

(** Nodes are the registry's keys and edges join registry concepts. *)
Definition within_registry (node_info : gmap string NodeMeta) (G : DiGraph) :
    Prop :=
  dom (dg_nodes G) = dom node_info
  ∧ ∀ u v, (u, v) ∈ dg_edges G → u ∈ dom node_info ∧ v ∈ dom node_info.

(** No node of [G] has an edge to itself. *)
Definition loop_free (G : DiGraph) : Prop :=
  ∀ u, DiGraph.has_edge G u u = false.

(** What a cell of the abundance table holds once the documents [links]
    have been poured in: the number of references to [c] in document [d],
    for a registered concept [c]. *)
Definition abundance_filled (I C : list string)
    (links : gmap string (list string)) (A : Frame nat) : Prop :=
  df_index A = I ∧ df_columns A = C
  ∧ ∀ c d, df_cell A c d =
      if decide (c ∈ I) then
        match links !! d with Some l => count c l | None => 0%nat end
      else 0%nat.

(** No label of the matrix repeats, on either axis. *)
Definition unique_labels (M : DataFrame) : Prop :=
  NoDup (df_index M) ∧ NoDup (df_columns M).

(** The co-occurrence component of a pair's score: the matrix value when
    [u] labels a row and [v] a column, 0 otherwise. *)
Definition cooc_component (M : DataFrame) (u v : string) : Q :=
  if decide (u ∈ df_index M ∧ v ∈ df_columns M) then df_cell M u v else 0%Q.

(** The pair passes the tests that precede scoring: two different nodes of
    the graph with no edge between them in either direction. *)
Definition eligible (G : DiGraph) (u v : string) : bool :=
  negb (bool_decide (u = v)) && DiGraph.has_node G u && DiGraph.has_node G v
  && negb (DiGraph.has_edge G u v) && negb (DiGraph.has_edge G v u).

(** The predicted strength of the pair [(u, v)] whose categories are [cu]
    and [cv]. *)
Definition gap_strength (G : DiGraph) (M : DataFrame) (cu cv : Category)
    (u v : string) : Q :=
  predicted_link_strength (topo_score G u v) (cooc_component M u v)
                          (bridge_bonus cu cv).

Definition gap_record (G : DiGraph) (M : DataFrame) (cu cv : Category)
    (u v : string) : GapRecord :=
  {| Source_Category := cu; Source_Node := u;
     Target_Category := cv; Target_Node := v;
     Topological_Score := topo_score G u v;
     Cooccurrence_Score := round3 (cooc_component M u v);
     Bridge_Bonus := bridge_bonus cu cv;
     Predicted_Link_Strength := round3 (gap_strength G M cu cv u v) |}.

(** The stage gets past its guard: neither the graph nor the matrix is
    empty. *)
Definition stage_runs (G : DiGraph) (M : DataFrame) : bool :=
  negb (bool_decide (DiGraph.number_of_nodes G = 0%nat) || Frame.empty M).

(** The gap candidate list a run leaves: empty when the stage was skipped
    or found nothing. *)
Definition gap_list (res : result (option (list GapRecord))) :
    list GapRecord :=
  match res with
  | Ok (Some df_gaps) => df_gaps
  | _ => []
  end.

(** The pair [(u, v)] appears in the gap candidate list. *)
Definition listed (res : result (option (list GapRecord))) (u v : string) :
    Prop :=
  ∃ r, r ∈ gap_list res ∧ Source_Node r = u ∧ Target_Node r = v.

(** The bridge bonus as a table over unordered category pairs: 1.5 for
    Theory with Application, 1.0 for Material with Application, 0 for
    every other pair. *)
Definition bridge_table (c1 c2 : Category) : Q :=
  match c1, c2 with
  | Theory, Application | Application, Theory => 1.5%Q
  | Material, Application | Application, Material => 1.0%Q
  | _, _ => 0%Q
  end.

(** [c1] stands before [c2] in [CATEGORY_ORDER]. *)
Definition precedes (c1 c2 : Category) : Prop :=
  (list_index c1 CATEGORY_ORDER < list_index c2 CATEGORY_ORDER)%nat.

(** The edges of a path: its pairs of consecutive nodes. *)
Fixpoint path_edges (path : list string) : list (string * string) :=
  match path with
  | u :: ((v :: _) as rest) => (u, v) :: path_edges rest
  | _ => []
  end.

(** Every edge of the path is an edge of [g]. *)
Definition linked (g : WGraph) (path : list string) : Prop :=
  ∀ e, e ∈ path_edges path → is_Some (WGraph.weight g e.1 e.2).

(** The co-occurrence weight of an edge of the pruned graph. *)
Definition edge_weight (g : WGraph) (e : string * string) : Q :=
  default 0%Q (WGraph.weight g e.1 e.2).

(** The average co-occurrence weight over the path's edges. *)
Definition avg_cooccurrence (g : WGraph) (path : list string) : Q :=
  mean (map (edge_weight g) (path_edges path)).

(** The number of path edges that are explicit edges of the link graph. *)
Definition explicit_link_count (G : DiGraph) (path : list string) : nat :=
  length (filter (λ e, DiGraph.has_edge G e.1 e.2 = true) (path_edges path)).

(** The step [e] goes to a category at an equal or later position in the
    category ordering. *)
Definition equal_or_later (node_info : gmap string NodeMeta)
    (e : string * string) : bool :=
  match get_category node_info e.1, get_category node_info e.2 with
  | Some cu, Some cv =>
      bool_decide (Category_to_nat cu ≤ Category_to_nat cv)%nat
  | _, _ => false
  end.

Definition hierarchy_score (node_info : gmap string NodeMeta)
    (path : list string) : nat :=
  length (filter (λ e, equal_or_later node_info e = true) (path_edges path)).

(** The categories met on the path. *)
Definition path_categories (node_info : gmap string NodeMeta)
    (path : list string) : gset Category :=
  list_to_set (omap (get_category node_info) path).

(** Their number when it is at least 3, else 0. *)
Definition category_span (node_info : gmap string NodeMeta)
    (path : list string) : nat :=
  let n := size (path_categories node_info path) in
  if decide (3 ≤ n)%nat then n else 0%nat.

(** Every weight stored in [g] is the value the matrix [M] holds for the
    pair, in one order or the other, and exceeds [min_cooc]. *)
Definition weights_above (M : DataFrame) (min_cooc : Q) (g : WGraph) : Prop :=
  ∀ u v w, WGraph.weight g u v = Some w →
           (min_cooc < w)%Q ∧ (w = df_cell M u v ∨ w = df_cell M v u).

(* ===================================================================== *)
(** * Sample inputs *)
(* ===================================================================== *)

(** Two categorised documents and one that is not: [alpha] is defined in
    both, [beta] is referenced twice and [ghost] is defined nowhere. *)
Definition corpus_AB : list Document :=
  [("theoretical.md", "# Theory
### alpha
Links [[./applications.md#beta]] and [[./applications.md#beta]] and
[[./applications.md#ghost]].
");
   ("applications.md", "### beta
plain text
### alpha
ignored redefinition [[./theoretical.md#alpha]]
");
   ("notes.md", "### gamma
[[./theoretical.md#alpha]]")].

(** A document whose one section refers to its own concept. *)
Definition corpus_loop : list Document :=
  [("theoretical.md", "### alpha
See also [[./theoretical.md#alpha]].")].

(** A Theory concept [alpha], a Material concept [m1] and an Application
    concept [m2], none linked to another; only [m1] and [m2] are in the
    co-occurrence matrix, with score 0.5. *)
Definition registry_B : gmap string NodeMeta :=
  <["m1" := {| category := Material; color := "#377eb8" |}]>
  (<["m2" := {| category := Application; color := "#e41a1c" |}]>
  (<["alpha" := {| category := Theory; color := "#a65628" |}]> ∅)).

Definition graph_B : DiGraph :=
  map_fold DiGraph.add_node DiGraph.empty registry_B.

Definition matrix_B : DataFrame :=
  {| df_index := ["m1"; "m2"];
     df_columns := ["m1"; "m2"];
     df_cell := λ u v, if decide (u = v) then 1%Q else 0.5%Q |}.

(** The matrix of a corpus without a single cross-reference. *)
Definition matrix_none : DataFrame :=
  {| df_index := []; df_columns := []; df_cell := λ _ _, 0%Q |}.

Definition record_B : GapRecord :=
  {| Source_Category := Material; Source_Node := "m1";
     Target_Category := Application; Target_Node := "m2";
     Topological_Score := 0;
     Cooccurrence_Score := 500 # 1000;
     Bridge_Bonus := 1.0;
     Predicted_Link_Strength := 1500 # 1000 |}.

Definition record_alpha : GapRecord :=
  {| Source_Category := Theory; Source_Node := "alpha";
     Target_Category := Application; Target_Node := "m2";
     Topological_Score := 0;
     Cooccurrence_Score := 0 # 1000;
     Bridge_Bonus := 1.5;
     Predicted_Link_Strength := 1500 # 1000 |}.

(** A matrix in which [alpha] and [m2] are negatively correlated. *)
Definition matrix_neg : DataFrame :=
  {| df_index := ["alpha"; "m2"];
     df_columns := ["alpha"; "m2"];
     df_cell := λ u v, if decide (u = v) then 1%Q else (-0.5)%Q |}.

(** A matrix in which every pair of [alpha] and [beta] is fully
    correlated. *)
Definition matrix_ones : DataFrame :=
  {| df_index := ["alpha"; "beta"];
     df_columns := ["alpha"; "beta"];
     df_cell := λ _ _, 1%Q |}.

(** A matrix in which the row label [m1] stands twice. *)
Definition matrix_repeat : DataFrame :=
  {| df_index := ["m1"; "m1"; "m2"];
     df_columns := ["m1"; "m2"];
     df_cell := λ u v, if decide (u = v) then 1%Q else 0.5%Q |}.

(** A matrix whose co-occurrence of [m1] and [m2] is [2^-60]. *)
Definition matrix_margin : DataFrame :=
  {| df_index := ["m1"; "m2"];
     df_columns := ["m1"; "m2"];
     df_cell := λ u v,
       if decide (u = v) then 1%Q else (1 # 1152921504606846976)%Q |}.

(* ===================================================================== *)
(** * Further notions *)
(* ===================================================================== *)

(** The document is one of the six category files. *)
Definition categorised (doc : Document) : Prop :=
  is_Some (NODE_CATEGORIES doc.1).

(** The edges one section contributes: from its owner to every link
    target that is a node. *)
Definition section_edges (nodes : gset string) (source_node : string)
    (found_links : list (string * string)) : gset (string * string) :=
  list_to_set (map (λ link : string * string, (source_node, link.2))
                   (filter (λ link : string * string, link.2 ∈ nodes)
                           found_links)).

(** The edges one document contributes to a graph whose nodes are
    [nodes]. *)
Definition document_edges (nodes : gset string) (doc : Document) :
    gset (string * string) :=
  match NODE_CATEGORIES doc.1 with
  | Some _ =>
      ⋃ map (λ isec : nat * string,
               match ("" :: find_headers doc.2) !! isec.1 with
               | Some source_node =>
                   if decide (source_node ∈ nodes)
                   then section_edges nodes source_node (find_links isec.2)
                   else ∅
               | None => ∅
               end)
            (enumerate_from 1 (drop 1 (split_sections doc.2)))
  | None => ∅
  end.

(** A concept id as the header pattern captures it: one or more letters,
    digits, hyphens or underscores. *)
Fixpoint all_chars (p : ascii → bool) (s : string) : bool :=
  match s with
  | EmptyString => true
  | String c s' => p c && all_chars p s'
  end.

Definition well_formed_id (s : string) : Prop :=
  s ≠ EmptyString ∧ all_chars Regex.is_id_char s = true.

(** The graph keeps its nodes, their attributes and its annotations. *)
Definition same_nodes (G G' : DiGraph) : Prop :=
  dg_nodes G' = dg_nodes G ∧ dg_pagerank G' = dg_pagerank G
  ∧ dg_community G' = dg_community G.

(** The link targets the builder reads in a document. *)
Definition document_targets (doc : Document) : list string :=
  map snd (find_links doc.2).

(** The pair a gap record stands for. *)
Definition gap_pair (r : GapRecord) : string * string :=
  (Source_Node r, Target_Node r).

(** The rows an atlas run leaves: none when it returned nothing. *)
Definition atlas_rows (res : option (list Atlas.LinkRecord)) :
    list Atlas.LinkRecord :=
  default [] res.

(** A graph in which [alpha] and [m2] both link to [m1]. *)
Definition graph_shared : DiGraph :=
  DiGraph.add_edge "m2" "m1" (DiGraph.add_edge "alpha" "m1" graph_B).

(** The atlas lists the link from [u] to [v]. *)
Definition atlas_listed (res : option (list Atlas.LinkRecord))
    (u v : string) : Prop :=
  ∃ r, r ∈ atlas_rows res ∧ Atlas.Source r = u ∧ Atlas.Target r = v.

(** The test of the loop that builds the pruned co-occurrence graph: the
    pair is added as an edge. *)
Definition above_threshold (M : DataFrame) (min_cooc : Q)
    (uv : string * string) : bool :=
  bool_decide (uv.1 ∈ df_index M) && bool_decide (uv.2 ∈ df_columns M)
  && bool_decide (uv.1 ≠ uv.2)
  && bool_decide (min_cooc < df_cell M uv.1 uv.2)%Q.

(** [(a, b)] is a pair of column labels, in column order, that the loop
    adds as an edge. *)
Definition cooc_pair (M : DataFrame) (min_cooc : Q) (a b : string) : Prop :=
  (a, b) ∈ combinations2 (df_columns M)
  ∧ above_threshold M min_cooc (a, b) = true.

(** The graph invariants the loop keeps: weights are symmetric, no node is
    its own neighbour, and a node has at least one neighbour. *)
Definition undirected_loop_free (g : WGraph) : Prop :=
  (∀ a b, WGraph.weight g a b = WGraph.weight g b a)
  ∧ (∀ a, WGraph.weight g a a = None)
  ∧ (∀ a, WGraph.has_node g a = true ↔ ∃ b, is_Some (WGraph.weight g a b)).

(** The table saved for the query from [m1] to [m2] over the sample graph,
    matrix and registry: the one row of the path [m1 -> m2]. *)
Definition table_B : list PathRecord :=
  Eval vm_compute in
    match synthesize_and_plot_trajectory graph_B matrix_B registry_B
            "m1" "m2" 4 0.3%Q 20 with
    | Ok (Trajectories table _) => table
    | _ => []
    end.

(** The concept has a partner with which the loop joins it: it is a node
    of the pruned co-occurrence graph. *)
Definition paired (M : DataFrame) (min_cooc : Q) (x : string) : Prop :=
  ∃ b, cooc_pair M min_cooc x b ∨ cooc_pair M min_cooc b x.

(** The concept passes the first guard of the trajectory synthesizer. *)
Definition known (G : DiGraph) (node_info : gmap string NodeMeta)
    (x : string) : Prop :=
  DiGraph.has_node G x = true ∧ is_Some (node_info !! x).

(** The rows of the master node list; none when the stage was skipped. *)
Definition master_rows (res : option (list MasterList.Row)) :
    list MasterList.Row :=
  default [] res.

(* ===================================================================== *)
(** * The regular expressions and the builders on sample text *)
(* ===================================================================== *)

Example find_headers_ex :
  find_headers "# T
### alpha
text [[./applications.md#beta]]
####  gamma-1 ### !x ###delta" = ["alpha"; "gamma-1"].
Proof. vm_compute. reflexivity. Qed.

(** A no-break space after the hashes is white space to [\s]. *)
Example find_headers_no_break_space :
  find_headers ("###" +:+ String (ascii_of_N 160) "alpha") = ["alpha"].
Proof. vm_compute. reflexivity. Qed.

Example split_sections_ex :
  split_sections "a###  b### c" = ["a"; "b"; "c"].
Proof. vm_compute. reflexivity. Qed.

Example find_links_ex :
  find_links "x [[./applications.md#beta]] [[./A.md#b]] [[./m_1.md#q]][[./a-b.md#Z_9]]"
  = [("applications.md", "beta"); ("a-b.md", "Z_9")].
Proof. vm_compute. reflexivity. Qed.

Example get_node_metadata_AB :
  map_to_list (get_node_metadata corpus_AB)
  ≡ₚ [("alpha", {| category := Theory; color := "#a65628" |});
      ("beta", {| category := Application; color := "#e41a1c" |})].
Proof. vm_compute. repeat constructor. Qed.

Example build_explicit_link_graph_AB :
  let G := build_explicit_link_graph corpus_AB (get_node_metadata corpus_AB) in
  elements (dom (dg_nodes G)) ≡ₚ ["alpha"; "beta"]
  ∧ elements (dg_edges G) ≡ₚ [("alpha", "beta"); ("alpha", "alpha")].
Proof. vm_compute. split; repeat constructor. Qed.

(** Scenario A: [alpha] links to [beta], so the pair is not a gap. *)
Example scenario_A :
  let node_info := get_node_metadata corpus_AB in
  analyze_probabilistic_knowledge_gaps
    (build_explicit_link_graph corpus_AB node_info) matrix_ones node_info
  = Ok None.
Proof. vm_compute. reflexivity. Qed.

(** Scenario B: the unlinked Material/Application pair with co-occurrence
    0.5 has strength 0 + 0.5 + 1.0 and is listed. *)
Example scenario_B :
  analyze_probabilistic_knowledge_gaps graph_B matrix_B registry_B
  = Ok (Some [record_alpha; record_B]).
Proof. vm_compute. reflexivity. Qed.

(** A query between two concepts joined in the pruned graph. *)
Example trajectory_m1_m2 :
  synthesize_and_plot_trajectory graph_B matrix_B registry_B "m1" "m2"
    4 0.3%Q 20
  = Ok (Trajectories
          [{| path_nodes := ["m1"; "m2"];
              score := 7.0;
              path_length := 2;
              avg_cooc_score := 500 # 1000;
              num_explicit_links := 0;
              hierarchical_flow_score := 1;
              category_span_score := 0 |}]
          ["m1"; "m2"]).
Proof. vm_compute. reflexivity. Qed.

(* ===================================================================== *)
(** * Properties of the metadata extractor *)
(* ===================================================================== *)

Section Metadata.

Implicit Types (node_info : gmap string NodeMeta) (h : string)
  (defs : list (string * NodeMeta)).

Lemma register_header_keeps meta node_info h' h x :
  node_info !! h = Some x →
  register_header meta node_info h' !! h = Some x.
Proof.
  intros Hx. unfold register_header.
  destruct (node_info !! h') eqn:Hh'; [done|].
  rewrite lookup_insert_ne; [done|]. intros ->. congruence.
Qed.

Lemma register_header_other meta node_info h' h :
  h' ≠ h → register_header meta node_info h' !! h = node_info !! h.
Proof.
  intros Hne. unfold register_header.
  destruct (node_info !! h'); [done|]. by rewrite lookup_insert_ne.
Qed.

Lemma register_header_fresh meta node_info h :
  node_info !! h = None → register_header meta node_info h !! h = Some meta.
Proof.
  intros Hn. unfold register_header. rewrite Hn. apply lookup_insert_eq.
Qed.

Lemma register_all_keeps defs node_info h x :
  node_info !! h = Some x → register_all defs node_info !! h = Some x.
Proof.
  revert node_info. induction defs as [|d defs IH]; intros ni Hx; [done|].
  simpl. apply IH. by apply register_header_keeps.
Qed.

Lemma register_all_other defs node_info h :
  h ∉ defs.*1 → register_all defs node_info !! h = node_info !! h.
Proof.
  revert node_info. induction defs as [|d defs IH]; intros ni Hnin; [done|].
  simpl in *. apply not_elem_of_cons in Hnin as [Hne Hnin].
  rewrite IH by done. by apply register_header_other.
Qed.

Lemma register_all_app defs1 defs2 node_info :
  register_all (defs1 ++ defs2) node_info
  = register_all defs2 (register_all defs1 node_info).
Proof. apply foldl_app. Qed.

Lemma get_node_metadata_file_defs node_info (doc : Document) :
  get_node_metadata_file node_info doc
  = register_all (header_definitions [doc]) node_info.
Proof.
  unfold get_node_metadata_file, header_definitions. simpl.
  rewrite app_nil_r.
  destruct (NODE_CATEGORIES doc.1) as [[cat col]|]; [|done].
  generalize (find_headers doc.2). intros hs. revert node_info.
  induction hs as [|h hs IH]; intros ni; [done|]. simpl. apply IH.
Qed.

Lemma header_definitions_cons (doc : Document) (files : list Document) :
  header_definitions (doc :: files)
  = header_definitions [doc] ++ header_definitions files.
Proof. unfold header_definitions. simpl. by rewrite app_nil_r. Qed.

Lemma get_node_metadata_from (files : list Document) node_info :
  foldl get_node_metadata_file node_info files
  = register_all (header_definitions files) node_info.
Proof.
  revert node_info. induction files as [|doc files IH]; intros ni; [done|].
  rewrite header_definitions_cons, register_all_app.
  rewrite <- get_node_metadata_file_defs. apply IH.
Qed.

End Metadata.

(** C9. For a concept id [h] defined more than once, the first defining
    header in processing order fixes its category and colour: whatever
    definitions [post] follow the first one, the registry maps [h] to the
    metadata [m] of that first definition, and the extractor is a total
    function that reports no error. *)
Theorem get_node_metadata_first_wins (files : list Document) (h : string)
    (m : NodeMeta) (pre post : list (string * NodeMeta)) :
  header_definitions files = pre ++ (h, m) :: post →
  h ∉ pre.*1 →
  get_node_metadata files !! h = Some m.
Proof.
  intros Hdefs Hfirst. unfold get_node_metadata.
  rewrite get_node_metadata_from, Hdefs, register_all_app. simpl.
  apply register_all_keeps. apply register_header_fresh.
  rewrite register_all_other by done. apply lookup_empty.
Qed.

Lemma get_node_metadata_first_wins_witness :
  get_node_metadata corpus_AB !! "alpha"
  = Some {| category := Theory; color := "#a65628" |}.
Proof.
  apply (get_node_metadata_first_wins corpus_AB "alpha"
           {| category := Theory; color := "#a65628" |} []
           [("beta", {| category := Application; color := "#e41a1c" |});
            ("alpha", {| category := Application; color := "#e41a1c" |})]).
  - vm_compute. reflexivity.
  - apply not_elem_of_nil.
Defined.

(* ===================================================================== *)
(** * Properties of the link graph builder *)
(* ===================================================================== *)

Section LinkGraph.

Variable node_info : gmap string NodeMeta.

Lemma has_node_spec (G : DiGraph) n :
  DiGraph.has_node G n = true ↔ n ∈ dom (dg_nodes G).
Proof. unfold DiGraph.has_node. by rewrite bool_decide_eq_true. Qed.

Lemma touch_known n (nodes : gmap string (option NodeMeta)) :
  n ∈ dom nodes → DiGraph.touch n nodes = nodes.
Proof.
  intros [x Hx]%elem_of_dom. unfold DiGraph.touch. by rewrite Hx.
Qed.

Lemma initial_graph_nodes :
  dg_nodes (map_fold DiGraph.add_node DiGraph.empty node_info)
    = Some <$> node_info
  ∧ dg_edges (map_fold DiGraph.add_node DiGraph.empty node_info) = ∅.
Proof.
  apply (map_fold_weak_ind
           (λ G (m : gmap string NodeMeta),
              dg_nodes G = Some <$> m ∧ dg_edges G = ∅)).
  - split; [by rewrite fmap_empty | done].
  - intros n d m G _ [Hn He]. split; simpl; [|done].
    by rewrite Hn, fmap_insert.
Qed.

Lemma initial_graph_within :
  within_registry node_info (map_fold DiGraph.add_node DiGraph.empty node_info).
Proof.
  destruct initial_graph_nodes as [Hn He]. split.
  - by rewrite Hn, dom_fmap_L.
  - intros u v. rewrite He. set_solver.
Qed.

Lemma add_edge_within G u v :
  within_registry node_info G →
  DiGraph.has_node G u = true → DiGraph.has_node G v = true →
  within_registry node_info (DiGraph.add_edge u v G).
Proof.
  intros [Hn He] Hu%has_node_spec Hv%has_node_spec. split; simpl.
  - rewrite (touch_known u) by done. by rewrite (touch_known v).
  - intros a b [Hab%elem_of_singleton | Hab]%elem_of_union.
    + inversion Hab; subst. by rewrite <- Hn.
    + by apply He.
Qed.

Lemma add_edge_has_node G u v n :
  DiGraph.has_node G u = true → DiGraph.has_node G v = true →
  DiGraph.has_node (DiGraph.add_edge u v G) n = DiGraph.has_node G n.
Proof.
  intros Hu%has_node_spec Hv%has_node_spec. unfold DiGraph.has_node. simpl.
  rewrite (touch_known u) by done. by rewrite (touch_known v).
Qed.

Lemma add_section_links_within source_node links G :
  within_registry node_info G → DiGraph.has_node G source_node = true →
  within_registry node_info (add_section_links source_node G links).
Proof.
  unfold add_section_links. revert G.
  induction links as [|link links IH]; intros G HG Hs; [done|]. simpl.
  destruct (DiGraph.has_node G link.2) eqn:Ht; [|by apply IH].
  apply IH.
  - by apply add_edge_within.
  - by rewrite add_edge_has_node.
Qed.

Lemma add_section_within headers G isec :
  within_registry node_info G → within_registry node_info (add_section headers G isec).
Proof.
  intros HG. unfold add_section.
  destruct (headers !! isec.1) as [source_node|]; [|done].
  destruct (DiGraph.has_node G source_node) eqn:Hs; [|done].
  by apply add_section_links_within.
Qed.

Lemma build_file_within G (doc : Document) :
  within_registry node_info G → within_registry node_info (build_explicit_link_graph_file G doc).
Proof.
  intros HG. unfold build_explicit_link_graph_file.
  destruct (NODE_CATEGORIES doc.1); [|done].
  generalize (enumerate_from 1 (drop 1 (split_sections doc.2))).
  intros secs. revert G HG.
  induction secs as [|isec secs IH]; intros G HG; [done|]. simpl.
  apply IH. by apply add_section_within.
Qed.

Lemma build_explicit_link_graph_within (files : list Document) :
  within_registry node_info (build_explicit_link_graph files node_info).
Proof.
  unfold build_explicit_link_graph.
  generalize initial_graph_within.
  generalize (map_fold DiGraph.add_node DiGraph.empty node_info).
  induction files as [|doc files IH]; intros G HG; [done|]. simpl.
  apply IH. by apply build_file_within.
Qed.

End LinkGraph.

Lemma touch_dom (n : string) (nodes : gmap string (option NodeMeta)) :
  dom (DiGraph.touch n nodes) = {[n]} ∪ dom nodes.
Proof.
  unfold DiGraph.touch. destruct (nodes !! n) eqn:Hn.
  - assert (n ∈ dom nodes) by (apply elem_of_dom; eauto). set_solver.
  - by rewrite dom_insert_L.
Qed.

Lemma add_edge_twice (u v : string) (G : DiGraph) :
  DiGraph.add_edge u v (DiGraph.add_edge u v G) = DiGraph.add_edge u v G.
Proof.
  unfold DiGraph.add_edge. simpl. f_equal.
  - rewrite (touch_known u), (touch_known v); [done| |];
      rewrite !touch_dom; set_solver.
  - set_solver.
Qed.

(* ===================================================================== *)
(** * The edges the builder adds *)
(* ===================================================================== *)

Lemma add_edge_same_nodes (G : DiGraph) (u v : string) :
  DiGraph.has_node G u = true → DiGraph.has_node G v = true →
  same_nodes G (DiGraph.add_edge u v G).
Proof.
  intros Hu%has_node_spec Hv%has_node_spec. split; [|done]. simpl.
  rewrite (touch_known u) by done. by rewrite (touch_known v).
Qed.

Lemma has_node_same_nodes (G G' : DiGraph) (n : string) :
  same_nodes G G' → DiGraph.has_node G' n = DiGraph.has_node G n.
Proof. intros [Hn _]. unfold DiGraph.has_node. by rewrite Hn. Qed.

Lemma add_section_links_edges (source_node : string)
    (links : list (string * string)) (G : DiGraph) :
  DiGraph.has_node G source_node = true →
  same_nodes G (add_section_links source_node G links)
  ∧ dg_edges (add_section_links source_node G links)
    = dg_edges G ∪ section_edges (dom (dg_nodes G)) source_node links.
Proof.
  unfold add_section_links, section_edges. revert G.
  induction links as [|link links IH]; intros G Hs; simpl.
  { split; [done|]. set_solver. }
  rewrite filter_cons.
  destruct (DiGraph.has_node G link.2) eqn:Ht.
  - destruct (add_edge_same_nodes G source_node link.2 Hs Ht)
      as (Hn & Hp & Hc).
    destruct (IH (DiGraph.add_edge source_node link.2 G)) as [Hsame Hedges].
    { by rewrite (has_node_same_nodes G). }
    split.
    + destruct Hsame as (Hn' & Hp' & Hc'). split; [|split]; congruence.
    + rewrite Hedges, Hn. apply has_node_spec in Ht.
      rewrite decide_True by done. simpl. set_solver.
  - destruct (IH G Hs) as [Hsame Hedges]. split; [done|].
    rewrite Hedges. rewrite decide_False; [done|].
    intros Hin%has_node_spec. congruence.
Qed.

Lemma add_section_edges (headers : list string) (G : DiGraph)
    (isec : nat * string) :
  same_nodes G (add_section headers G isec)
  ∧ dg_edges (add_section headers G isec)
    = dg_edges G
      ∪ match headers !! isec.1 with
        | Some source_node =>
            if decide (source_node ∈ dom (dg_nodes G))
            then section_edges (dom (dg_nodes G)) source_node
                               (find_links isec.2)
            else ∅
        | None => ∅
        end.
Proof.
  unfold add_section.
  destruct (headers !! isec.1) as [source_node|];
    [|split; [done | set_solver]].
  destruct (DiGraph.has_node G source_node) eqn:Hs.
  - apply has_node_spec in Hs as Hs'. rewrite decide_True by done.
    by apply add_section_links_edges.
  - rewrite decide_False; [split; [done | set_solver]|].
    intros Hin%has_node_spec. congruence.
Qed.

Lemma build_file_edges (G : DiGraph) (doc : Document) :
  same_nodes G (build_explicit_link_graph_file G doc)
  ∧ dg_edges (build_explicit_link_graph_file G doc)
    = dg_edges G ∪ document_edges (dom (dg_nodes G)) doc.
Proof.
  unfold build_explicit_link_graph_file, document_edges.
  destruct (NODE_CATEGORIES doc.1); [|split; [done | set_solver]].
  generalize (enumerate_from 1 (drop 1 (split_sections doc.2))).
  generalize ("" :: find_headers doc.2). intros headers secs. revert G.
  induction secs as [|isec secs IH]; intros G; simpl.
  { split; [done | set_solver]. }
  destruct (add_section_edges headers G isec) as [(Hn & Hp & Hc) He].
  destruct (IH (add_section headers G isec)) as [(Hn' & Hp' & Hc') He'].
  split.
  - split; [|split]; congruence.
  - rewrite He', He, Hn. set_solver.
Qed.

Lemma build_files_edges (files : list Document) (G : DiGraph) :
  same_nodes G (foldl build_explicit_link_graph_file G files)
  ∧ dg_edges (foldl build_explicit_link_graph_file G files)
    = dg_edges G ∪ ⋃ map (document_edges (dom (dg_nodes G))) files.
Proof.
  revert G. induction files as [|doc files IH]; intros G; simpl.
  { split; [done | set_solver]. }
  destruct (build_file_edges G doc) as [(Hn & Hp & Hc) He].
  destruct (IH (build_explicit_link_graph_file G doc))
    as [(Hn' & Hp' & Hc') He'].
  split.
  - split; [|split]; congruence.
  - rewrite He', He, Hn. set_solver.
Qed.

Lemma initial_graph_annotations (node_info : gmap string NodeMeta) :
  dg_pagerank (map_fold DiGraph.add_node DiGraph.empty node_info) = ∅
  ∧ dg_community (map_fold DiGraph.add_node DiGraph.empty node_info) = ∅.
Proof.
  apply (map_fold_weak_ind
           (λ G (_ : gmap string NodeMeta),
              dg_pagerank G = ∅ ∧ dg_community G = ∅)); [done|].
  by intros n d m G _ [Hp Hc].
Qed.

(** What the builder returns, field by field. *)
Lemma build_explicit_link_graph_fields (files : list Document)
    (node_info : gmap string NodeMeta) :
  let G := build_explicit_link_graph files node_info in
  dg_nodes G = Some <$> node_info
  ∧ dg_edges G = ⋃ map (document_edges (dom node_info)) files
  ∧ dg_pagerank G = ∅ ∧ dg_community G = ∅.
Proof.
  unfold build_explicit_link_graph. simpl.
  destruct (initial_graph_nodes node_info) as [Hn0 He0].
  destruct (initial_graph_annotations node_info) as [Hp0 Hc0].
  destruct (build_files_edges files
              (map_fold DiGraph.add_node DiGraph.empty node_info))
    as [(Hn & Hp & Hc) He].
  rewrite Hn, Hp, Hc, He, Hn0, He0, Hp0, Hc0, dom_fmap_L.
  split; [done|]. split; [set_solver | done].
Qed.

Lemma DiGraph_eq (G G' : DiGraph) :
  dg_nodes G = dg_nodes G' → dg_edges G = dg_edges G' →
  dg_pagerank G = dg_pagerank G' → dg_community G = dg_community G' →
  G = G'.
Proof. destruct G, G'. simpl. by intros -> -> -> ->. Qed.

Lemma elem_of_enumerate_from {A} (start : nat) (l : list A) (i : nat)
    (x : A) :
  (i, x) ∈ enumerate_from start l → (start ≤ i)%nat ∧ x ∈ l.
Proof.
  revert start. induction l as [|y l IH]; intros start; simpl.
  - by intros ?%elem_of_nil.
  - intros [[= -> ->] | Hin]%elem_of_cons.
    + split; [lia | apply list_elem_of_here].
    + apply IH in Hin as [Hle Hin].
      split; [lia | by apply list_elem_of_further].
Qed.

Lemma elem_of_section_edges (nodes : gset string) (source_node : string)
    (links : list (string * string)) (u v : string) :
  (u, v) ∈ section_edges nodes source_node links
  ↔ u = source_node ∧ v ∈ nodes ∧ ∃ file, (file, v) ∈ links.
Proof.
  unfold section_edges. rewrite elem_of_list_to_set, list_elem_of_fmap.
  split.
  - intros ([file target] & [= -> ->] & [Hn Hin]%list_elem_of_filter).
    simpl in *. split; [done|]. split; [done|]. by exists file.
  - intros (-> & Hn & file & Hin). exists (file, v). split; [done|].
    by apply list_elem_of_filter.
Qed.

Lemma elem_of_document_edges (nodes : gset string) (doc : Document)
    (u v : string) :
  (u, v) ∈ document_edges nodes doc →
  categorised doc ∧ u ∈ nodes ∧ v ∈ nodes ∧ u ∈ find_headers doc.2
  ∧ ∃ section file,
      section ∈ drop 1 (split_sections doc.2)
      ∧ (file, v) ∈ find_links section.
Proof.
  unfold document_edges, categorised.
  destruct (NODE_CATEGORIES doc.1) as [cc|]; [|by intros ?%elem_of_empty].
  intros (E & HE & Huv)%elem_of_union_list.
  apply list_elem_of_fmap in HE as ([i section] & -> & Hin).
  apply elem_of_enumerate_from in Hin as [Hi Hsec]. simpl in Huv.
  destruct i as [|i]; [lia|]. simpl in Huv.
  destruct (find_headers doc.2 !! i) as [source_node|] eqn:Hsrc;
    [|by apply elem_of_empty in Huv].
  destruct (decide (source_node ∈ nodes)) as [Hn|Hn];
    [|by apply elem_of_empty in Huv].
  apply elem_of_section_edges in Huv as (-> & Hv & file & Hlink).
  split; [by eexists|]. split; [done|]. split; [done|].
  split; [by eapply list_elem_of_lookup_2|]. by exists section, file.
Qed.

(** C6. For every corpus and registry the directed link graph has exactly
    the registry's keys as its nodes; every edge joins two registry
    concepts, so a cross-reference to an id outside the registry leaves no
    edge; and repeated references give no multi-edges: a corpus in which
    every document, and with it every reference, is read a second time
    gives the same graph.  The graph need not be simple: a section that
    refers to its own concept produces a self-loop. *)
Theorem build_explicit_link_graph_nodes_edges (files : list Document)
    (node_info : gmap string NodeMeta) :
  let G := build_explicit_link_graph files node_info in
  dom (dg_nodes G) = dom node_info
  ∧ (∀ u v, (u, v) ∈ dg_edges G → u ∈ dom node_info ∧ v ∈ dom node_info)
  ∧ (∀ u v, v ∉ dom node_info → DiGraph.has_edge G u v = false)
  ∧ build_explicit_link_graph (files ++ files) node_info = G.
Proof.
  destruct (build_explicit_link_graph_within node_info files) as [Hn He].
  simpl. split; [exact Hn|]. split; [exact He|]. split.
  - intros u v Hv. unfold DiGraph.has_edge. apply bool_decide_eq_false.
    intros Huv. apply He in Huv. tauto.
  - destruct (build_explicit_link_graph_fields files node_info)
      as (Hn1 & He1 & Hp1 & Hc1).
    destruct (build_explicit_link_graph_fields (files ++ files) node_info)
      as (Hn2 & He2 & Hp2 & Hc2).
    apply DiGraph_eq; simpl in *.
    + by rewrite Hn1, Hn2.
    + rewrite He1, He2, map_app, union_list_app_L. set_solver.
    + by rewrite Hp1, Hp2.
    + by rewrite Hc1, Hc2.
Qed.

(** A section that refers to its own concept gives a self-loop: the graph
    is without parallel edges, but not simple. *)
Lemma self_reference_gives_loop :
  ¬ loop_free (build_explicit_link_graph corpus_loop
                 (get_node_metadata corpus_loop)).
Proof.
  intros Hfree. specialize (Hfree "alpha"). vm_compute in Hfree.
  discriminate.
Qed.

(* ===================================================================== *)
(** * Properties of the co-occurrence builder *)
(* ===================================================================== *)

Section ListFacts.

Lemma count_pos (c : string) (l : list string) :
  (0 < count c l)%nat ↔ c ∈ l.
Proof.
  unfold count. induction l as [|x l IH]; simpl.
  - split; [lia | by intros ?%elem_of_nil].
  - rewrite filter_cons. destruct (decide (x = c)) as [->|Hne]; simpl.
    + split; [intros _; apply list_elem_of_here | lia].
    + rewrite IH. rewrite elem_of_cons. naive_solver.
Qed.

Lemma count_absent (c : string) (l : list string) :
  c ∉ l → count c l = 0%nat.
Proof.
  intros Hnin. destruct (count c l) eqn:Hc; [done|].
  exfalso. apply Hnin, count_pos. lia.
Qed.

Lemma sum_list_pos (l : list nat) :
  (0 < sum_list l)%nat ↔ ∃ x, x ∈ l ∧ (0 < x)%nat.
Proof.
  induction l as [|y l IH]; simpl.
  - split; [lia | by intros (x & ?%elem_of_nil & _)].
  - split.
    + intros Hpos. destruct (decide (0 < y)%nat) as [Hy|Hy].
      * exists y. split; [apply list_elem_of_here | done].
      * destruct IH as [IH _]. destruct IH as (x & Hx & Hx0); [lia|].
        exists x. split; [by apply list_elem_of_further | done].
    + intros (x & [->|Hx]%elem_of_cons & Hx0); [lia|].
      assert (0 < sum_list l)%nat by (apply IH; eauto). lia.
Qed.

Lemma list_index_inj `{EqDecision A} (x y : A) (l : list A) :
  x ∈ l → list_index x l = list_index y l → x = y.
Proof.
  induction l as [|z l IH]; simpl; [by intros ?%elem_of_nil|].
  intros Hx Heq.
  destruct (decide (z = x)) as [Hzx|Hzx], (decide (z = y)) as [Hzy|Hzy];
    try congruence.
  apply elem_of_cons in Hx as [Hx|Hx]; [congruence|].
  apply IH; [done | lia].
Qed.

Lemma elem_of_sorted_keys {V} (d : gmap string V) (k : string) :
  k ∈ sorted_keys d ↔ is_Some (d !! k).
Proof.
  unfold sorted_keys.
  rewrite (merge_sort_Permutation string_le (elements (dom d))).
  by rewrite elem_of_elements, elem_of_dom.
Qed.

End ListFacts.

Section Abundance.

Lemma fill_abundance_cells (doc : string) (links cs : list string)
    (A : Frame nat) :
  let A' := foldl (λ acc (cc : string * nat),
                     if decide (cc.1 ∈ df_index acc)
                     then Frame.set_loc cc.1 doc cc.2 acc else acc)
                  A (map (λ c, (c, count c links)) cs) in
  df_index A' = df_index A ∧ df_columns A' = df_columns A
  ∧ ∀ c d, df_cell A' c d =
      if decide (d = doc ∧ c ∈ cs ∧ c ∈ df_index A) then count c links
      else df_cell A c d.
Proof.
  revert A. induction cs as [|c0 cs IH]; intros A; simpl.
  - split; [done|]. split; [done|]. intros c d.
    case_decide as H; [|done]. destruct H as (_ & []%elem_of_nil & _).
  - destruct (decide (c0 ∈ df_index A)) as [Hin|Hnin].
    + destruct (IH (Frame.set_loc c0 doc (count c0 links) A))
        as (Hi & Hc & Hcell).
      split; [exact Hi|]. split; [exact Hc|]. intros c d.
      rewrite Hcell. simpl.
      repeat case_decide; try done; set_solver.
    + destruct (IH A) as (Hi & Hc & Hcell).
      split; [exact Hi|]. split; [exact Hc|]. intros c d.
      rewrite Hcell. repeat case_decide; try done; set_solver.
Qed.

Lemma fill_abundance_filled I C doc l links A :
  links !! doc = None →
  abundance_filled I C links A →
  abundance_filled I C (<[doc := l]> links) (fill_abundance doc l A).
Proof.
  intros Hfresh (Hi & Hc & Hcell). unfold fill_abundance, value_counts.
  destruct (fill_abundance_cells doc l (remove_dups l) A)
    as (Hi' & Hc' & Hcell').
  split; [by rewrite Hi'|]. split; [by rewrite Hc'|]. intros c d.
  rewrite Hcell', Hcell, Hi.
  destruct (decide (d = doc)) as [->|Hne].
  - rewrite lookup_insert_eq, Hfresh.
    destruct (decide (c ∈ I)) as [HcI|HcI].
    + case_decide as H; [done|].
      rewrite count_absent; [done|].
      rewrite elem_of_remove_dups in H. tauto.
    + case_decide as H; [tauto | done].
  - rewrite lookup_insert_ne by done. case_decide as H; [tauto | done].
Qed.

Lemma abundance_table_filled (files : list Document)
    (node_info : gmap string NodeMeta) :
  abundance_filled (sorted_keys node_info) (sorted_keys (doc_links files))
    (doc_links files) (abundance_table files node_info).
Proof.
  unfold abundance_table.
  generalize (sorted_keys node_info) (sorted_keys (doc_links files)).
  intros I C.
  apply (map_fold_weak_ind (λ A links, abundance_filled I C links A)).
  - split; [done|]. split; [done|]. intros c d. simpl.
    rewrite lookup_empty. by case_decide.
  - intros doc l links A Hfresh HA. by apply fill_abundance_filled.
Qed.

(** A concept survives [drop_unreferenced] exactly when it is
    registered and referenced in some categorised document. *)
Lemma retained_iff (files : list Document)
    (node_info : gmap string NodeMeta) (c : string) :
  c ∈ df_index (drop_unreferenced (abundance_table files node_info))
  ↔ c ∈ dom node_info
    ∧ ∃ d l, doc_links files !! d = Some l ∧ c ∈ l.
Proof.
  destruct (abundance_table_filled files node_info) as (Hi & Hc & Hcell).
  unfold drop_unreferenced. simpl.
  rewrite list_elem_of_filter, Hi, elem_of_sorted_keys, <- elem_of_dom.
  unfold Frame.row. rewrite Hc, sum_list_pos.
  split.
  - intros [(x & Hx & Hpos) Hdom]. split; [done|].
    apply list_elem_of_fmap in Hx as (d & -> & Hd).
    rewrite Hcell in Hpos. case_decide; [|lia].
    destruct (doc_links files !! d) as [l|] eqn:Hl; [|lia].
    exists d, l. split; [done|]. by apply count_pos.
  - intros [Hdom (d & l & Hl & Hin)]. split; [|done].
    exists (count c l). split; [|by apply count_pos].
    apply list_elem_of_fmap. exists d. split.
    + rewrite Hcell, Hl. rewrite decide_True; [done|].
      by rewrite elem_of_sorted_keys, <- elem_of_dom.
    + rewrite elem_of_sorted_keys. eauto.
Qed.

End Abundance.

(* ===================================================================== *)
(** * Properties of the knowledge gap scorer *)
(* ===================================================================== *)

Section ResultMonad.

Context {A B : Type} (f : A → result B).

Lemma mapM_Ok_Forall2 (l : list A) (ys : list B) :
  mapM f l = Ok ys ↔ Forall2 (λ x y, f x = Ok y) l ys.
Proof.
  revert ys. induction l as [|x l IH]; intros ys; simpl.
  - split.
    + intros [= <-]. constructor.
    + by intros ->%Forall2_nil_inv_l.
  - split.
    + destruct (f x) as [y|e] eqn:Hx; simpl; [|done].
      destruct (mapM f l) as [k|e] eqn:Hl; simpl; [|done].
      intros [= <-]. constructor; [done|]. by apply IH.
    + intros (y & k & Hx & Hl & ->)%Forall2_cons_inv_l.
      apply IH in Hl. by rewrite Hx, Hl.
Qed.

Lemma mapM_Ok_total (l : list A) :
  (∀ x, x ∈ l → ∃ y, f x = Ok y) → ∃ ys, mapM f l = Ok ys.
Proof.
  induction l as [|x l IH]; intros Hall; simpl; [by eexists|].
  destruct (Hall x) as [y Hy]; [apply list_elem_of_here|].
  destruct IH as [k Hk].
  { intros x' Hx'. apply Hall. by apply list_elem_of_further. }
  exists (y :: k). by rewrite Hy, Hk.
Qed.

End ResultMonad.

Lemma mapM_omap_elem {A B} (f : A → result (option B)) (l : list A)
    (ys : list (option B)) (r : B) :
  mapM f l = Ok ys →
  r ∈ omap id ys ↔ ∃ x, x ∈ l ∧ f x = Ok (Some r).
Proof.
  rewrite mapM_Ok_Forall2. intros HF. rewrite list_elem_of_omap. split.
  - intros (o & Ho & Hr). simpl in Hr. subst o.
    apply list_elem_of_lookup in Ho as [i Hi].
    destruct (Forall2_lookup_r _ _ _ _ _ HF Hi) as (x & Hx & Hfx).
    exists x. split; [|done]. by eapply list_elem_of_lookup_2.
  - intros (x & Hx & Hfx).
    apply list_elem_of_lookup in Hx as [i Hi].
    destruct (Forall2_lookup_l _ _ _ _ _ HF Hi) as (o & Ho & Hfo).
    exists o. split; [by eapply list_elem_of_lookup_2|].
    rewrite Hfx in Hfo. by injection Hfo as <-.
Qed.

Lemma mapM_Raise {A B} (f : A → result B) (l : list A) (e : exn) :
  mapM f l = Raise e → ∃ x, x ∈ l ∧ f x = Raise e.
Proof.
  induction l as [|x l IH]; simpl; [done|].
  destruct (f x) as [y|e'] eqn:Hx; simpl.
  - destruct (mapM f l) as [k|e'] eqn:Hl; simpl; [done|].
    intros [= ->]. destruct IH as (x' & Hx' & Hfx'); [done|].
    exists x'. split; [by apply list_elem_of_further | done].
  - intros [= ->]. exists x. split; [apply list_elem_of_here | done].
Qed.

Lemma occurs_once_NoDup (x : string) (l : list string) :
  NoDup l → x ∈ l → Frame.occurs_once x l = true.
Proof.
  intros Hnd Hin. unfold Frame.occurs_once. apply bool_decide_eq_true.
  induction Hnd as [|y l Hy Hnd IH]; [by apply elem_of_nil in Hin|].
  rewrite filter_cons. apply elem_of_cons in Hin as [->|Hin].
  - rewrite decide_True by done. simpl. f_equal.
    by apply (count_absent y l).
  - rewrite decide_False; [by apply IH|]. by intros ->.
Qed.

Section GapScorer.

Variable G : DiGraph.
Variable M : DataFrame.
Variable node_info : gmap string NodeMeta.

(** With labels that do not repeat, [loc] gives the cell. *)
Lemma loc_unique (u v : string) :
  unique_labels M → u ∈ df_index M → v ∈ df_columns M →
  Frame.loc M u v = Ok (Scalar (df_cell M u v)).
Proof.
  intros [Hi Hc] Hu Hv. unfold Frame.loc.
  rewrite !decide_True by done.
  by rewrite !occurs_once_NoDup by done.
Qed.

(** Whatever [loc] gives for two labels of the table is the cell or,
    under a label that repeats, a slice. *)
Lemma loc_cases (u v : string) :
  u ∈ df_index M → v ∈ df_columns M →
  Frame.loc M u v = Ok (Scalar (df_cell M u v))
  ∨ (Frame.loc M u v = Ok Slice ∧ ¬ unique_labels M).
Proof.
  intros Hu Hv. unfold Frame.loc. rewrite !decide_True by done.
  destruct (_ && _) eqn:Honce; [by left|]. right. split; [done|].
  intros [Hi Hc]. by rewrite !occurs_once_NoDup in Honce by done.
Qed.

Lemma cooc_score_cases (u v : string) :
  cooc_score M u v = Ok (Scalar (cooc_component M u v))
  ∨ (cooc_score M u v = Ok Slice ∧ ¬ unique_labels M).
Proof.
  unfold cooc_score, cooc_component.
  destruct (decide (u ∈ df_index M)) as [Hu|Hu],
           (decide (v ∈ df_columns M)) as [Hv|Hv].
  - rewrite !bool_decide_eq_true_2 by done. simpl.
    rewrite decide_True by done. by apply loc_cases.
  - rewrite (bool_decide_eq_false_2 (v ∈ _)) by done.
    rewrite andb_false_r. left. by rewrite decide_False by tauto.
  - rewrite (bool_decide_eq_false_2 (u ∈ _)) by done. simpl.
    left. by rewrite decide_False by tauto.
  - rewrite (bool_decide_eq_false_2 (u ∈ _)) by done. simpl.
    left. by rewrite decide_False by tauto.
Qed.

Lemma cooc_score_component (u v : string) :
  unique_labels M →
  cooc_score M u v = Ok (Scalar (cooc_component M u v)).
Proof.
  intros Huniq. by destruct (cooc_score_cases u v) as [?|[_ ?]].
Qed.

(** The body of the loop for a registered pair whose matrix entry is a
    number. *)
Lemma gap_candidate_scalar (u v : string) (du dv : NodeMeta) :
  node_info !! u = Some du → node_info !! v = Some dv →
  cooc_score M u v = Ok (Scalar (cooc_component M u v)) →
  gap_candidate G M node_info (u, v)
  = Ok (if eligible G u v then
          if bool_decide (1.0 < gap_strength G M (category du)
                                  (category dv) u v)%Q
          then Some (gap_record G M (category du) (category dv) u v)
          else None
        else None).
Proof.
  intros Hu Hv Hcooc. unfold gap_candidate, eligible.
  destruct (bool_decide (u = v)); [done|].
  destruct (DiGraph.has_node G u); [|done].
  destruct (DiGraph.has_node G v); [|done].
  destruct (DiGraph.has_edge G u v); [done|].
  destruct (DiGraph.has_edge G v u); [done|].
  cbn [negb andb orb]. rewrite Hcooc. cbn [mbind result_bind].
  unfold category_of. rewrite Hu, Hv.
  cbn [mbind result_bind Frame.scalar].
  fold (gap_strength G M (category du) (category dv) u v).
  by destruct (bool_decide _).
Qed.

(** The body of the loop for a registered pair: it scores the pair, or
    it raises [ValueError] on a slice, which takes a repeated label. *)
Lemma gap_candidate_cases (u v : string) (du dv : NodeMeta) :
  node_info !! u = Some du → node_info !! v = Some dv →
  gap_candidate G M node_info (u, v)
  = Ok (if eligible G u v then
          if bool_decide (1.0 < gap_strength G M (category du)
                                  (category dv) u v)%Q
          then Some (gap_record G M (category du) (category dv) u v)
          else None
        else None)
  ∨ (gap_candidate G M node_info (u, v) = Raise ValueError
     ∧ ¬ unique_labels M).
Proof.
  intros Hu Hv.
  destruct (cooc_score_cases u v) as [Hcooc|[Hcooc Hdup]].
  { left. by apply gap_candidate_scalar. }
  unfold gap_candidate, eligible.
  destruct (bool_decide (u = v)); [by left|].
  destruct (DiGraph.has_node G u); [|by left].
  destruct (DiGraph.has_node G v); [|by left].
  destruct (DiGraph.has_edge G u v); [by left|].
  destruct (DiGraph.has_edge G v u); [by left|].
  cbn [negb andb orb]. rewrite Hcooc. cbn [mbind result_bind].
  unfold category_of. rewrite Hu, Hv.
  cbn [mbind result_bind Frame.scalar]. by right.
Qed.

Lemma gap_candidate_registered (u v : string) (du dv : NodeMeta) :
  unique_labels M →
  node_info !! u = Some du → node_info !! v = Some dv →
  gap_candidate G M node_info (u, v)
  = Ok (if eligible G u v then
          if bool_decide (1.0 < gap_strength G M (category du)
                                  (category dv) u v)%Q
          then Some (gap_record G M (category du) (category dv) u v)
          else None
        else None).
Proof.
  intros Huniq Hu Hv.
  by destruct (gap_candidate_cases u v du dv Hu Hv) as [?|[_ ?]].
Qed.

(** A pair whose scoring returns has been scored as the formula says. *)
Lemma gap_candidate_returns (u v : string) (du dv : NodeMeta)
    (appended : option GapRecord) :
  node_info !! u = Some du → node_info !! v = Some dv →
  gap_candidate G M node_info (u, v) = Ok appended →
  appended
  = if eligible G u v then
      if bool_decide (1.0 < gap_strength G M (category du)
                              (category dv) u v)%Q
      then Some (gap_record G M (category du) (category dv) u v)
      else None
    else None.
Proof.
  intros Hu Hv Hret.
  destruct (gap_candidate_cases u v du dv Hu Hv) as [Hok|[Hraise _]].
  - rewrite Hok in Hret. by injection Hret as <-.
  - by rewrite Hraise in Hret.
Qed.

Lemma elem_of_nodes_by_cat (cat : Category) (n : string) :
  n ∈ nodes_by_cat node_info G cat
  ↔ ∃ d, node_info !! n = Some d ∧ category d = cat
         ∧ DiGraph.has_node G n = true.
Proof.
  unfold nodes_by_cat. rewrite list_elem_of_fmap. split.
  - intros ([n' d] & -> & Hin). simpl.
    apply list_elem_of_filter in Hin as [[Hc Hn] Hin]. simpl in *.
    apply elem_of_map_to_list in Hin. exists d.
    split; [done|]. split; [done|]. by apply Is_true_true.
  - intros (d & Hd & Hc & Hn). exists (n, d). split; [done|].
    apply list_elem_of_filter. simpl. split.
    + split; [done|]. by apply Is_true_true.
    + by apply elem_of_map_to_list.
Qed.

Lemma elem_of_candidate_pairs (u v : string) :
  (u, v) ∈ candidate_pairs G node_info
  ↔ ∃ du dv, node_info !! u = Some du ∧ node_info !! v = Some dv
      ∧ DiGraph.has_node G u = true ∧ DiGraph.has_node G v = true
      ∧ (category du, category dv) ∈ combinations2 CATEGORY_ORDER.
Proof.
  unfold candidate_pairs. rewrite list_elem_of_bind. split.
  - intros ([c1 c2] & Hin & Hcats). simpl in Hin.
    apply list_elem_of_bind in Hin as (u' & Hin & Hu).
    apply list_elem_of_bind in Hin as (v' & Hin & Hv).
    apply list_elem_of_singleton in Hin. injection Hin as -> ->.
    apply elem_of_nodes_by_cat in Hu as (du & Hdu & <- & Hnu).
    apply elem_of_nodes_by_cat in Hv as (dv & Hdv & <- & Hnv).
    by exists du, dv.
  - intros (du & dv & Hdu & Hdv & Hnu & Hnv & Hcats).
    exists (category du, category dv). split; [|done]. simpl.
    apply list_elem_of_bind. exists u. split.
    + apply list_elem_of_bind. exists v. split.
      * by apply list_elem_of_singleton.
      * apply elem_of_nodes_by_cat. by exists dv.
    + apply elem_of_nodes_by_cat. by exists du.
Qed.

Lemma candidate_pairs_registered (uv : string * string) :
  uv ∈ candidate_pairs G node_info →
  ∃ du dv, node_info !! uv.1 = Some du ∧ node_info !! uv.2 = Some dv.
Proof.
  destruct uv as [u v]. intros Hin.
  apply elem_of_candidate_pairs in Hin as (du & dv & ? & ? & _).
  by exists du, dv.
Qed.

(** With labels that do not repeat, scoring the visited pairs raises
    nothing. *)
Lemma scoring_total :
  unique_labels M →
  ∃ scored, mapM (gap_candidate G M node_info)
                 (candidate_pairs G node_info) = Ok scored.
Proof.
  intros Huniq. apply mapM_Ok_total. intros [u v] Hin.
  destruct (candidate_pairs_registered _ Hin) as (du & dv & Hu & Hv).
  simpl in Hu, Hv. rewrite (gap_candidate_registered u v du dv) by done.
  by eexists.
Qed.

Lemma analyze_gaps_total :
  unique_labels M →
  ∃ res, analyze_probabilistic_knowledge_gaps G M node_info = Ok res.
Proof.
  intros Huniq. unfold analyze_probabilistic_knowledge_gaps.
  destruct (_ || _); [by eexists|].
  destruct (scoring_total Huniq) as [scored ->]. simpl.
  destruct (bool_decide _); by eexists.
Qed.

(** The scorer raises nothing but [ValueError], and that only on a
    matrix with a repeated label. *)
Lemma analyze_gaps_raise (e : exn) :
  analyze_probabilistic_knowledge_gaps G M node_info = Raise e →
  e = ValueError ∧ ¬ unique_labels M.
Proof.
  unfold analyze_probabilistic_knowledge_gaps.
  destruct (_ || _); [done|].
  destruct (mapM _ _) as [scored|e'] eqn:Hscored; simpl.
  { by destruct (bool_decide _). }
  intros [= ->].
  apply mapM_Raise in Hscored as ([u v] & Hin & Hraise).
  destruct (candidate_pairs_registered _ Hin) as (du & dv & Hu & Hv).
  simpl in Hu, Hv.
  destruct (gap_candidate_cases u v du dv Hu Hv) as [Hok|[Hval Hdup]].
  - by rewrite Hok in Hraise.
  - rewrite Hval in Hraise. by injection Hraise as <-.
Qed.

(** A run that is past the guard and returns has scored every pair. *)
Lemma returned_run_scored (out : option (list GapRecord)) :
  analyze_probabilistic_knowledge_gaps G M node_info = Ok out →
  stage_runs G M = true →
  ∃ scored, mapM (gap_candidate G M node_info)
                 (candidate_pairs G node_info) = Ok scored.
Proof.
  unfold analyze_probabilistic_knowledge_gaps, stage_runs.
  destruct (_ || _); [done|].
  destruct (mapM _ _) as [scored|e]; [by eexists | done].
Qed.

Lemma returned_run_pair (out : option (list GapRecord))
    (uv : string * string) :
  analyze_probabilistic_knowledge_gaps G M node_info = Ok out →
  stage_runs G M = true →
  uv ∈ candidate_pairs G node_info →
  ∃ appended, gap_candidate G M node_info uv = Ok appended.
Proof.
  intros Hout Hruns Hin.
  destruct (returned_run_scored out Hout Hruns) as [scored Hscored].
  apply mapM_Ok_Forall2 in Hscored.
  apply list_elem_of_lookup in Hin as [i Hi].
  destruct (Forall2_lookup_l _ _ _ _ _ Hscored Hi) as (y & _ & Hy).
  by exists y.
Qed.

(** The records of the ranked list are those the loop appended. *)
Lemma elem_of_gap_list_inv (r : GapRecord) :
  r ∈ gap_list (analyze_probabilistic_knowledge_gaps G M node_info) →
  stage_runs G M = true
  ∧ ∃ uv, uv ∈ candidate_pairs G node_info
          ∧ gap_candidate G M node_info uv = Ok (Some r).
Proof.
  unfold analyze_probabilistic_knowledge_gaps, stage_runs.
  destruct (_ || _); simpl; [by intros ?%elem_of_nil|].
  destruct (mapM _ _) as [scored|e] eqn:Hscored; simpl;
    [|by intros ?%elem_of_nil].
  rewrite <- (mapM_omap_elem _ _ _ r Hscored).
  destruct (bool_decide (omap id scored = [])) eqn:Hnil; simpl.
  - by intros ?%elem_of_nil.
  - by rewrite (merge_sort_Permutation stronger (omap id scored)).
Qed.

Lemma elem_of_gap_list (out : option (list GapRecord)) (r : GapRecord) :
  analyze_probabilistic_knowledge_gaps G M node_info = Ok out →
  r ∈ gap_list (analyze_probabilistic_knowledge_gaps G M node_info)
  ↔ stage_runs G M = true
    ∧ ∃ uv, uv ∈ candidate_pairs G node_info
            ∧ gap_candidate G M node_info uv = Ok (Some r).
Proof.
  intros Hout. split; [apply elem_of_gap_list_inv|].
  intros [Hruns Hpair].
  destruct (returned_run_scored out Hout Hruns) as [scored Hscored].
  revert Hpair. rewrite <- (mapM_omap_elem _ _ _ r Hscored).
  unfold analyze_probabilistic_knowledge_gaps, stage_runs in *.
  destruct (_ || _); [done|]. rewrite Hscored. simpl.
  destruct (bool_decide (omap id scored = [])) eqn:Hnil; simpl.
  - apply bool_decide_eq_true in Hnil. by rewrite Hnil.
  - by rewrite (merge_sort_Permutation stronger (omap id scored)).
Qed.

End GapScorer.

Lemma combinations2_category_order (c1 c2 : Category) :
  (c1, c2) ∈ combinations2 CATEGORY_ORDER ↔ precedes c1 c2.
Proof.
  unfold precedes.
  rewrite <- (bool_decide_spec ((c1, c2) ∈ combinations2 CATEGORY_ORDER)).
  rewrite <- (bool_decide_spec (_ < _)%nat).
  by destruct c1, c2; vm_compute.
Qed.

Lemma precedes_ne (c1 c2 : Category) : precedes c1 c2 → c1 ≠ c2.
Proof. unfold precedes. intros Hlt ->. lia. Qed.

Lemma bridge_bonus_table (c1 c2 : Category) :
  bridge_bonus c1 c2 = bridge_table c1 c2.
Proof. by destruct c1, c2. Qed.

Section GapScorerResults.

Variable G : DiGraph.
Variable M : DataFrame.
Variable node_info : gmap string NodeMeta.

Let res := analyze_probabilistic_knowledge_gaps G M node_info.

(** Every record of the list is the record of an eligible pair of
    registered concepts, the first from an earlier category, whose
    strength exceeds the threshold. *)
Lemma gap_list_inv (r : GapRecord) :
  r ∈ gap_list res →
  ∃ u v du dv,
    node_info !! u = Some du ∧ node_info !! v = Some dv
    ∧ precedes (category du) (category dv)
    ∧ eligible G u v = true
    ∧ (1.0 < gap_strength G M (category du) (category dv) u v)%Q
    ∧ r = gap_record G M (category du) (category dv) u v.
Proof.
  intros Hr.
  apply elem_of_gap_list_inv in Hr as (_ & [u v] & Hin & Hcand).
  apply elem_of_candidate_pairs in Hin
    as (du & dv & Hu & Hv & _ & _ & Hcats).
  apply combinations2_category_order in Hcats.
  apply (gap_candidate_returns G M node_info u v du dv) in Hcand;
    [|done..].
  destruct (eligible G u v) eqn:Hel; [|done].
  destruct (bool_decide _) eqn:Hstr; [|done].
  apply bool_decide_eq_true in Hstr.
  injection Hcand as ->. by exists u, v, du, dv.
Qed.

(** In a run that returns, a pair the loop scores above the threshold
    is listed. *)
Lemma gap_list_intro (out : option (list GapRecord)) (u v : string)
    (du dv : NodeMeta) :
  res = Ok out →
  stage_runs G M = true →
  node_info !! u = Some du → node_info !! v = Some dv →
  precedes (category du) (category dv) →
  eligible G u v = true →
  (1.0 < gap_strength G M (category du) (category dv) u v)%Q →
  gap_record G M (category du) (category dv) u v ∈ gap_list res.
Proof.
  intros Hout Hruns Hu Hv Hprec Hel Hstr.
  assert (Hin : (u, v) ∈ candidate_pairs G node_info).
  { apply elem_of_candidate_pairs. exists du, dv.
    unfold eligible in Hel.
    repeat (apply andb_true_iff in Hel as [Hel ?]).
    split; [done|]. split; [done|]. split; [done|]. split; [done|].
    by apply combinations2_category_order. }
  apply (elem_of_gap_list G M node_info out); [done|].
  split; [done|]. exists (u, v). split; [done|].
  destruct (returned_run_pair G M node_info out (u, v) Hout Hruns Hin)
    as [appended Happ].
  rewrite Happ. f_equal.
  rewrite (gap_candidate_returns G M node_info u v du dv appended)
    by done.
  rewrite Hel. by rewrite bool_decide_eq_true_2.
Qed.

(** Membership of an eligible pair, and the record it is listed with. *)
Lemma gap_listed_core (out : option (list GapRecord)) (u v : string)
    (du dv : NodeMeta) :
  res = Ok out →
  stage_runs G M = true →
  node_info !! u = Some du → node_info !! v = Some dv →
  precedes (category du) (category dv) →
  eligible G u v = true →
  (listed res u v
   ↔ (1.0 < gap_strength G M (category du) (category dv) u v)%Q)
  ∧ ∀ r, r ∈ gap_list res → Source_Node r = u → Target_Node r = v →
         r = gap_record G M (category du) (category dv) u v.
Proof.
  intros Hout Hruns Hu Hv Hprec Hel.
  assert (Hrec : ∀ r, r ∈ gap_list res →
            Source_Node r = u → Target_Node r = v →
            r = gap_record G M (category du) (category dv) u v
            ∧ (1.0 < gap_strength G M (category du) (category dv) u v)%Q).
  { intros r Hr Hsrc Htgt.
    destruct (gap_list_inv r Hr)
      as (u' & v' & du' & dv' & Hu' & Hv' & _ & _ & Hstr & ->).
    simpl in Hsrc, Htgt. subst u' v'.
    rewrite Hu in Hu'. rewrite Hv in Hv'.
    injection Hu' as <-. injection Hv' as <-. done. }
  split.
  - split.
    + intros (r & Hr & Hsrc & Htgt). by apply (Hrec r).
    + intros Hstr.
      exists (gap_record G M (category du) (category dv) u v).
      split; [by apply (gap_list_intro out) | done].
  - intros r Hr Hsrc Htgt. by apply (Hrec r).
Qed.

Lemma eligible_intro (u v : string) :
  u ≠ v →
  DiGraph.has_node G u = true → DiGraph.has_node G v = true →
  DiGraph.has_edge G u v = false → DiGraph.has_edge G v u = false →
  eligible G u v = true.
Proof.
  intros Hne Hu Hv Huv Hvu. unfold eligible.
  rewrite Hu, Hv, Huv, Hvu. by rewrite bool_decide_eq_false_2.
Qed.

Lemma stage_runs_intro (u : string) :
  DiGraph.has_node G u = true → Frame.empty M = false →
  stage_runs G M = true.
Proof.
  intros Hu Hm. unfold stage_runs. rewrite Hm.
  rewrite bool_decide_eq_false_2; [done|].
  apply bool_decide_eq_true in Hu. unfold DiGraph.number_of_nodes.
  intros Hsz. apply map_size_empty_iff in Hsz. rewrite Hsz in Hu.
  set_solver.
Qed.

End GapScorerResults.

(** C3. Every record of the gap candidate list joins two concepts with no
    edge between them in either direction in the directed link graph, and
    its source and target categories, which are those the registry gives
    the two concepts, differ. *)
Theorem gap_records_unlinked_cross_category (G : DiGraph) (M : DataFrame)
    (node_info : gmap string NodeMeta) (df_gaps : list GapRecord)
    (r : GapRecord) :
  analyze_probabilistic_knowledge_gaps G M node_info = Ok (Some df_gaps) →
  r ∈ df_gaps →
  DiGraph.has_edge G (Source_Node r) (Target_Node r) = false
  ∧ DiGraph.has_edge G (Target_Node r) (Source_Node r) = false
  ∧ Source_Category r ≠ Target_Category r
  ∧ category <$> node_info !! Source_Node r = Some (Source_Category r)
  ∧ category <$> node_info !! Target_Node r = Some (Target_Category r).
Proof.
  intros Hres Hr.
  destruct (gap_list_inv G M node_info r)
    as (u & v & du & dv & Hu & Hv & Hprec & Hel & _ & ->).
  { by rewrite Hres. }
  simpl. unfold eligible in Hel.
  repeat (apply andb_true_iff in Hel as [Hel ?]).
  split; [by apply negb_true_iff|]. split; [by apply negb_true_iff|].
  split; [by apply precedes_ne|]. by rewrite Hu, Hv.
Qed.

Lemma gap_invariant_witness :
  DiGraph.has_edge graph_B (Source_Node record_B) (Target_Node record_B)
    = false
  ∧ DiGraph.has_edge graph_B (Target_Node record_B) (Source_Node record_B)
    = false
  ∧ Source_Category record_B ≠ Target_Category record_B
  ∧ category <$> registry_B !! Source_Node record_B
    = Some (Source_Category record_B)
  ∧ category <$> registry_B !! Target_Node record_B
    = Some (Target_Category record_B).
Proof.
  apply (gap_records_unlinked_cross_category graph_B matrix_B registry_B
           [record_alpha; record_B] record_B).
  - vm_compute. reflexivity.
  - apply list_elem_of_further, list_elem_of_here.
Defined.

(** C1. Let the co-occurrence matrix be non-empty and without a repeated
    label, and let [u] and [v] be registered concepts of the graph, [u]
    from the category that comes first in [CATEGORY_ORDER], with no edge
    between them in either direction.  The scorer raises nothing; the
    pair's predicted strength is 2 * (number of common successors) + 1 *
    max(0, matrix value, or 0 when the matrix has no such entry) + bridge
    bonus, each product and sum rounded as binary64 arithmetic rounds it,
    the bonus being 1.5 for Theory with Application, 1.0 for Material with
    Application and 0 otherwise; the pair is in the gap candidate list
    exactly when that strength exceeds 1.0; and it is listed with these
    scores, the co-occurrence score and the strength rounded to three
    decimals. *)
Theorem gap_listed_iff_strength_above_threshold (G : DiGraph) (M : DataFrame)
    (node_info : gmap string NodeMeta) (u v : string) (du dv : NodeMeta) :
  Frame.empty M = false → unique_labels M →
  node_info !! u = Some du → node_info !! v = Some dv →
  DiGraph.has_node G u = true → DiGraph.has_node G v = true →
  precedes (category du) (category dv) →
  DiGraph.has_edge G u v = false → DiGraph.has_edge G v u = false →
  let res := analyze_probabilistic_knowledge_gaps G M node_info in
  let topo := size (DiGraph.successors G u ∩ DiGraph.successors G v) in
  let cooc := cooc_component M u v in
  let bonus := bridge_table (category du) (category dv) in
  let strength :=
    fadd (fadd (fmul 2.0 (Qnat topo)) (fmul 1.0 (Qmax 0 cooc))) bonus in
  (∃ out, res = Ok out)
  ∧ (listed res u v ↔ (1.0 < strength)%Q)
  ∧ ∀ r, r ∈ gap_list res → Source_Node r = u → Target_Node r = v →
         Source_Category r = category du
         ∧ Target_Category r = category dv
         ∧ Topological_Score r = topo
         ∧ Cooccurrence_Score r = round3 cooc
         ∧ Bridge_Bonus r = bonus
         ∧ Predicted_Link_Strength r = round3 strength.
Proof.
  intros Hm Huniq Hu Hv Hnu Hnv Hprec Huv Hvu. cbv zeta.
  assert (Hne : u ≠ v).
  { intros ->. rewrite Hu in Hv. injection Hv as ->.
    by apply (precedes_ne _ _ Hprec). }
  destruct (analyze_gaps_total G M node_info Huniq) as [out Hout].
  destruct (gap_listed_core G M node_info out u v du dv) as [Hiff Hrec];
    [done | by eapply stage_runs_intro | done | done | done
    | by apply eligible_intro |].
  rewrite <- bridge_bonus_table.
  split; [by exists out|]. split; [exact Hiff|].
  intros r Hr Hsrc Htgt. by rewrite (Hrec r Hr Hsrc Htgt).
Qed.

Lemma gap_listed_iff_witness :
  listed (analyze_probabilistic_knowledge_gaps graph_B matrix_B registry_B)
         "m1" "m2"
  ↔ (1.0 < fadd (fadd (fmul 2.0
                         (Qnat (size (DiGraph.successors graph_B "m1"
                                      ∩ DiGraph.successors graph_B "m2"))))
                      (fmul 1.0 (Qmax 0 (cooc_component matrix_B "m1" "m2"))))
                (bridge_table Material Application))%Q.
Proof.
  refine (proj1 (proj2 (gap_listed_iff_strength_above_threshold
           graph_B matrix_B registry_B "m1" "m2"
           {| category := Material; color := "#377eb8" |}
           {| category := Application; color := "#e41a1c" |}
           _ _ _ _ _ _ _ _ _)));
    [vm_compute; reflexivity
    | split; apply (bool_decide_unpack _); vm_compute; exact I
    | vm_compute; first [reflexivity | lia]..].
Defined.

(** With an empty co-occurrence matrix the stage is skipped: the unlinked
    Theory/Application pair of [graph_B] has predicted strength 1.5 and is
    in no list. *)
Lemma gap_skipped_on_empty_matrix :
  ¬ (listed (analyze_probabilistic_knowledge_gaps graph_B matrix_none
               registry_B) "alpha" "m2"
     ↔ (1.0 < 2.0 * Qnat (size (DiGraph.successors graph_B "alpha"
                                 ∩ DiGraph.successors graph_B "m2"))
              + 1.0 * Qmax 0 (cooc_component matrix_none "alpha" "m2")
              + bridge_table Theory Application)%Q).
Proof.
  intros [_ Hlisted].
  destruct Hlisted as (r & Hr & _).
  - vm_compute. reflexivity.
  - vm_compute in Hr. by apply elem_of_nil in Hr.
Qed.

(** A label that stands twice among the rows makes [loc] give a slice:
    the scorer, and the loop that builds the pruned graph, raise. *)
Example repeated_label_raises :
  analyze_probabilistic_knowledge_gaps graph_B matrix_repeat registry_B
  = Raise ValueError
  ∧ pruned_cooccurrence_graph matrix_repeat 0.3%Q = Raise ValueError.
Proof. vm_compute. by split. Qed.

(** A co-occurrence of [2^-60] is lost in the sum with the bonus 1.0: the
    exact sum exceeds the threshold, the sum the code computes does not,
    and the pair is not listed. *)
Example strength_rounded_at_margin :
  (1.0 < 2.0 * Qnat 0 + 1.0 * Qmax 0 (cooc_component matrix_margin "m1" "m2")
         + bridge_table Material Application)%Q
  ∧ (predicted_link_strength 0 (cooc_component matrix_margin "m1" "m2")
       (bridge_bonus Material Application) == 1)%Q
  ∧ ¬ listed (analyze_probabilistic_knowledge_gaps graph_B matrix_margin
                registry_B) "m1" "m2".
Proof.
  split; [by vm_compute|]. split; [by vm_compute|].
  intros (r & Hr & Hsrc & _). vm_compute in Hr.
  apply list_elem_of_singleton in Hr. subst r. by vm_compute in Hsrc.
Qed.

(** C10. Let [(u, v)] be a pair the scoring loop visits and scores:
    registered concepts of the graph, [u] from the earlier category, with no
    edge between them.  When the matrix has no entry for the pair, because
    [u] is not among its row labels or [v] not among its column labels, the
    co-occurrence component is 0 and scoring the pair raises nothing; the
    loop body still scores the pair and appends its record exactly when
    2 * (common successors) + 0 + bridge bonus, as the code computes it,
    exceeds 1.0, with co-occurrence score 0.  In every run that returns and
    is past the empty-input guard the pair is in the gap candidate list
    under that same condition, and a run over a matrix without a repeated
    label does return. *)
Theorem missing_matrix_entry_scores_zero (G : DiGraph) (M : DataFrame)
    (node_info : gmap string NodeMeta) (u v : string) (du dv : NodeMeta) :
  u ∉ df_index M ∨ v ∉ df_columns M →
  node_info !! u = Some du → node_info !! v = Some dv →
  DiGraph.has_node G u = true → DiGraph.has_node G v = true →
  precedes (category du) (category dv) →
  DiGraph.has_edge G u v = false → DiGraph.has_edge G v u = false →
  let res := analyze_probabilistic_knowledge_gaps G M node_info in
  let strength :=
    fadd (fadd (fmul 2.0 (Qnat (topo_score G u v))) (fmul 1.0 (Qmax 0 0)))
         (bridge_bonus (category du) (category dv)) in
  cooc_score M u v = Ok (Scalar 0%Q)
  ∧ (∃ appended,
       gap_candidate G M node_info (u, v) = Ok appended
       ∧ (is_Some appended ↔ (1.0 < strength)%Q)
       ∧ ∀ r, appended = Some r →
              Source_Node r = u ∧ Target_Node r = v
              ∧ (Cooccurrence_Score r == 0)%Q)
  ∧ (unique_labels M → ∃ out, res = Ok out)
  ∧ (∀ out, res = Ok out → Frame.empty M = false →
       (listed res u v ↔ (1.0 < strength)%Q))
  ∧ ∀ r, r ∈ gap_list res → Source_Node r = u → Target_Node r = v →
         (Cooccurrence_Score r == 0)%Q.
Proof.
  intros Hmiss Hu Hv Hnu Hnv Hprec Huv Hvu. cbv zeta.
  assert (Hzero : cooc_component M u v = 0%Q).
  { unfold cooc_component. rewrite decide_False; [done | tauto]. }
  assert (Hcooc : cooc_score M u v = Ok (Scalar (cooc_component M u v))).
  { destruct (cooc_score_cases M u v) as [Hc|[Hc _]]; [done|].
    exfalso. revert Hc. unfold cooc_score.
    destruct Hmiss as [Hmiss|Hmiss].
    - by rewrite (bool_decide_eq_false_2 (u ∈ _)) by done.
    - rewrite (bool_decide_eq_false_2 (v ∈ _)) by done.
      by rewrite andb_false_r. }
  assert (Hne : u ≠ v).
  { intros ->. rewrite Hu in Hv. injection Hv as ->.
    by apply (precedes_ne _ _ Hprec). }
  assert (Hel : eligible G u v = true) by by apply eligible_intro.
  split; [by rewrite Hcooc, Hzero|].
  split.
  { rewrite (gap_candidate_scalar G M node_info u v du dv) by done.
    rewrite Hel. unfold gap_strength, predicted_link_strength.
    rewrite Hzero.
    eexists. split; [reflexivity|]. case_bool_decide as Hstr.
    - split; [split; [done | by eexists]|].
      intros r [= <-]. cbn [Source_Node Target_Node Cooccurrence_Score
                            gap_record].
      rewrite Hzero. by repeat split.
    - split; [|by intros ? [=]]. split; [by intros [? [=]] | done]. }
  split; [apply analyze_gaps_total|]. split.
  - intros out Hout Hm.
    destruct (gap_listed_core G M node_info out u v du dv) as [Hiff _];
      [done | by eapply stage_runs_intro | done..|].
    unfold gap_strength, predicted_link_strength in Hiff.
    by rewrite Hzero in Hiff.
  - intros r Hr Hsrc Htgt.
    destruct (gap_list_inv G M node_info r Hr)
      as (u' & v' & du' & dv' & _ & _ & _ & _ & _ & ->).
    simpl in Hsrc, Htgt. subst u' v'.
    cbn [Cooccurrence_Score gap_record]. rewrite Hzero. reflexivity.
Qed.

Lemma missing_matrix_entry_witness :
  cooc_score matrix_B "alpha" "m2" = Ok (Scalar 0%Q)
  ∧ listed (analyze_probabilistic_knowledge_gaps graph_B matrix_B registry_B)
           "alpha" "m2".
Proof.
  destruct (missing_matrix_entry_scores_zero graph_B matrix_B registry_B
              "alpha" "m2"
              {| category := Theory; color := "#a65628" |}
              {| category := Application; color := "#e41a1c" |})
    as (Hcooc & _ & _ & Hiff & _).
  - left. apply (bool_decide_unpack _). vm_compute. exact I.
  - reflexivity.
  - reflexivity.
  - reflexivity.
  - reflexivity.
  - vm_compute. lia.
  - reflexivity.
  - reflexivity.
  - split; [exact Hcooc|].
    apply (Hiff (Some [record_alpha; record_B])); vm_compute; reflexivity.
Defined.

(* ===================================================================== *)
(** * Empty inputs *)
(* ===================================================================== *)

Lemma pruned_graph_of_empty_matrix (M : DataFrame) (min_cooc : Q) :
  Frame.empty M = true → pruned_cooccurrence_graph M min_cooc = Ok ∅.
Proof.
  unfold Frame.empty, pruned_cooccurrence_graph.
  intros [Hi%bool_decide_eq_true | Hc%bool_decide_eq_true]%orb_true_iff.
  - generalize (combinations2 (df_columns M)). intros pairs.
    induction pairs as [|[u v] pairs IH]; [done|]. simpl.
    rewrite (bool_decide_eq_false_2 (u ∈ df_index M)); [exact IH|].
    rewrite Hi. by intros ?%elem_of_nil.
  - by rewrite Hc.
Qed.

(** C8. Let [G] be an empty directed link graph and [M] an empty
    co-occurrence matrix.  The centrality and community stage given [G]
    returns it untouched with the skipped signal, whatever the PageRank and
    partition routines would do; the gap scorer returns no list when given
    [G] with any matrix, or [M] with any graph; and the trajectory
    synthesizer given either stops with the missing-node message or the
    empty table.  None of them raises. *)
Theorem empty_inputs_degrade
    (nx_pagerank : DiGraph → result (gmap string Q))
    (best_partition : UGraph → Z → gmap string Z)
    (G : DiGraph) (M : DataFrame) :
  DiGraph.number_of_nodes G = 0%nat →
  Frame.empty M = true →
  analyze_centrality_and_communities nx_pagerank best_partition G
    = Ok (Skipped, G)
  ∧ (∀ M' node_info,
       analyze_probabilistic_knowledge_gaps G M' node_info = Ok None)
  ∧ (∀ G' node_info,
       analyze_probabilistic_knowledge_gaps G' M node_info = Ok None)
  ∧ (∀ M' node_info s e n w k,
       synthesize_and_plot_trajectory G M' node_info s e n w k
       = Ok MissingNode)
  ∧ (∀ G' node_info s e n w k,
       synthesize_and_plot_trajectory G' M node_info s e n w k
         = Ok MissingNode
       ∨ synthesize_and_plot_trajectory G' M node_info s e n w k
         = Ok EmptyTable).
Proof.
  intros HG HM. split; [|split; [|split; [|split]]].
  - unfold analyze_centrality_and_communities.
    by rewrite bool_decide_eq_true_2.
  - intros M' node_info. unfold analyze_probabilistic_knowledge_gaps.
    by rewrite bool_decide_eq_true_2.
  - intros G' node_info. unfold analyze_probabilistic_knowledge_gaps.
    rewrite HM. by rewrite orb_true_r.
  - intros M' node_info s e n w k. unfold synthesize_and_plot_trajectory.
    assert (Hs : DiGraph.has_node G s = false).
    { unfold DiGraph.has_node. apply bool_decide_eq_false.
      unfold DiGraph.number_of_nodes in HG.
      apply map_size_empty_iff in HG. rewrite HG. set_solver. }
    by rewrite Hs.
  - intros G' node_info s e n w k. unfold synthesize_and_plot_trajectory.
    destruct (_ || _ || _ || _); [by left|]. right.
    rewrite pruned_graph_of_empty_matrix by done. simpl.
    unfold WGraph.has_node. rewrite lookup_empty.
    by rewrite bool_decide_eq_false_2 by (by intros [? ?]).
Qed.

Lemma empty_inputs_degrade_witness :
  analyze_centrality_and_communities
    (λ _, Raise (LibraryError "PowerIterationFailedConvergence"))
    (λ _ _, ∅) DiGraph.empty
  = Ok (Skipped, DiGraph.empty)
  ∧ analyze_probabilistic_knowledge_gaps DiGraph.empty matrix_B registry_B
    = Ok None
  ∧ analyze_probabilistic_knowledge_gaps graph_B matrix_none registry_B
    = Ok None.
Proof.
  destruct (empty_inputs_degrade
              (λ _, Raise (LibraryError "PowerIterationFailedConvergence"))
              (λ _ _, ∅) DiGraph.empty matrix_none)
    as (Hc & Hg & Hm & _).
  - reflexivity.
  - reflexivity.
  - split; [exact Hc|]. split; [apply Hg | apply Hm].
Defined.

(* ===================================================================== *)
(** * Properties of the trajectory synthesizer *)
(* ===================================================================== *)

Section PrunedGraph.

Variable M : DataFrame.
Variable min_cooc : Q.

Lemma weight_add_edge (u v : string) (w : Q) (g : WGraph) (a b : string)
    (x : Q) :
  WGraph.weight (WGraph.add_edge u v w g) a b = Some x →
  (x = w ∧ ((a = u ∧ b = v) ∨ (a = v ∧ b = u)))
  ∨ WGraph.weight g a b = Some x.
Proof.
  unfold WGraph.weight, WGraph.add_edge, WGraph.adj.
  destruct (decide (a = v)) as [->|Hav].
  - rewrite lookup_insert_eq. simpl.
    destruct (decide (b = u)) as [->|Hbu].
    + rewrite lookup_insert_eq. intros [= <-]. left. tauto.
    + rewrite lookup_insert_ne by done.
      destruct (decide (v = u)) as [->|Hvu].
      * rewrite lookup_insert_eq. simpl.
        rewrite lookup_insert_ne by done.
        destruct (g !! u); simpl; [by right | by rewrite lookup_empty].
      * rewrite lookup_insert_ne by done.
        destruct (g !! v); simpl; [by right | by rewrite lookup_empty].
  - rewrite lookup_insert_ne by done.
    destruct (decide (a = u)) as [->|Hau].
    + rewrite lookup_insert_eq. simpl.
      destruct (decide (b = v)) as [->|Hbv].
      * rewrite lookup_insert_eq. intros [= <-]. left. tauto.
      * rewrite lookup_insert_ne by done.
        destruct (g !! u); simpl; [by right | by rewrite lookup_empty].
    + rewrite lookup_insert_ne by done. by right.
Qed.

(** One turn of the loop: the pair is added when it passes the tests, or
    [ValueError] is raised on a slice, which takes a repeated label. *)
Lemma add_cooc_edge_cases (g : WGraph) (uv : string * string) :
  add_cooc_edge M min_cooc g uv
  = Ok (if above_threshold M min_cooc uv
        then WGraph.add_edge uv.1 uv.2 (df_cell M uv.1 uv.2) g else g)
  ∨ (add_cooc_edge M min_cooc g uv = Raise ValueError
     ∧ ¬ unique_labels M).
Proof.
  destruct uv as [u v]. unfold add_cooc_edge, above_threshold.
  cbn [fst snd].
  destruct (bool_decide (u ∈ df_index M)) eqn:Hu; [|by left].
  destruct (bool_decide (v ∈ df_columns M)) eqn:Hv; [|by left].
  destruct (bool_decide (u ≠ v)); [|by left]. cbn [andb].
  apply bool_decide_eq_true in Hu, Hv.
  destruct (loc_cases M u v Hu Hv) as [->|[-> Hdup]].
  - left. cbn [mbind result_bind Frame.scalar].
    by destruct (bool_decide (min_cooc < df_cell M u v)%Q).
  - by right.
Qed.

Lemma add_cooc_edge_above (g g' : WGraph) (uv : string * string) :
  weights_above M min_cooc g →
  add_cooc_edge M min_cooc g uv = Ok g' →
  weights_above M min_cooc g'.
Proof.
  intros Hg Hstep.
  destruct (add_cooc_edge_cases g uv) as [Hok|[Hraise _]];
    [|by rewrite Hraise in Hstep].
  rewrite Hok in Hstep. injection Hstep as <-.
  destruct (above_threshold M min_cooc uv) eqn:Hpass; [|done].
  unfold above_threshold in Hpass.
  rewrite !andb_true_iff, !bool_decide_eq_true in Hpass.
  destruct Hpass as (_ & Hlt).
  intros a b x Hx.
  apply weight_add_edge in Hx as [[-> Hab]|Hx]; [|by apply Hg].
  split; [done|]. destruct Hab as [[-> ->]|[-> ->]]; tauto.
Qed.

Lemma pruned_graph_above_from (pairs : list (string * string))
    (g g' : WGraph) :
  weights_above M min_cooc g →
  foldlM (add_cooc_edge M min_cooc) g pairs = Ok g' →
  weights_above M min_cooc g'.
Proof.
  revert g. induction pairs as [|uv pairs IH]; intros g Hg; cbn [foldlM].
  - by intros [= <-].
  - destruct (add_cooc_edge M min_cooc g uv) as [g1|e] eqn:Hstep;
      [|done].
    cbn [mbind result_bind]. apply IH.
    by apply (add_cooc_edge_above g g1 uv).
Qed.

(** Every edge of the pruned graph carries a matrix value greater than
    the minimum. *)
Lemma pruned_graph_above (g : WGraph) :
  pruned_cooccurrence_graph M min_cooc = Ok g →
  weights_above M min_cooc g.
Proof.
  apply pruned_graph_above_from. intros u v w.
  unfold WGraph.weight. by rewrite lookup_empty.
Qed.

Lemma foldlM_total {A B} (f : B → A → result B) (l : list A) (b : B) :
  (∀ b x, ∃ b', f b x = Ok b') → ∃ b', foldlM f b l = Ok b'.
Proof.
  intros Hf. revert b. induction l as [|x l IH]; intros b; cbn [foldlM].
  - by exists b.
  - destruct (Hf b x) as [b1 ->]. cbn [mbind result_bind]. apply IH.
Qed.

Lemma foldlM_Raise {A B} (f : B → A → result B) (l : list A) (b : B)
    (e : exn) :
  foldlM f b l = Raise e → ∃ b1 x, x ∈ l ∧ f b1 x = Raise e.
Proof.
  revert b. induction l as [|x l IH]; intros b; cbn [foldlM]; [done|].
  destruct (f b x) as [b1|e'] eqn:Hstep; cbn [mbind result_bind].
  - intros (b2 & x' & Hx' & Hraise)%IH.
    exists b2, x'. split; [by apply list_elem_of_further | done].
  - intros [= ->]. exists b, x. split; [apply list_elem_of_here | done].
Qed.

(** Over a matrix without a repeated label the pruned graph is built
    without raising. *)
Lemma pruned_graph_total :
  unique_labels M → ∃ g, pruned_cooccurrence_graph M min_cooc = Ok g.
Proof.
  intros Huniq. apply foldlM_total. intros g uv.
  destruct (add_cooc_edge_cases g uv) as [->|[_ Hdup]]; [by eexists|].
  done.
Qed.

(** Building it raises nothing but [ValueError], and that only on a
    matrix with a repeated label. *)
Lemma pruned_graph_raise (e : exn) :
  pruned_cooccurrence_graph M min_cooc = Raise e →
  e = ValueError ∧ ¬ unique_labels M.
Proof.
  intros (g & uv & _ & Hraise)%foldlM_Raise.
  destruct (add_cooc_edge_cases g uv) as [Hok|[Hval Hdup]].
  - by rewrite Hok in Hraise.
  - rewrite Hval in Hraise. by injection Hraise as <-.
Qed.

End PrunedGraph.

Section SimplePaths.

Variable g : WGraph.

Lemma elem_of_neighbors (u v : string) :
  v ∈ WGraph.neighbors g u → is_Some (WGraph.weight g u v).
Proof.
  unfold WGraph.neighbors, WGraph.weight, WGraph.adj.
  intros ([v' w] & -> & Hin)%list_elem_of_fmap. simpl.
  apply elem_of_map_to_list in Hin.
  destruct (g !! u) as [a|]; simpl in *; [by eexists|].
  by rewrite lookup_empty in Hin.
Qed.

Lemma path_edges_snoc (path : list string) (u v : string) :
  path_edges ((path ++ [u]) ++ [v]) = path_edges (path ++ [u]) ++ [(u, v)].
Proof.
  induction path as [|x path IH]; [done|].
  destruct path as [|y path]; [done|].
  simpl in *. by rewrite IH.
Qed.

Lemma linked_snoc (path : list string) (u v : string) :
  linked g (path ++ [u]) → is_Some (WGraph.weight g u v) →
  linked g ((path ++ [u]) ++ [v]).
Proof.
  intros Hl Hw e. rewrite path_edges_snoc.
  intros [He | ->%list_elem_of_singleton]%elem_of_app;
    [by apply Hl | done].
Qed.

(** The search only returns paths of at least two nodes whose edges are
    edges of the graph. *)
Lemma simple_paths_from_linked (target : string) (cutoff : nat)
    (visited : list string) (cur : string) (path : list string) :
  linked g (visited ++ [cur]) →
  path ∈ WGraph.simple_paths_from g target cutoff (visited ++ [cur]) cur →
  linked g path ∧ (2 ≤ length path)%nat.
Proof.
  revert visited cur.
  induction cutoff as [|k IH]; intros visited cur Hl; simpl.
  - by intros ?%elem_of_nil.
  - intros (child & Hin & Hchild)%list_elem_of_bind.
    apply elem_of_neighbors in Hchild.
    destruct (decide (child ∈ visited ++ [cur]));
      [by apply elem_of_nil in Hin|].
    destruct (decide (child = target)) as [->|_].
    + apply list_elem_of_singleton in Hin as ->. split.
      * by apply linked_snoc.
      * rewrite !length_app. simpl. lia.
    + apply (IH (visited ++ [cur]) child); [|done].
      by apply linked_snoc.
Qed.

Lemma all_simple_paths_linked (source target : string) (cutoff : nat)
    (paths : list (list string)) (path : list string) :
  WGraph.all_simple_paths g source target cutoff = Ok paths →
  path ∈ paths → linked g path.
Proof.
  unfold WGraph.all_simple_paths.
  destruct (negb _); [done|].
  destruct (decide (source = target)) as [->|_].
  - intros [= <-] ->%list_elem_of_singleton. by intros e ?%elem_of_nil.
  - intros [= <-] Hin.
    apply (simple_paths_from_linked target cutoff [] source); [|done].
    by intros e ?%elem_of_nil.
Qed.

End SimplePaths.

Section PathScore.

Variable g : WGraph.
Variable G : DiGraph.
Variable node_info : gmap string NodeMeta.

Lemma flows_equal_or_later (u v : string) :
  flows (get_category node_info u) (get_category node_info v)
  = equal_or_later node_info (u, v).
Proof.
  unfold flows, equal_or_later. simpl.
  destruct (get_category node_info u) as [cu|]; [|done].
  destruct (get_category node_info v) as [cv|]; [|done].
  by destruct cu, cv; vm_compute.
Qed.

Lemma linked_cons (u v : string) (rest : list string) :
  linked g (u :: v :: rest) →
  is_Some (WGraph.weight g u v) ∧ linked g (v :: rest).
Proof.
  intros Hl. split.
  - apply (Hl (u, v)). simpl. apply list_elem_of_here.
  - intros e He. apply Hl. simpl. by apply list_elem_of_further.
Qed.

(** The loop run over a path of the graph: what it adds to each of its
    variables. *)
Lemma score_steps_linked (path : list string) (st : LoopState) :
  linked g path →
  score_steps g G node_info st path
  = {| path_cooc_scores :=
         path_cooc_scores st ++ map (edge_weight g) (path_edges path);
       explicit_links_count :=
         explicit_links_count st + explicit_link_count G path;
       hierarchical_score :=
         hierarchical_score st + hierarchy_score node_info path;
       path_categories_set :=
         list_to_set (omap (get_category node_info)
                           (map fst (path_edges path)))
         ∪ path_categories_set st;
       valid_path := valid_path st |}.
Proof.
  revert st. induction path as [|u path IH]; intros st Hl.
  { destruct st. unfold explicit_link_count, hierarchy_score. simpl.
    f_equal; [by rewrite app_nil_r | lia | lia|].
    unfold_leibniz. set_solver. }
  destruct path as [|v rest].
  { destruct st. unfold explicit_link_count, hierarchy_score. simpl.
    f_equal; [by rewrite app_nil_r | lia | lia|].
    unfold_leibniz. set_solver. }
  apply linked_cons in Hl as [[w Hw] Hl].
  change (score_steps g G node_info st (u :: v :: rest))
    with (match WGraph.weight g u v with
          | None =>
              {| path_cooc_scores := path_cooc_scores st;
                 explicit_links_count := explicit_links_count st;
                 hierarchical_score := hierarchical_score st;
                 path_categories_set := path_categories_set st;
                 valid_path := false |}
          | Some w =>
              score_steps g G node_info
                {| path_cooc_scores := path_cooc_scores st ++ [w];
                   explicit_links_count :=
                     if DiGraph.has_edge G u v
                     then S (explicit_links_count st)
                     else explicit_links_count st;
                   hierarchical_score :=
                     if flows (get_category node_info u)
                              (get_category node_info v)
                     then S (hierarchical_score st)
                     else hierarchical_score st;
                   path_categories_set :=
                     match get_category node_info u with
                     | Some cu => {[cu]} ∪ path_categories_set st
                     | None => path_categories_set st
                     end;
                   valid_path := valid_path st |}
                (v :: rest)
          end).
  rewrite Hw, (IH _ Hl). clear IH.
  change (path_edges (u :: v :: rest))
    with ((u, v) :: path_edges (v :: rest)).
  unfold explicit_link_count, hierarchy_score.
  change (path_edges (u :: v :: rest))
    with ((u, v) :: path_edges (v :: rest)).
  rewrite !filter_cons. simpl.
  rewrite flows_equal_or_later.
  f_equal.
  - rewrite <- app_assoc. unfold edge_weight. simpl. by rewrite Hw.
  - destruct (DiGraph.has_edge G u v); simpl; lia.
  - destruct (equal_or_later node_info (u, v)); simpl; lia.
  - destruct (get_category node_info u); simpl;
      unfold_leibniz; set_solver.
Qed.

Lemma path_sources_last (path : list string) :
  path ≠ [] →
  ∃ n, last path = Some n ∧ map fst (path_edges path) ++ [n] = path.
Proof.
  induction path as [|u path IH]; [done|]. intros _.
  destruct path as [|v rest]; [by exists u|].
  destruct IH as (n & Hlast & Hsrc); [done|].
  exists n. split; [done|]. simpl in *. by rewrite Hsrc.
Qed.

Lemma path_categories_split (path : list string) (n : string) :
  last path = Some n →
  map fst (path_edges path) ++ [n] = path →
  path_categories node_info path
  = match node_info !! n with
    | Some d =>
        {[category d]}
        ∪ (list_to_set (omap (get_category node_info)
                             (map fst (path_edges path))) ∪ ∅)
    | None =>
        list_to_set (omap (get_category node_info)
                          (map fst (path_edges path))) ∪ ∅
    end.
Proof.
  intros _ Hsplit. unfold path_categories.
  rewrite <- Hsplit at 1. rewrite omap_app, list_to_set_app_L. simpl.
  unfold get_category at 2.
  destruct (node_info !! n); simpl; unfold_leibniz; set_solver.
Qed.

Lemma Qnat_nonneg (n : nat) : (0 <= Qnat n)%Q.
Proof. unfold Qnat, Qle. simpl. lia. Qed.

Lemma sum_above (min_cooc : Q) (l : list Q) :
  (0 <= min_cooc)%Q → Forall (λ w, min_cooc < w)%Q l →
  (0 <= foldr Qplus 0 l)%Q.
Proof.
  intros Hmin. induction 1 as [|w l Hw _ IH]; simpl; [lra|]. lra.
Qed.

Lemma mean_above (min_cooc : Q) (l : list Q) :
  (0 <= min_cooc)%Q → Forall (λ w, min_cooc < w)%Q l →
  (0 <= mean l)%Q.
Proof.
  intros Hmin Hl. unfold mean, Qdiv.
  apply Qmult_le_0_compat; [by eapply sum_above|].
  apply Qinv_le_0_compat, Qnat_nonneg.
Qed.

Lemma edge_weight_above (M : DataFrame) (min_cooc : Q)
    (path : list string) (e : string * string) :
  weights_above M min_cooc g → linked g path → e ∈ path_edges path →
  (min_cooc < edge_weight g e)%Q
  ∧ (edge_weight g e = df_cell M e.1 e.2
     ∨ edge_weight g e = df_cell M e.2 e.1).
Proof.
  intros Hg Hl He. unfold edge_weight.
  destruct (Hl e He) as [w Hw]. rewrite Hw. simpl. by apply Hg.
Qed.

Lemma edge_weights_above (M : DataFrame) (min_cooc : Q)
    (path : list string) :
  weights_above M min_cooc g → linked g path →
  Forall (λ w, min_cooc < w)%Q (map (edge_weight g) (path_edges path)).
Proof.
  intros Hg Hl. apply Forall_fmap, Forall_forall. intros e He. simpl.
  by destruct (edge_weight_above M min_cooc path e Hg Hl He).
Qed.

End PathScore.

Section PathRecords.

Variable g : WGraph.
Variable G : DiGraph.
Variable node_info : gmap string NodeMeta.

Lemma path_edges_nonempty (path : list string) :
  (2 ≤ length path)%nat → path_edges path ≠ [].
Proof.
  destruct path as [|u [|v rest]]; simpl; [lia | lia | done].
Qed.

(** The record the scoring loop appends for a path of the graph. *)
Lemma score_path_linked (path : list string) :
  linked g path → (2 ≤ length path)%nat →
  score_path g G node_info path
  = Some {| path_nodes := path;
            score :=
              (avg_cooccurrence g path * 10
               + Qnat (explicit_link_count G path) * 5
               + Qnat (hierarchy_score node_info path) * 2
               + Qnat (category_span node_info path) * 1)%Q;
            path_length := length path;
            avg_cooc_score := round3 (avg_cooccurrence g path);
            num_explicit_links := explicit_link_count G path;
            hierarchical_flow_score := hierarchy_score node_info path;
            category_span_score := category_span node_info path |}.
Proof.
  intros Hl Hlen. unfold score_path.
  rewrite (score_steps_linked g G node_info path loop_start Hl).
  cbn [valid_path path_cooc_scores explicit_links_count
       hierarchical_score path_categories_set loop_start negb app
       Nat.add].
  destruct (path_sources_last path) as (n & Hlast & Hsplit).
  { intros ->. simpl in Hlen. lia. }
  rewrite Hlast. cbn [mbind option_bind].
  rewrite <- (path_categories_split node_info path n Hlast Hsplit).
  rewrite bool_decide_eq_false_2.
  2:{ intros Hnil%fmap_nil_inv. by apply path_edges_nonempty in Hnil. }
  fold (avg_cooccurrence g path).
  assert (Hspan :
    (if bool_decide (3 ≤ size (path_categories node_info path))%nat
     then size (path_categories node_info path) else 0%nat)
    = category_span node_info path).
  { unfold category_span. simpl. case_bool_decide; by case_decide. }
  by rewrite Hspan.
Qed.

Lemma linked_score_nonneg (M : DataFrame) (min_cooc : Q)
    (path : list string) :
  weights_above M min_cooc g → linked g path → (0 <= min_cooc)%Q →
  (0 <= avg_cooccurrence g path * 10
        + Qnat (explicit_link_count G path) * 5
        + Qnat (hierarchy_score node_info path) * 2
        + Qnat (category_span node_info path) * 1)%Q.
Proof.
  intros Habove Hl Hmin.
  pose proof (mean_above min_cooc _ Hmin
                (edge_weights_above g M min_cooc path Habove Hl)) as Havg.
  fold (avg_cooccurrence g path) in Havg.
  pose proof (Qnat_nonneg (explicit_link_count G path)).
  pose proof (Qnat_nonneg (hierarchy_score node_info path)).
  pose proof (Qnat_nonneg (category_span node_info path)).
  lra.
Qed.

End PathRecords.

(** C4. For every path of at least two nodes that the search enumerates
    between start and end in the pruned co-occurrence graph, the scoring
    loop yields a record, and its score is 10 * (average co-occurrence
    weight over the path's edges) + 5 * (number of path edges that are
    explicit edges of the link graph) + 2 * (number of steps to a category
    at an equal or later position in the category ordering) + 1 * (number
    of distinct categories on the path if at least 3, else 0).  The weight
    of each edge is the matrix value of the pair and exceeds the minimum
    edge weight; when that minimum is not negative, neither is the
    score. *)
Theorem trajectory_score_formula (G : DiGraph) (M : DataFrame)
    (node_info : gmap string NodeMeta) (start_node_id end_node_id : string)
    (max_path_len : nat) (min_cooc : Q) (g : WGraph)
    (paths : list (list string)) (path : list string) :
  pruned_cooccurrence_graph M min_cooc = Ok g →
  WGraph.all_simple_paths g start_node_id end_node_id max_path_len
    = Ok paths →
  path ∈ paths → (2 ≤ length path)%nat →
  ∃ rec, score_path g G node_info path = Some rec
    ∧ path_nodes rec = path
    ∧ (score rec == 10 * avg_cooccurrence g path
                    + 5 * Qnat (explicit_link_count G path)
                    + 2 * Qnat (hierarchy_score node_info path)
                    + 1 * Qnat (category_span node_info path))%Q
    ∧ (∀ e, e ∈ path_edges path →
            (min_cooc < edge_weight g e)%Q
            ∧ (edge_weight g e = df_cell M e.1 e.2
               ∨ edge_weight g e = df_cell M e.2 e.1))
    ∧ ((0 <= min_cooc)%Q → (0 <= score rec)%Q).
Proof.
  intros Hg Hpaths Hin Hlen.
  assert (Hl : linked g path) by by eapply all_simple_paths_linked.
  pose proof (pruned_graph_above M min_cooc g Hg) as Habove.
  eexists. split; [by apply score_path_linked|].
  split; [done|]. cbn [score]. split; [ring|]. split.
  - intros e He. by apply (edge_weight_above g M min_cooc path).
  - intros Hmin. by apply (linked_score_nonneg g G node_info M min_cooc).
Qed.

Lemma trajectory_score_witness :
  ∃ rec,
    score_path (WGraph.add_edge "m1" "m2" 0.5%Q ∅) graph_B registry_B
               ["m1"; "m2"] = Some rec
    ∧ path_nodes rec = ["m1"; "m2"]
    ∧ (score rec
       == 10 * avg_cooccurrence (WGraph.add_edge "m1" "m2" 0.5%Q ∅)
                                ["m1"; "m2"]
          + 5 * Qnat (explicit_link_count graph_B ["m1"; "m2"])
          + 2 * Qnat (hierarchy_score registry_B ["m1"; "m2"])
          + 1 * Qnat (category_span registry_B ["m1"; "m2"]))%Q
    ∧ (∀ e, e ∈ path_edges ["m1"; "m2"] →
            (0.3 < edge_weight (WGraph.add_edge "m1" "m2" 0.5%Q ∅) e)%Q
            ∧ (edge_weight (WGraph.add_edge "m1" "m2" 0.5%Q ∅) e
               = df_cell matrix_B e.1 e.2
               ∨ edge_weight (WGraph.add_edge "m1" "m2" 0.5%Q ∅) e
                 = df_cell matrix_B e.2 e.1))
    ∧ ((0 <= 0.3)%Q → (0 <= score rec)%Q).
Proof.
  apply (trajectory_score_formula graph_B matrix_B registry_B "m1" "m2" 4
           0.3%Q (WGraph.add_edge "m1" "m2" 0.5%Q ∅) [["m1"; "m2"]]
           ["m1"; "m2"]).
  - vm_compute. reflexivity.
  - vm_compute. reflexivity.
  - apply list_elem_of_here.
  - simpl. lia.
Defined.

(** With a negative minimum edge weight a negatively correlated pair is an
    edge of the pruned graph, and the path along it scores below zero. *)
Lemma trajectory_score_negative :
  ∃ table best rec,
    synthesize_and_plot_trajectory graph_B matrix_neg registry_B
      "m2" "alpha" 4 (-1)%Q 20 = Ok (Trajectories table best)
    ∧ rec ∈ table
    ∧ path_nodes rec = ["m2"; "alpha"]
    ∧ ¬ (0 <= score rec)%Q.
Proof.
  eexists _, _, _. split; [vm_compute; reflexivity|].
  split; [apply list_elem_of_here|]. split; [reflexivity|].
  vm_compute. intros H. by apply H.
Qed.

Lemma synthesize_past_first_guard (G : DiGraph) (M : DataFrame)
    (node_info : gmap string NodeMeta) (s e : string) (n : nat) (w : Q)
    (k : nat) (g : WGraph) :
  DiGraph.has_node G s = true → DiGraph.has_node G e = true →
  is_Some (node_info !! s) → is_Some (node_info !! e) →
  pruned_cooccurrence_graph M w = Ok g →
  synthesize_and_plot_trajectory G M node_info s e n w k
  = if negb (WGraph.has_node g s) || negb (WGraph.has_node g e)
    then Ok EmptyTable
    else
      paths ← WGraph.all_simple_paths g s e n;
      let all_found_paths := filter (λ path, 2 ≤ length path)%nat paths in
      let fallback := Trajectories [fallback_record s e] [s; e] in
      if bool_decide (all_found_paths = []) then Ok fallback
      else
        let scored_paths_list :=
          omap (score_path g G node_info) all_found_paths in
        if bool_decide (scored_paths_list = []) then Ok fallback
        else
          match merge_sort better scored_paths_list with
          | (best :: _) as df_paths_to_save =>
              Ok (Trajectories (take k df_paths_to_save) (path_nodes best))
          | [] => Raise IndexError
          end.
Proof.
  intros Hs He [ds Hds] [de Hde] Hg. unfold synthesize_and_plot_trajectory.
  rewrite Hs, He, Hds, Hde, Hg. simpl.
  by rewrite ?bool_decide_eq_false_2 by done.
Qed.

Lemma all_simple_paths_total (g : WGraph) (s e : string) (n : nat) :
  WGraph.has_node g s = true →
  ∃ paths, WGraph.all_simple_paths g s e n = Ok paths.
Proof.
  intros Hs. unfold WGraph.all_simple_paths. rewrite Hs. simpl.
  destruct (decide (s = e)); by eexists.
Qed.

Lemma merge_sort_nonempty {A} (R : relation A) `{!RelDecision R}
    (l : list A) :
  l ≠ [] → merge_sort R l ≠ [].
Proof.
  intros Hl Hnil. apply Hl, Permutation_nil_r.
  rewrite <- Hnil. by rewrite merge_sort_Permutation.
Qed.

(** Over a matrix without a repeated label the synthesizer raises
    nothing. *)
Lemma synthesize_total (G : DiGraph) (M : DataFrame)
    (node_info : gmap string NodeMeta) (s e : string) (n : nat) (w : Q)
    (k : nat) :
  unique_labels M →
  ∃ out, synthesize_and_plot_trajectory G M node_info s e n w k = Ok out.
Proof.
  intros Huniq. unfold synthesize_and_plot_trajectory.
  destruct (_ || _ || _ || _); [by eexists|].
  destruct (pruned_graph_total M w Huniq) as (g & ->). simpl.
  destruct (WGraph.has_node g s) eqn:Hs; [|by eexists]. simpl.
  destruct (WGraph.has_node g e); [|by eexists]. simpl.
  destruct (all_simple_paths_total g s e n Hs) as [paths ->]. simpl.
  case_bool_decide; [by eexists|].
  case_bool_decide as Hscored; [by eexists|].
  apply (merge_sort_nonempty better) in Hscored.
  destruct (merge_sort better _); [done | by eexists].
Qed.

(** Every row of the saved table is the fallback row or the record of an
    enumerated path of at least two nodes. *)
Lemma trajectory_table_rows (G : DiGraph) (M : DataFrame)
    (node_info : gmap string NodeMeta) (s e : string) (n : nat) (w : Q)
    (k : nat) (table : list PathRecord) (best : list string)
    (rec : PathRecord) :
  synthesize_and_plot_trajectory G M node_info s e n w k
    = Ok (Trajectories table best) →
  rec ∈ table →
  rec = fallback_record s e
  ∨ ∃ g paths path,
      pruned_cooccurrence_graph M w = Ok g
      ∧ WGraph.all_simple_paths g s e n = Ok paths
      ∧ path ∈ paths ∧ (2 ≤ length path)%nat
      ∧ score_path g G node_info path = Some rec.
Proof.
  unfold synthesize_and_plot_trajectory.
  destruct (_ || _ || _ || _); [done|].
  destruct (pruned_cooccurrence_graph M w) as [g|] eqn:Hg; [|done]. simpl.
  destruct (_ || _); [done|].
  destruct (WGraph.all_simple_paths g s e n) as [paths|] eqn:Hpaths;
    [|done]. simpl.
  case_bool_decide.
  { intros [= <- _] ->%list_elem_of_singleton. by left. }
  case_bool_decide.
  { intros [= <- _] ->%list_elem_of_singleton. by left. }
  destruct (merge_sort better _) as [|r0 sorted] eqn:Hsort; [done|].
  intros [= <- _] Hin. right.
  assert (Hrec : rec ∈ merge_sort better
            (omap (score_path g G node_info)
                  (filter (λ path, 2 ≤ length path)%nat paths))).
  { rewrite Hsort. apply elem_of_take in Hin as (i & Hi & _).
    by eapply list_elem_of_lookup_2. }
  rewrite merge_sort_Permutation in Hrec.
  apply list_elem_of_omap in Hrec as (path & Hpath & Hscore).
  apply list_elem_of_filter in Hpath as [Hlen Hpath].
  by exists g, paths, path.
Qed.

(** With a minimum edge weight that is not negative, no row of the saved
    table has a negative score. *)
Lemma trajectory_table_scores_nonneg (G : DiGraph) (M : DataFrame)
    (node_info : gmap string NodeMeta) (s e : string) (n : nat) (w : Q)
    (k : nat) (table : list PathRecord) (best : list string)
    (rec : PathRecord) :
  (0 <= w)%Q →
  synthesize_and_plot_trajectory G M node_info s e n w k
    = Ok (Trajectories table best) →
  rec ∈ table → (0 <= score rec)%Q.
Proof.
  intros Hw Hout Hin.
  destruct (trajectory_table_rows G M node_info s e n w k table best rec
              Hout Hin)
    as [-> | (g & paths & path & Hg & Hpaths & Hpath & Hlen & Hrec)].
  - simpl. lra.
  - assert (Hl : linked g path) by by eapply all_simple_paths_linked.
    rewrite (score_path_linked g G node_info path Hl Hlen) in Hrec.
    injection Hrec as <-. cbn [score].
    pose proof (pruned_graph_above M w g Hg) as Habove.
    by apply (linked_score_nonneg g G node_info M w).
Qed.




(* ===================================================================== *)
(** * Further properties of the link graph builder *)
(* ===================================================================== *)

(** X1. The directed link graph does not depend on the order in which
    the documents are read: two lists holding the same documents give the
    same graph for a given registry. *)
Theorem link_graph_ignores_document_order (files1 files2 : list Document)
    (node_info : gmap string NodeMeta) :
  files1 ≡ₚ files2 →
  build_explicit_link_graph files1 node_info
  = build_explicit_link_graph files2 node_info.
Proof.
  intros Hperm.
  destruct (build_explicit_link_graph_fields files1 node_info)
    as (Hn1 & He1 & Hp1 & Hc1).
  destruct (build_explicit_link_graph_fields files2 node_info)
    as (Hn2 & He2 & Hp2 & Hc2).
  apply DiGraph_eq; [congruence| |congruence..].
  rewrite He1, He2. apply set_eq. intros e.
  rewrite !elem_of_union_list.
  split; intros (E & HE & He); exists E; split; try done.
  - by rewrite <- Hperm.
  - by rewrite Hperm.
Qed.

Lemma link_graph_ignores_document_order_witness :
  build_explicit_link_graph corpus_AB (get_node_metadata corpus_AB)
  = build_explicit_link_graph (reverse corpus_AB)
                              (get_node_metadata corpus_AB).
Proof.
  apply (link_graph_ignores_document_order corpus_AB (reverse corpus_AB)).
  symmetry. apply reverse_Permutation.
Defined.

(** X2. Each document adds its own edges, whatever the other documents
    hold: the edges built from two lists of documents read one after the
    other are the union of the edges built from each list, over the same
    nodes. *)
Theorem link_graph_of_appended_documents (files1 files2 : list Document)
    (node_info : gmap string NodeMeta) :
  dg_edges (build_explicit_link_graph (files1 ++ files2) node_info)
  = dg_edges (build_explicit_link_graph files1 node_info)
    ∪ dg_edges (build_explicit_link_graph files2 node_info)
  ∧ dg_nodes (build_explicit_link_graph (files1 ++ files2) node_info)
    = dg_nodes (build_explicit_link_graph files1 node_info).
Proof.
  destruct (build_explicit_link_graph_fields (files1 ++ files2) node_info)
    as (Hn & He & _).
  destruct (build_explicit_link_graph_fields files1 node_info)
    as (Hn1 & He1 & _).
  destruct (build_explicit_link_graph_fields files2 node_info)
    as (_ & He2 & _).
  split; [|congruence].
  rewrite He, He1, He2, fmap_app. apply union_list_app_L.
Qed.

(** X3. Every edge of the link graph has a document behind it: one of the
    six category files, in which the source is a defining header and the
    target is referenced inside a section following a header; both ends
    are registry concepts.  Files outside the six categories add no
    edge. *)
Theorem link_graph_edge_provenance (files : list Document)
    (node_info : gmap string NodeMeta) (u v : string) :
  (u, v) ∈ dg_edges (build_explicit_link_graph files node_info) →
  ∃ doc, doc ∈ files ∧ categorised doc
    ∧ u ∈ find_headers doc.2
    ∧ is_Some (node_info !! u) ∧ is_Some (node_info !! v)
    ∧ ∃ section file,
        section ∈ drop 1 (split_sections doc.2)
        ∧ (file, v) ∈ find_links section.
Proof.
  destruct (build_explicit_link_graph_fields files node_info)
    as (_ & He & _).
  rewrite He. intros (E & HE & Huv)%elem_of_union_list.
  apply list_elem_of_fmap in HE as (doc & -> & Hdoc).
  apply elem_of_document_edges in Huv as (Hcat & Hu & Hv & Hhdr & Hsec).
  exists doc. rewrite <- !elem_of_dom. by repeat (split; [done|]).
Qed.

Lemma link_graph_edge_provenance_witness :
  ∃ doc, doc ∈ corpus_AB ∧ categorised doc
    ∧ "alpha" ∈ find_headers doc.2
    ∧ is_Some (get_node_metadata corpus_AB !! "alpha")
    ∧ is_Some (get_node_metadata corpus_AB !! "beta")
    ∧ ∃ section file,
        section ∈ drop 1 (split_sections doc.2)
        ∧ (file, "beta") ∈ find_links section.
Proof.
  apply (link_graph_edge_provenance corpus_AB (get_node_metadata corpus_AB)
           "alpha" "beta").
  apply (bool_decide_unpack _). vm_compute. exact I.
Defined.

(** X4. The builder gives every node the category and colour the registry
    holds for it, and the graph it returns carries no PageRank or
    community annotation yet. *)
Theorem link_graph_nodes_carry_registry_metadata (files : list Document)
    (node_info : gmap string NodeMeta) (n : string) :
  let G := build_explicit_link_graph files node_info in
  dg_nodes G !! n = Some <$> node_info !! n
  ∧ dg_pagerank G = ∅ ∧ dg_community G = ∅.
Proof.
  destruct (build_explicit_link_graph_fields files node_info)
    as (Hn & _ & Hp & Hc).
  simpl. rewrite Hn, lookup_fmap. by destruct (node_info !! n).
Qed.

(* ===================================================================== *)
(** * Further properties of the patterns and the metadata extractor *)
(* ===================================================================== *)

Lemma span_all_chars (p : ascii → bool) (s a b : string) :
  Regex.span p s = (a, b) → all_chars p a = true.
Proof.
  revert a b. induction s as [|c s IH]; intros a b; simpl.
  - by intros [= <- <-].
  - destruct (p c) eqn:Hc; [|by intros [= <- <-]].
    destruct (Regex.span p s) as [a' b'] eqn:Hs. intros [= <- <-].
    simpl. rewrite Hc. by eapply IH.
Qed.

Lemma plus_all_chars (p : ascii → bool) (s a b : string) :
  Regex.plus p s = Some (a, b) →
  a ≠ EmptyString ∧ all_chars p a = true.
Proof.
  unfold Regex.plus. destruct (Regex.span p s) as [a' b'] eqn:Hs.
  destruct (decide (a' = EmptyString)); [done|]. intros [= <- <-].
  split; [done | by eapply span_all_chars].
Qed.

Lemma findall_from_Forall {A} (m : string → option (A * string))
    (P : A → Prop) (skip : nat) (s : string) :
  (∀ s' a rest, m s' = Some (a, rest) → P a) →
  Forall P (Regex.findall_from m skip s).
Proof.
  intros Hm. revert skip. induction s as [|c s IH]; intros skip; simpl.
  - constructor.
  - destruct skip as [|k]; [|apply IH].
    destruct (m (String c s)) as [[a rest]|] eqn:Hmatch; [|apply IH].
    constructor; [by eapply Hm | apply IH].
Qed.

Lemma match_header_well_formed (s id rest : string) :
  Regex.match_header s = Some (id, rest) → well_formed_id id.
Proof.
  unfold Regex.match_header. destruct (Regex.match_split s); [|done].
  simpl. apply plus_all_chars.
Qed.

Lemma find_headers_well_formed (content h : string) :
  h ∈ find_headers content → well_formed_id h.
Proof.
  revert h. apply Forall_forall.
  apply findall_from_Forall. intros s a rest. apply match_header_well_formed.
Qed.

(** X5. What the two patterns capture: every header found is a non-empty
    run of letters, digits, hyphens and underscores, and every
    cross-reference found has such a run as its target and a file name
    made of a non-empty run of lower-case letters, hyphens and underscores
    followed by [.md]. *)
Theorem patterns_capture_well_formed_ids (text : string) :
  (∀ h, h ∈ find_headers text → well_formed_id h)
  ∧ ∀ file target, (file, target) ∈ find_links text →
      well_formed_id target
      ∧ ∃ stem, file = stem +:+ ".md" ∧ stem ≠ EmptyString
                ∧ all_chars Regex.is_file_char stem = true.
Proof.
  split; [intros h; apply find_headers_well_formed|].
  intros file target.
  revert file target.
  assert (HF : Forall (λ ft : string * string,
                 well_formed_id ft.2
                 ∧ ∃ stem, ft.1 = stem +:+ ".md" ∧ stem ≠ EmptyString
                           ∧ all_chars Regex.is_file_char stem = true)
               (find_links text)).
  { apply findall_from_Forall. intros s [f t] rest.
    unfold Regex.match_link.
    destruct (Regex.strip "[[./" s) as [r1|]; [|done]. cbn [mbind option_bind].
    destruct (Regex.plus Regex.is_file_char r1) as [[stem r2]|] eqn:Hstem;
      [|done]. cbn [mbind option_bind].
    destruct (Regex.strip ".md#" r2) as [r3|]; [|done]. cbn [mbind option_bind].
    destruct (Regex.plus Regex.is_id_char r3) as [[target r4]|] eqn:Htgt;
      [|done]. cbn [mbind option_bind].
    destruct (Regex.strip "]]" r4) as [r5|]; [|done]. cbn [mbind option_bind].
    intros [= <- <- <-]. simpl.
    apply plus_all_chars in Hstem as [Hne Hall].
    split; [by eapply plus_all_chars|]. by exists stem. }
  intros file target Hin.
  by apply (proj1 (Forall_forall _ _) HF (file, target)).
Qed.

Lemma elem_of_header_definitions (files : list Document) (h : string)
    (m : NodeMeta) :
  (h, m) ∈ header_definitions files
  ↔ ∃ doc, doc ∈ files
      ∧ NODE_CATEGORIES doc.1 = Some (category m, color m)
      ∧ h ∈ find_headers doc.2.
Proof.
  unfold header_definitions. rewrite list_elem_of_bind. split.
  - intros (doc & Hin & Hdoc). exists doc. split; [done|].
    destruct (NODE_CATEGORIES doc.1) as [[cat col]|];
      [|by apply elem_of_nil in Hin].
    apply list_elem_of_fmap in Hin as (h' & [= -> ->] & Hh). by split.
  - intros (doc & Hdoc & Hcat & Hh). exists doc. split; [|done].
    rewrite Hcat. apply list_elem_of_fmap. exists h. split; [|done].
    by destruct m.
Qed.

Lemma register_all_lookup_Some (defs : list (string * NodeMeta))
    (node_info : gmap string NodeMeta) (h : string) (m : NodeMeta) :
  register_all defs node_info !! h = Some m →
  node_info !! h = Some m ∨ (h, m) ∈ defs.
Proof.
  revert node_info. induction defs as [|[h' m'] defs IH]; intros ni; simpl.
  - by left.
  - intros [Hm | Hm]%IH; [|right; by apply list_elem_of_further].
    unfold register_header in Hm. simpl in Hm.
    destruct (ni !! h') eqn:Hh'; [by left|].
    destruct (decide (h' = h)) as [->|Hne].
    + rewrite lookup_insert_eq in Hm. injection Hm as ->.
      right. apply list_elem_of_here.
    + rewrite lookup_insert_ne in Hm by done. by left.
Qed.

Lemma register_all_lookup_defined (defs : list (string * NodeMeta))
    (node_info : gmap string NodeMeta) (h : string) :
  h ∈ defs.*1 → is_Some (register_all defs node_info !! h).
Proof.
  revert node_info. induction defs as [|[h' m'] defs IH]; intros ni; simpl.
  - by intros ?%elem_of_nil.
  - intros [-> | Hin]%elem_of_cons; [|by apply IH].
    destruct (register_header m' ni h' !! h') as [x|] eqn:Hx.
    + exists x. by apply register_all_keeps.
    + unfold register_header in Hx.
      destruct (ni !! h') eqn:Hh'; [congruence|].
      by rewrite lookup_insert_eq in Hx.
Qed.

(** X6. The registry holds exactly the concepts defined by a header of one
    of the six category files, under a well-formed id, each with the
    category and colour of a file that defines it; a file outside the six
    categories defines nothing. *)
Theorem registry_holds_defined_concepts (files : list Document) (h : string) :
  let node_info := get_node_metadata files in
  (is_Some (node_info !! h)
   ↔ ∃ doc, doc ∈ files ∧ categorised doc ∧ h ∈ find_headers doc.2)
  ∧ ∀ m, node_info !! h = Some m →
      well_formed_id h
      ∧ ∃ doc, doc ∈ files
          ∧ NODE_CATEGORIES doc.1 = Some (category m, color m)
          ∧ h ∈ find_headers doc.2.
Proof.
  simpl. unfold get_node_metadata. rewrite get_node_metadata_from.
  assert (Hsome : ∀ m, register_all (header_definitions files) ∅ !! h
                       = Some m →
            ∃ doc, doc ∈ files
              ∧ NODE_CATEGORIES doc.1 = Some (category m, color m)
              ∧ h ∈ find_headers doc.2).
  { intros m [Hm | Hm]%register_all_lookup_Some;
      [by rewrite lookup_empty in Hm|].
    by apply elem_of_header_definitions. }
  split.
  - split.
    + intros [m Hm]. destruct (Hsome m Hm) as (doc & Hdoc & Hcat & Hh).
      exists doc. split; [done|]. split; [|done].
      unfold categorised. by rewrite Hcat.
    + intros (doc & Hdoc & [[cat col] Hcat] & Hh).
      apply register_all_lookup_defined.
      apply list_elem_of_fmap.
      exists (h, {| category := cat; color := col |}). split; [done|].
      apply elem_of_header_definitions. by exists doc.
  - intros m Hm. destruct (Hsome m Hm) as (doc & Hdoc & Hcat & Hh).
    split; [by eapply find_headers_well_formed | by exists doc].
Qed.

(* ===================================================================== *)
(** * Further properties of the co-occurrence builder *)
(* ===================================================================== *)

Lemma doc_links_from_other (files : list Document)
    (acc : gmap string (list string)) (d : string) :
  d ∉ files.*1 →
  foldl (λ acc (doc : Document),
           match NODE_CATEGORIES doc.1 with
           | Some _ => <[doc.1 := map snd (find_links doc.2)]> acc
           | None => acc
           end) acc files !! d = acc !! d.
Proof.
  revert acc. induction files as [|doc files IH]; intros acc Hd; [done|].
  simpl in *. apply not_elem_of_cons in Hd as [Hne Hd].
  rewrite IH by done.
  destruct (NODE_CATEGORIES doc.1); [|done]. by rewrite lookup_insert_ne.
Qed.

(** With file names that do not repeat, the links kept for a categorised
    document are the targets found in its text. *)
Lemma doc_links_lookup (files : list Document) (doc : Document) :
  NoDup files.*1 → doc ∈ files → categorised doc →
  doc_links files !! doc.1 = Some (document_targets doc).
Proof.
  unfold doc_links. generalize (∅ : gmap string (list string)).
  induction files as [|doc' files IH]; intros acc Hnd Hin Hcat.
  { by apply elem_of_nil in Hin. }
  simpl in *. apply NoDup_cons in Hnd as [Hfresh Hnd].
  apply elem_of_cons in Hin as [<- | Hin]; [|by apply IH].
  rewrite doc_links_from_other by done.
  destruct Hcat as [cc Hcc]. rewrite Hcc. by rewrite lookup_insert_eq.
Qed.

Lemma doc_links_categorised (files : list Document) (d : string)
    (l : list string) :
  doc_links files !! d = Some l →
  ∃ doc, doc ∈ files ∧ categorised doc ∧ doc.1 = d
         ∧ l = document_targets doc.
Proof.
  unfold doc_links.
  assert (H : ∀ acc : gmap string (list string),
    foldl (λ acc (doc : Document),
             match NODE_CATEGORIES doc.1 with
             | Some _ => <[doc.1 := map snd (find_links doc.2)]> acc
             | None => acc
             end) acc files !! d = Some l →
    acc !! d = Some l
    ∨ ∃ doc, doc ∈ files ∧ categorised doc ∧ doc.1 = d
             ∧ l = document_targets doc).
  { induction files as [|doc files IH]; intros acc; simpl; [by left|].
    intros [Hacc | (doc' & Hin & Hrest)]%IH.
    - destruct (NODE_CATEGORIES doc.1) as [cc|] eqn:Hcc; [|by left].
      destruct (decide (doc.1 = d)) as [<-|Hne].
      + rewrite lookup_insert_eq in Hacc. injection Hacc as <-.
        right. exists doc. split; [apply list_elem_of_here|].
        split; [by exists cc | done].
      + rewrite lookup_insert_ne in Hacc by done. by left.
    - right. exists doc'. split; [by apply list_elem_of_further | done]. }
  intros [Hempty | Hdoc]%H; [by rewrite lookup_empty in Hempty | done].
Qed.

(** X7. The abundance table counts references: for documents whose file
    names do not repeat, the cell of a registered concept and a
    categorised document holds the number of cross-references to that
    concept in the document's text, and the row of an id that is not
    registered holds 0 throughout. *)
Theorem abundance_counts_references (files : list Document)
    (node_info : gmap string NodeMeta) (doc : Document) (c : string) :
  NoDup files.*1 → doc ∈ files → categorised doc →
  df_cell (abundance_table files node_info) c doc.1
  = if decide (is_Some (node_info !! c))
    then count c (document_targets doc) else 0%nat.
Proof.
  intros Hnd Hin Hcat.
  destruct (abundance_table_filled files node_info) as (_ & _ & Hcell).
  rewrite Hcell, (doc_links_lookup files doc) by done.
  destruct (decide (c ∈ sorted_keys node_info)) as [Hc|Hc];
    rewrite elem_of_sorted_keys in Hc; by case_decide.
Qed.

Lemma abundance_counts_references_witness :
  df_cell (abundance_table corpus_AB (get_node_metadata corpus_AB))
          "beta" "theoretical.md" = 2%nat.
Proof.
  etrans.
  - apply (abundance_counts_references corpus_AB
             (get_node_metadata corpus_AB)
             (default (EmptyString, EmptyString) (head corpus_AB)) "beta").
    + apply (bool_decide_unpack _). vm_compute. exact I.
    + apply list_elem_of_here.
    + by eexists.
  - vm_compute. reflexivity.
Defined.

Lemma string_compare_lt_trans (a b c : string) :
  String.compare a b = Lt → String.compare b c = Lt →
  String.compare a c = Lt.
Proof.
  revert b c. induction a as [|x a IH]; intros [|y b] [|z c]; simpl;
    try done.
  unfold Ascii.compare.
  destruct (N.compare_spec (N_of_ascii x) (N_of_ascii y)) as [Hxy|Hxy|Hxy];
    destruct (N.compare_spec (N_of_ascii y) (N_of_ascii z)) as [Hyz|Hyz|Hyz];
    try done.
  - rewrite Hxy, Hyz, N.compare_refl. apply IH.
  - intros _ _. rewrite Hxy.
    by rewrite (proj2 (N.compare_lt_iff _ _) Hyz).
  - intros _ _. rewrite <- Hyz.
    by rewrite (proj2 (N.compare_lt_iff _ _) Hxy).
  - intros _ _.
    assert (Hxz : (N_of_ascii x < N_of_ascii z)%N) by lia.
    by rewrite (proj2 (N.compare_lt_iff _ _) Hxz).
Qed.

Global Instance string_le_total : Total string_le.
Proof. intros a b. apply String.leb_total. Qed.

Global Instance string_le_trans : Transitive string_le.
Proof.
  intros a b c. unfold string_le, String.leb.
  destruct (String.compare a b) eqn:Hab; [| |done];
    destruct (String.compare b c) eqn:Hbc; try done; intros _ _.
  - apply String.compare_eq_iff in Hab as ->. by rewrite Hbc.
  - apply String.compare_eq_iff in Hab as ->. by rewrite Hbc.
  - apply String.compare_eq_iff in Hbc as <-. by rewrite Hab.
  - by rewrite (string_compare_lt_trans a b c).
Qed.

Lemma StronglySorted_filter {A} (R : relation A) (P : A → Prop)
    `{!∀ x, Decision (P x)} (l : list A) :
  StronglySorted R l → StronglySorted R (filter P l).
Proof.
  induction 1 as [|x l Hl IH Hx]; [constructor|].
  rewrite filter_cons. destruct (decide (P x)); [|done].
  constructor; [done|].
  apply Forall_forall. intros y [_ Hy]%list_elem_of_filter.
  by apply (proj1 (Forall_forall _ _) Hx).
Qed.

Lemma sorted_keys_sorted {V} (d : gmap string V) :
  StronglySorted string_le (sorted_keys d) ∧ NoDup (sorted_keys d).
Proof.
  unfold sorted_keys. split.
  - apply StronglySorted_merge_sort; apply _.
  - rewrite merge_sort_Permutation. apply NoDup_elements.
Qed.

(** The matrix the builder returns has no repeated label. *)
Lemma built_matrix_unique_labels
    (spearman : list nat → list nat → option Q)
    (files : list Document) (node_info : gmap string NodeMeta) :
  unique_labels (build_cooccurrence_data spearman files node_info).
Proof.
  destruct (abundance_table_filled files node_info) as (Hi & _ & _).
  destruct (sorted_keys_sorted node_info) as [_ Hnd].
  unfold unique_labels, build_cooccurrence_data. simpl. rewrite Hi.
  split; by apply NoDup_filter.
Qed.

(** X8. The co-occurrence matrix is square over labels that do not repeat
    and stand in sorted order, and every label is a key of the registry;
    so [loc] never meets an ambiguous label. *)
Theorem cooccurrence_labels_sorted_unique
    (spearman : list nat → list nat → option Q)
    (files : list Document) (node_info : gmap string NodeMeta) :
  let M := build_cooccurrence_data spearman files node_info in
  df_columns M = df_index M
  ∧ NoDup (df_index M)
  ∧ StronglySorted string_le (df_index M)
  ∧ ∀ c, c ∈ df_index M → is_Some (node_info !! c).
Proof.
  simpl. destruct (abundance_table_filled files node_info) as (Hi & _ & _).
  destruct (sorted_keys_sorted node_info) as [Hsorted Hnd].
  unfold build_cooccurrence_data. simpl. rewrite Hi.
  split; [done|]. split; [by apply NoDup_filter|].
  split; [by apply StronglySorted_filter|].
  intros c [_ Hc]%list_elem_of_filter. by apply elem_of_sorted_keys.
Qed.

(** X26. With file names that do not repeat, the co-occurrence matrix is
    labelled by exactly the registered concepts that some categorised
    document references at least once: a registered concept that is
    referenced nowhere has no row, and neither has a referenced id that is
    not registered. *)
Theorem cooccurrence_retains_referenced_concepts
    (spearman : list nat → list nat → option Q)
    (files : list Document) (node_info : gmap string NodeMeta) (c : string) :
  NoDup files.*1 →
  c ∈ df_index (build_cooccurrence_data spearman files node_info)
  ↔ is_Some (node_info !! c)
    ∧ ∃ doc, doc ∈ files ∧ categorised doc ∧ c ∈ document_targets doc.
Proof.
  intros Hnd.
  change (df_index (build_cooccurrence_data spearman files node_info))
    with (df_index (drop_unreferenced (abundance_table files node_info))).
  rewrite retained_iff, elem_of_dom. split.
  - intros [Hc (d & l & Hl & Hin)]. split; [done|].
    apply doc_links_categorised in Hl as (doc & Hdoc & Hcat & _ & ->).
    by exists doc.
  - intros [Hc (doc & Hdoc & Hcat & Hin)]. split; [done|].
    exists doc.1, (document_targets doc).
    split; [by apply doc_links_lookup | done].
Qed.

Lemma cooccurrence_retains_referenced_concepts_witness :
  "beta" ∈ df_index (build_cooccurrence_data (λ _ _, None) corpus_AB
                       (get_node_metadata corpus_AB))
  ↔ is_Some (get_node_metadata corpus_AB !! "beta")
    ∧ ∃ doc, doc ∈ corpus_AB ∧ categorised doc
             ∧ "beta" ∈ document_targets doc.
Proof.
  apply (cooccurrence_retains_referenced_concepts (λ _ _, None) corpus_AB
           (get_node_metadata corpus_AB) "beta").
  apply (bool_decide_unpack _). vm_compute. exact I.
Defined.

(* ===================================================================== *)
(** * Further properties of the knowledge gap scorer *)
(* ===================================================================== *)

Global Instance stronger_total : Total stronger.
Proof.
  intros a b. unfold stronger.
  destruct (Qlt_le_dec (Predicted_Link_Strength a)
                       (Predicted_Link_Strength b)) as [H|H].
  - right. by apply Qlt_le_weak.
  - by left.
Qed.

Global Instance stronger_trans : Transitive stronger.
Proof. intros a b c. unfold stronger. intros Hab Hbc. by eapply Qle_trans. Qed.

Lemma round_half_even_ge_floor (x : Q) :
  (Qfloor x ≤ round_half_even x)%Z.
Proof.
  unfold round_half_even.
  destruct (x - inject_Z (Qfloor x) ?= 1 # 2)%Q; [|lia|lia].
  destruct (Z.even (Qfloor x)); lia.
Qed.

(** A value above the threshold is stored as at least 1.0. *)
Lemma round3_above_one (x : Q) : (1 < x)%Q → (1 <= round3 x)%Q.
Proof.
  intros Hx. unfold round3.
  pose proof (round_half_even_ge_floor (x * 1000)) as Hge.
  assert (Hfloor : (Qfloor 1000 ≤ Qfloor (x * 1000))%Z).
  { apply Qfloor_resp_le. lra. }
  change (Qfloor 1000) with 1000%Z in Hfloor.
  generalize dependent (round_half_even (x * 1000)). intros z Hz.
  unfold Qdiv, Qle. simpl. lia.
Qed.

(** X9. The gap candidate list is ranked: its records stand in
    non-increasing order of stored strength, and each stored strength,
    rounded to three decimals from a value above the threshold, is at
    least 1.0. *)
Theorem gap_list_is_ranked (G : DiGraph) (M : DataFrame)
    (node_info : gmap string NodeMeta) (df_gaps : list GapRecord) :
  analyze_probabilistic_knowledge_gaps G M node_info = Ok (Some df_gaps) →
  StronglySorted stronger df_gaps
  ∧ ∀ r, r ∈ df_gaps → (1 <= Predicted_Link_Strength r)%Q.
Proof.
  intros Hres. split.
  - revert Hres. unfold analyze_probabilistic_knowledge_gaps.
    destruct (_ || _); [done|].
    destruct (mapM _ _) as [scored|]; [|done]. simpl.
    destruct (bool_decide _); [done|]. intros [= <-].
    apply StronglySorted_merge_sort; apply _.
  - intros r Hr.
    destruct (gap_list_inv G M node_info r)
      as (u & v & du & dv & _ & _ & _ & _ & Hstr & ->).
    { by rewrite Hres. }
    simpl. apply round3_above_one.
    revert Hstr. change (1.0)%Q with (10 # 10). intros Hstr.
    assert (H1 : (10 # 10 == 1)%Q) by reflexivity. lra.
Qed.

Lemma gap_list_is_ranked_witness :
  StronglySorted stronger [record_alpha; record_B]
  ∧ ∀ r, r ∈ [record_alpha; record_B] →
         (1 <= Predicted_Link_Strength r)%Q.
Proof.
  apply (gap_list_is_ranked graph_B matrix_B registry_B).
  vm_compute. reflexivity.
Defined.

Lemma gap_list_nonempty (G : DiGraph) (M : DataFrame)
    (node_info : gmap string NodeMeta) (df_gaps : list GapRecord) :
  analyze_probabilistic_knowledge_gaps G M node_info = Ok (Some df_gaps) →
  df_gaps ≠ [].
Proof.
  unfold analyze_probabilistic_knowledge_gaps.
  destruct (_ || _); [done|].
  destruct (mapM _ _) as [scored|]; [|done]. simpl.
  case_bool_decide as Hnil; [done|]. intros [= <-].
  by apply merge_sort_nonempty.
Qed.

Lemma stage_runs_false (G : DiGraph) (M : DataFrame) :
  stage_runs G M = false
  ↔ DiGraph.number_of_nodes G = 0%nat ∨ Frame.empty M = true.
Proof.
  unfold stage_runs. rewrite negb_false_iff, orb_true_iff.
  by rewrite bool_decide_eq_true.
Qed.

Lemma gap_scorer_returned (G : DiGraph) (M : DataFrame)
    (node_info : gmap string NodeMeta) (out : option (list GapRecord)) :
  analyze_probabilistic_knowledge_gaps G M node_info = Ok out →
  (∀ df_gaps, out = Some df_gaps → df_gaps ≠ [])
  ∧ (out = None
     ↔ DiGraph.number_of_nodes G = 0%nat ∨ Frame.empty M = true
       ∨ ∀ u v du dv,
           node_info !! u = Some du → node_info !! v = Some dv →
           precedes (category du) (category dv) →
           eligible G u v = true →
           ¬ (1.0 < gap_strength G M (category du) (category dv) u v)%Q).
Proof.
  intros Hres. split.
  { intros l ->. by eapply gap_list_nonempty. }
  destruct (stage_runs G M) eqn:Hruns.
  - assert (Hnot : ¬ (DiGraph.number_of_nodes G = 0%nat
                      ∨ Frame.empty M = true)).
    { rewrite <- stage_runs_false. congruence. }
    split.
    + intros ->. right. right. intros u v du dv Hu Hv Hprec Hel Hstr.
      pose proof (gap_list_intro G M node_info None u v du dv Hres Hruns
                    Hu Hv Hprec Hel Hstr) as Hin.
      rewrite Hres in Hin. by apply elem_of_nil in Hin.
    + intros [H0 | [H0 | Hnone]]; [tauto | tauto |].
      destruct out as [l|]; [|done]. exfalso.
      destruct l as [|r l]; [by eapply gap_list_nonempty|].
      destruct (gap_list_inv G M node_info r)
        as (u & v & du & dv & Hu & Hv & Hprec & Hel & Hstr & _).
      { rewrite Hres. apply list_elem_of_here. }
      exact (Hnone u v du dv Hu Hv Hprec Hel Hstr).
  - apply stage_runs_false in Hruns as Hskip. split; [tauto|]. intros _.
    destruct out as [l|]; [|done]. exfalso.
    destruct l as [|r l]; [by eapply gap_list_nonempty|].
    assert (Hin : r ∈ gap_list
              (analyze_probabilistic_knowledge_gaps G M node_info)).
    { rewrite Hres. apply list_elem_of_here. }
    apply elem_of_gap_list_inv in Hin as [Hr _]. congruence.
Qed.

(** X10. The gap scorer raises nothing but [ValueError], and that only
    when a label of the matrix repeats: over a matrix without a repeated
    label it returns, whatever the graph and the registry.  When it
    returns, it returns no list exactly when the graph is empty, the matrix
    is empty, or no pair of registered, unlinked concepts of the graph from
    two categories has a strength, as binary64 arithmetic computes it,
    above 1.0; a list it returns is never empty. *)
Theorem gap_scorer_outcome (G : DiGraph) (M : DataFrame)
    (node_info : gmap string NodeMeta) :
  match analyze_probabilistic_knowledge_gaps G M node_info with
  | Ok out =>
      (∀ df_gaps, out = Some df_gaps → df_gaps ≠ [])
      ∧ (out = None
         ↔ DiGraph.number_of_nodes G = 0%nat ∨ Frame.empty M = true
           ∨ ∀ u v du dv,
               node_info !! u = Some du → node_info !! v = Some dv →
               precedes (category du) (category dv) →
               eligible G u v = true →
               ¬ (1.0 < gap_strength G M (category du) (category dv) u v)%Q)
  | Raise e => e = ValueError ∧ ¬ unique_labels M
  end
  ∧ (unique_labels M →
     ∃ out, analyze_probabilistic_knowledge_gaps G M node_info = Ok out).
Proof.
  split; [|apply analyze_gaps_total].
  destruct (analyze_probabilistic_knowledge_gaps G M node_info)
    as [out|e] eqn:Hres.
  - by apply gap_scorer_returned.
  - by apply (analyze_gaps_raise G M node_info).
Qed.

Lemma NoDup_fmap_filter {A B} (f : A → B) (P : A → Prop)
    `{!∀ x, Decision (P x)} (l : list A) :
  NoDup (map f l) → NoDup (map f (filter P l)).
Proof.
  induction l as [|x l IH]; [done|]. simpl.
  intros [Hx Hl]%NoDup_cons. rewrite filter_cons.
  destruct (decide (P x)); [|by apply IH]. simpl.
  apply NoDup_cons. split; [|by apply IH].
  intros (y & Hy & [_ Hin]%list_elem_of_filter)%list_elem_of_fmap.
  apply Hx. apply list_elem_of_fmap. by exists y.
Qed.

Lemma nodes_by_cat_NoDup (node_info : gmap string NodeMeta) (G : DiGraph)
    (cat : Category) :
  NoDup (nodes_by_cat node_info G cat).
Proof.
  unfold nodes_by_cat. apply NoDup_fmap_filter.
  apply (NoDup_fst_map_to_list node_info).
Qed.

(** The loops visit no pair twice. *)
Lemma candidate_pairs_NoDup (G : DiGraph)
    (node_info : gmap string NodeMeta) :
  NoDup (candidate_pairs G node_info).
Proof.
  unfold candidate_pairs. apply NoDup_bind.
  - intros [c1 c2] [c1' c2'] [u v] _ _ Hin Hin'. simpl in *.
    apply list_elem_of_bind in Hin as (u1 & Hin & Hu).
    apply list_elem_of_bind in Hin as (v1 & Hin & Hv).
    apply list_elem_of_singleton in Hin. injection Hin as <- <-.
    apply list_elem_of_bind in Hin' as (u2 & Hin' & Hu').
    apply list_elem_of_bind in Hin' as (v2 & Hin' & Hv').
    apply list_elem_of_singleton in Hin'. injection Hin' as <- <-.
    apply elem_of_nodes_by_cat in Hu as (du & Hdu & <- & _).
    apply elem_of_nodes_by_cat in Hv as (dv & Hdv & <- & _).
    apply elem_of_nodes_by_cat in Hu' as (du' & Hdu' & <- & _).
    apply elem_of_nodes_by_cat in Hv' as (dv' & Hdv' & <- & _).
    congruence.
  - intros [c1 c2] _. simpl. apply NoDup_bind.
    + intros u1 u2 [u v] _ _ Hin Hin'.
      apply list_elem_of_bind in Hin as (v1 & Hin & _).
      apply list_elem_of_singleton in Hin.
      apply list_elem_of_bind in Hin' as (v2 & Hin' & _).
      apply list_elem_of_singleton in Hin'. congruence.
    + intros u _. apply NoDup_bind.
      * intros v1 v2 [u' v] _ _ Hin%list_elem_of_singleton
          Hin'%list_elem_of_singleton. congruence.
      * intros v _. apply NoDup_singleton.
      * apply nodes_by_cat_NoDup.
    + apply nodes_by_cat_NoDup.
  - apply (bool_decide_unpack _). by vm_compute.
Qed.

Lemma gap_candidate_pair (G : DiGraph) (M : DataFrame)
    (node_info : gmap string NodeMeta) (uv : string * string)
    (r : GapRecord) :
  gap_candidate G M node_info uv = Ok (Some r) → gap_pair r = uv.
Proof.
  destruct uv as [u v]. unfold gap_candidate.
  destruct (_ || _ || _); [done|]. destruct (_ && _); [|done].
  destruct (cooc_score M u v) as [located|]; [|done].
  cbn [mbind result_bind].
  destruct (category_of node_info u) as [cu|]; [|done].
  cbn [mbind result_bind].
  destruct (category_of node_info v) as [cv|]; [|done].
  cbn [mbind result_bind].
  destruct located as [cooc|]; [|done]. cbn [mbind result_bind Frame.scalar].
  destruct (bool_decide _); [|done]. by intros [= <-].
Qed.

Lemma scored_pairs_NoDup {A} (f : A → result (option GapRecord))
    (key : GapRecord → A) (l : list A) (ys : list (option GapRecord)) :
  (∀ x r, f x = Ok (Some r) → key r = x) →
  Forall2 (λ x y, f x = Ok y) l ys → NoDup l →
  NoDup (map key (omap id ys))
  ∧ ∀ k, k ∈ map key (omap id ys) → k ∈ l.
Proof.
  intros Hkey. induction 1 as [|x y l ys Hxy HF IH]; intros Hnd; simpl.
  { split; [constructor | done]. }
  apply NoDup_cons in Hnd as [Hx Hnd].
  destruct (IH Hnd) as [IHnd IHin].
  destruct y as [r|]; simpl.
  - rewrite (Hkey x r Hxy). split.
    + apply NoDup_cons. split; [|done]. intros Hin. by apply Hx, IHin.
    + intros k [-> | Hk]%elem_of_cons;
        [apply list_elem_of_here | by apply list_elem_of_further, IHin].
  - split; [done|]. intros k Hk. by apply list_elem_of_further, IHin.
Qed.

(** X11. The gap candidate list names each pair of concepts at most once:
    no two of its records have the same source and target, and none has
    the source and target of another swapped. *)
Theorem gap_list_names_each_pair_once (G : DiGraph) (M : DataFrame)
    (node_info : gmap string NodeMeta) (df_gaps : list GapRecord) :
  analyze_probabilistic_knowledge_gaps G M node_info = Ok (Some df_gaps) →
  NoDup (map gap_pair df_gaps)
  ∧ ∀ r1 r2, r1 ∈ df_gaps → r2 ∈ df_gaps →
             gap_pair r1 ≠ (Target_Node r2, Source_Node r2).
Proof.
  intros Hres. split.
  - revert Hres. unfold analyze_probabilistic_knowledge_gaps.
    destruct (_ || _); [done|].
    destruct (mapM _ _) as [scored|] eqn:Hscored; [|done]. simpl.
    destruct (bool_decide _); [done|]. intros [= <-].
    apply mapM_Ok_Forall2 in Hscored.
    assert (Hperm : map gap_pair (merge_sort stronger (omap id scored))
                    ≡ₚ map gap_pair (omap id scored)).
    { apply fmap_Permutation, merge_sort_Permutation. }
    rewrite Hperm.
    apply (scored_pairs_NoDup (gap_candidate G M node_info) gap_pair
             (candidate_pairs G node_info) scored).
    + intros uv r. apply gap_candidate_pair.
    + exact Hscored.
    + apply candidate_pairs_NoDup.
  - intros r1 r2 Hr1 Hr2 Hswap.
    destruct (gap_list_inv G M node_info r1)
      as (u & v & du & dv & Hu & Hv & Hprec & _ & _ & ->);
      [by rewrite Hres|].
    destruct (gap_list_inv G M node_info r2)
      as (u' & v' & du' & dv' & Hu' & Hv' & Hprec' & _ & _ & ->);
      [by rewrite Hres|].
    unfold gap_pair in Hswap. simpl in Hswap. injection Hswap as -> ->.
    rewrite Hu in Hv'. rewrite Hv in Hu'.
    injection Hv' as <-. injection Hu' as <-.
    unfold precedes in *. lia.
Qed.

Lemma gap_list_names_each_pair_once_witness :
  NoDup (map gap_pair [record_alpha; record_B])
  ∧ ∀ r1 r2, r1 ∈ [record_alpha; record_B] → r2 ∈ [record_alpha; record_B] →
             gap_pair r1 ≠ (Target_Node r2, Source_Node r2).
Proof.
  apply (gap_list_names_each_pair_once graph_B matrix_B registry_B).
  vm_compute. reflexivity.
Defined.

(* ===================================================================== *)
(** * Properties of the atlas of opportunity *)
(* ===================================================================== *)

Lemma elem_of_product2 {A} (l : list A) (x y : A) :
  (x, y) ∈ product2 l ↔ x ∈ l ∧ y ∈ l.
Proof.
  unfold product2. rewrite list_elem_of_bind. split.
  - intros (x' & Hin & Hx).
    apply list_elem_of_bind in Hin as (y' & Hin & Hy).
    apply list_elem_of_singleton in Hin. by injection Hin as -> ->.
  - intros [Hx Hy]. exists x. split; [|done].
    apply list_elem_of_bind. exists y.
    split; [by apply list_elem_of_singleton | done].
Qed.

Lemma elem_of_option_list {A} (o : option A) (x : A) :
  x ∈ option_list o ↔ o = Some x.
Proof.
  destruct o as [y|]; simpl.
  - rewrite list_elem_of_singleton. split; congruence.
  - split; [by intros ?%elem_of_nil | done].
Qed.

Lemma elem_of_CATEGORY_ORDER (c : Category) : c ∈ CATEGORY_ORDER.
Proof. apply (bool_decide_unpack _). by destruct c; vm_compute. Qed.

Lemma elem_of_atlas_nodes_by_cat (node_info : gmap string NodeMeta)
    (cat : Category) (n : string) :
  n ∈ Atlas.nodes_by_cat node_info cat
  ↔ ∃ d, node_info !! n = Some d ∧ category d = cat.
Proof.
  unfold Atlas.nodes_by_cat. rewrite list_elem_of_fmap. split.
  - intros ([n' d] & -> & [Hc Hin]%list_elem_of_filter). simpl in *.
    apply elem_of_map_to_list in Hin. by exists d.
  - intros (d & Hd & Hc). exists (n, d). split; [done|].
    apply list_elem_of_filter. split; [done|].
    by apply elem_of_map_to_list.
Qed.

Lemma potential_link_Some (G : DiGraph) (cat1 cat2 : Category)
    (u v : string) (r : Atlas.LinkRecord) :
  Atlas.potential_link G cat1 cat2 u v = Some r
  ↔ DiGraph.has_node G u = true ∧ DiGraph.has_node G v = true
    ∧ DiGraph.has_edge G u v = false
    ∧ (0 < topo_score G u v)%nat
    ∧ r = {| Atlas.Source := u; Atlas.Target := v;
             Atlas.Score := topo_score G u v;
             Atlas.Source_Category := cat1;
             Atlas.Target_Category := cat2 |}.
Proof.
  unfold Atlas.potential_link, topo_score.
  destruct (DiGraph.has_node G u), (DiGraph.has_node G v),
    (DiGraph.has_edge G u v); simpl; try (split; [done | by intros (?&?&?&_)]).
  case_bool_decide as Hpos.
  - split; [by intros [= <-] | by intros (_ & _ & _ & _ & ->)].
  - split; [done | by intros (_ & _ & _ & ? & _)].
Qed.

(** The rows the loops append. *)
Lemma elem_of_potential_links (G : DiGraph)
    (node_info : gmap string NodeMeta) (r : Atlas.LinkRecord) :
  r ∈ Atlas.potential_links G node_info
  ↔ ∃ du dv,
      node_info !! Atlas.Source r = Some du
      ∧ node_info !! Atlas.Target r = Some dv
      ∧ Atlas.Source_Category r = category du
      ∧ Atlas.Target_Category r = category dv
      ∧ category du ≠ category dv
      ∧ DiGraph.has_node G (Atlas.Source r) = true
      ∧ DiGraph.has_node G (Atlas.Target r) = true
      ∧ DiGraph.has_edge G (Atlas.Source r) (Atlas.Target r) = false
      ∧ Atlas.Score r = topo_score G (Atlas.Source r) (Atlas.Target r)
      ∧ (0 < Atlas.Score r)%nat.
Proof.
  unfold Atlas.potential_links. rewrite list_elem_of_bind. split.
  - intros ([c1 c2] & Hin & _). simpl in Hin.
    destruct (decide (c1 = c2)) as [|Hne]; [by apply elem_of_nil in Hin|].
    apply list_elem_of_bind in Hin as (u & Hin & Hu).
    apply list_elem_of_bind in Hin as (v & Hin & Hv).
    apply elem_of_option_list in Hin.
    apply potential_link_Some in Hin as (Hnu & Hnv & Huv & Hpos & ->).
    apply elem_of_atlas_nodes_by_cat in Hu as (du & Hdu & <-).
    apply elem_of_atlas_nodes_by_cat in Hv as (dv & Hdv & <-).
    simpl. by exists du, dv.
  - intros (du & dv & Hdu & Hdv & Hc1 & Hc2 & Hne & Hnu & Hnv & Huv
            & Hscore & Hpos).
    exists (category du, category dv). split.
    + simpl. rewrite decide_False by done.
      apply list_elem_of_bind. exists (Atlas.Source r). split.
      * apply list_elem_of_bind. exists (Atlas.Target r). split.
        -- apply elem_of_option_list. apply potential_link_Some.
           rewrite <- Hscore. repeat (split; [done|]).
           destruct r. simpl in *. by subst.
        -- apply elem_of_atlas_nodes_by_cat. by exists dv.
      * apply elem_of_atlas_nodes_by_cat. by exists du.
    + apply elem_of_product2. split; apply elem_of_CATEGORY_ORDER.
Qed.

Lemma atlas_rows_potential_links (G : DiGraph)
    (node_info : gmap string NodeMeta) (r : Atlas.LinkRecord) :
  r ∈ atlas_rows (Atlas.analyze_knowledge_gaps G node_info)
  ↔ r ∈ Atlas.potential_links G node_info.
Proof.
  unfold Atlas.analyze_knowledge_gaps, atlas_rows.
  case_bool_decide as Hempty; simpl.
  - split; [by intros ?%elem_of_nil|].
    intros (du & dv & _ & _ & _ & _ & _ & Hnu & _)%elem_of_potential_links.
    apply has_node_spec in Hnu. unfold DiGraph.number_of_nodes in Hempty.
    apply map_size_empty_iff in Hempty. rewrite Hempty in Hnu. set_solver.
  - case_bool_decide as Hnil; simpl.
    + rewrite Hnil. done.
    + by rewrite merge_sort_Permutation.
Qed.

Global Instance higher_total : Total Atlas.higher.
Proof. intros a b. unfold Atlas.higher. lia. Qed.

Global Instance higher_trans : Transitive Atlas.higher.
Proof. intros a b c. unfold Atlas.higher. lia. Qed.

Lemma topo_score_comm (G : DiGraph) (u v : string) :
  topo_score G u v = topo_score G v u.
Proof. unfold topo_score. f_equal. set_solver. Qed.

(** A pair of registered concepts of two categories, both nodes of the
    graph and with a common successor, is a row of the atlas exactly when
    the graph has no edge from the first to the second. *)
Lemma atlas_listed_iff (G : DiGraph) (node_info : gmap string NodeMeta)
    (u v : string) (du dv : NodeMeta) :
  node_info !! u = Some du → node_info !! v = Some dv →
  category du ≠ category dv →
  DiGraph.has_node G u = true → DiGraph.has_node G v = true →
  (0 < topo_score G u v)%nat →
  atlas_listed (Atlas.analyze_knowledge_gaps G node_info) u v
  ↔ DiGraph.has_edge G u v = false.
Proof.
  intros Hu Hv Hne Hnu Hnv Hpos. unfold atlas_listed. split.
  - intros (r & Hr & <- & <-).
    apply atlas_rows_potential_links, elem_of_potential_links in Hr.
    by destruct Hr as (_ & _ & _ & _ & _ & _ & _ & _ & _ & Hedge & _).
  - intros Hedge.
    exists {| Atlas.Source := u; Atlas.Target := v;
              Atlas.Score := topo_score G u v;
              Atlas.Source_Category := category du;
              Atlas.Target_Category := category dv |}.
    split; [|done].
    apply atlas_rows_potential_links, elem_of_potential_links.
    by exists du, dv.
Qed.

(** X12. The atlas of opportunity holds exactly the ordered pairs of
    registered concepts of two different categories that are both nodes of
    the graph, have no edge from the source to the target and share at
    least one successor; a row records the registry's two categories and
    the number of shared successors as its score.  The rows are in
    descending order of score, and a returned table is never empty. *)
Theorem atlas_rows_characterised (G : DiGraph)
    (node_info : gmap string NodeMeta) :
  let res := Atlas.analyze_knowledge_gaps G node_info in
  (∀ r, r ∈ atlas_rows res
        ↔ ∃ du dv,
            node_info !! Atlas.Source r = Some du
            ∧ node_info !! Atlas.Target r = Some dv
            ∧ Atlas.Source_Category r = category du
            ∧ Atlas.Target_Category r = category dv
            ∧ category du ≠ category dv
            ∧ DiGraph.has_node G (Atlas.Source r) = true
            ∧ DiGraph.has_node G (Atlas.Target r) = true
            ∧ DiGraph.has_edge G (Atlas.Source r) (Atlas.Target r) = false
            ∧ Atlas.Score r
              = size (DiGraph.successors G (Atlas.Source r)
                      ∩ DiGraph.successors G (Atlas.Target r))
            ∧ (0 < Atlas.Score r)%nat)
  ∧ StronglySorted Atlas.higher (atlas_rows res)
  ∧ res ≠ Some [].
Proof.
  intros res. split; [|split].
  - intros r. unfold res. rewrite atlas_rows_potential_links.
    apply elem_of_potential_links.
  - unfold res, Atlas.analyze_knowledge_gaps, atlas_rows.
    repeat case_bool_decide; simpl; try constructor.
    apply (StronglySorted_merge_sort _).
  - unfold res, Atlas.analyze_knowledge_gaps.
    repeat case_bool_decide; try done.
    intros [= Hnil]. apply (f_equal length) in Hnil.
    rewrite (Permutation_length (merge_sort_Permutation _ _)) in Hnil.
    by destruct (Atlas.potential_links G node_info).
Qed.

(** X13. The atlas tests the edge in one direction only.  For two
    registered concepts of different categories that are nodes of the graph
    and share a successor, each orientation of the pair is listed exactly
    when the graph has no edge in that orientation: an unlinked pair is
    listed twice, a pair linked one way is listed once, in the opposite
    orientation. *)
Theorem atlas_lists_each_unlinked_orientation (G : DiGraph)
    (node_info : gmap string NodeMeta) (u v : string) (du dv : NodeMeta) :
  node_info !! u = Some du → node_info !! v = Some dv →
  category du ≠ category dv →
  DiGraph.has_node G u = true → DiGraph.has_node G v = true →
  (0 < size (DiGraph.successors G u ∩ DiGraph.successors G v))%nat →
  let res := Atlas.analyze_knowledge_gaps G node_info in
  (atlas_listed res u v ↔ DiGraph.has_edge G u v = false)
  ∧ (atlas_listed res v u ↔ DiGraph.has_edge G v u = false).
Proof.
  intros Hu Hv Hne Hnu Hnv Hpos res. split.
  - by apply (atlas_listed_iff G node_info u v du dv).
  - apply (atlas_listed_iff G node_info v u dv du); try done.
    by rewrite topo_score_comm.
Qed.

Lemma atlas_lists_each_unlinked_orientation_witness :
  let res := Atlas.analyze_knowledge_gaps graph_shared registry_B in
  (atlas_listed res "alpha" "m2"
   ↔ DiGraph.has_edge graph_shared "alpha" "m2" = false)
  ∧ (atlas_listed res "m2" "alpha"
     ↔ DiGraph.has_edge graph_shared "m2" "alpha" = false).
Proof.
  eapply (atlas_lists_each_unlinked_orientation graph_shared registry_B
            "alpha" "m2").
  - vm_compute. reflexivity.
  - vm_compute. reflexivity.
  - vm_compute. discriminate.
  - vm_compute. reflexivity.
  - vm_compute. reflexivity.
  - vm_compute. lia.
Defined.

(** X14. Every gap candidate of the probabilistic scorer whose two concepts
    share a successor is also a row of the atlas of opportunity, in both
    orientations and with the number of shared successors as its score. *)
Theorem gap_candidates_with_shared_successor_in_atlas (G : DiGraph)
    (M : DataFrame) (node_info : gmap string NodeMeta) (r : GapRecord) :
  r ∈ gap_list (analyze_probabilistic_knowledge_gaps G M node_info) →
  (0 < Topological_Score r)%nat →
  let rows := atlas_rows (Atlas.analyze_knowledge_gaps G node_info) in
  {| Atlas.Source := Source_Node r; Atlas.Target := Target_Node r;
     Atlas.Score := Topological_Score r;
     Atlas.Source_Category := Source_Category r;
     Atlas.Target_Category := Target_Category r |} ∈ rows
  ∧ {| Atlas.Source := Target_Node r; Atlas.Target := Source_Node r;
       Atlas.Score := Topological_Score r;
       Atlas.Source_Category := Target_Category r;
       Atlas.Target_Category := Source_Category r |} ∈ rows.
Proof.
  intros Hr Hpos rows.
  destruct (gap_list_inv G M node_info r Hr)
    as (u & v & du & dv & Hu & Hv & Hprec & Hel & _ & ->).
  simpl in *. apply precedes_ne in Hprec. unfold eligible in Hel.
  repeat (apply andb_true_iff in Hel as [Hel ?]).
  repeat match goal with
         | H : negb _ = true |- _ => apply negb_true_iff in H
         end.
  split; apply atlas_rows_potential_links, elem_of_potential_links; simpl.
  - by exists du, dv.
  - exists dv, du. rewrite (topo_score_comm G v u). by repeat split.
Qed.

Lemma gap_candidates_with_shared_successor_in_atlas_witness :
  let r := gap_record graph_shared matrix_B Theory Application "alpha" "m2" in
  let rows :=
    atlas_rows (Atlas.analyze_knowledge_gaps graph_shared registry_B) in
  {| Atlas.Source := "alpha"; Atlas.Target := "m2";
     Atlas.Score := Topological_Score r;
     Atlas.Source_Category := Theory;
     Atlas.Target_Category := Application |} ∈ rows
  ∧ {| Atlas.Source := "m2"; Atlas.Target := "alpha";
       Atlas.Score := Topological_Score r;
       Atlas.Source_Category := Application;
       Atlas.Target_Category := Theory |} ∈ rows.
Proof.
  apply (gap_candidates_with_shared_successor_in_atlas graph_shared matrix_B
           registry_B
           (gap_record graph_shared matrix_B Theory Application
              "alpha" "m2")).
  - vm_compute. apply list_elem_of_here.
  - vm_compute. lia.
Defined.

(* ===================================================================== *)
(** * The pruned co-occurrence graph and the trajectory table *)
(* ===================================================================== *)

Lemma weight_adj (g : WGraph) (a b : string) :
  WGraph.weight g a b = WGraph.adj g a !! b.
Proof.
  unfold WGraph.weight, WGraph.adj.
  destruct (g !! a); simpl; [done | by rewrite lookup_empty].
Qed.

Lemma weight_add_edge_eq (u v : string) (w : Q) (g : WGraph)
    (a b : string) :
  WGraph.weight (WGraph.add_edge u v w g) a b
  = if decide ((a = u ∧ b = v) ∨ (a = v ∧ b = u)) then Some w
    else WGraph.weight g a b.
Proof.
  rewrite (weight_adj g a b).
  unfold WGraph.weight, WGraph.add_edge.
  destruct (decide (a = v)) as [->|Hav].
  - rewrite lookup_insert_eq. simpl.
    destruct (decide (b = u)) as [->|Hbu].
    + rewrite lookup_insert_eq. by rewrite decide_True by tauto.
    + rewrite lookup_insert_ne by done.
      destruct (decide (v = u)) as [->|Hvu].
      * unfold WGraph.adj at 1. rewrite lookup_insert_eq. simpl.
        rewrite lookup_insert_ne by done.
        by rewrite decide_False by tauto.
      * unfold WGraph.adj at 1. rewrite lookup_insert_ne by done.
        by rewrite decide_False by tauto.
  - rewrite lookup_insert_ne by done.
    destruct (decide (a = u)) as [->|Hau].
    + rewrite lookup_insert_eq. simpl.
      destruct (decide (b = v)) as [->|Hbv].
      * rewrite lookup_insert_eq. by rewrite decide_True by tauto.
      * rewrite lookup_insert_ne by done.
        by rewrite decide_False by tauto.
    + rewrite lookup_insert_ne by done.
      rewrite decide_False by tauto.
      unfold WGraph.adj. destruct (g !! a); simpl; [done|].
      by rewrite lookup_empty.
Qed.

Lemma has_node_add_edge (u v : string) (w : Q) (g : WGraph) (a : string) :
  WGraph.has_node (WGraph.add_edge u v w g) a = true
  ↔ WGraph.has_node g a = true ∨ a = u ∨ a = v.
Proof.
  unfold WGraph.has_node, WGraph.add_edge.
  rewrite !bool_decide_eq_true.
  destruct (decide (a = v)) as [->|Hav].
  { rewrite lookup_insert_eq. split; [tauto | by eexists]. }
  rewrite lookup_insert_ne by done.
  destruct (decide (a = u)) as [->|Hau].
  { rewrite lookup_insert_eq. split; [tauto | by eexists]. }
  rewrite lookup_insert_ne by done. tauto.
Qed.

Lemma undirected_loop_free_empty : undirected_loop_free ∅.
Proof.
  split; [|split].
  - intros a b. unfold WGraph.weight. by rewrite !lookup_empty.
  - intros a. unfold WGraph.weight. by rewrite lookup_empty.
  - intros a. unfold WGraph.has_node, WGraph.weight.
    rewrite bool_decide_eq_true, lookup_empty. split.
    + by intros [? ?].
    + by intros (b & ? & ?).
Qed.

Lemma undirected_loop_free_add_edge (u v : string) (w : Q) (g : WGraph) :
  u ≠ v → undirected_loop_free g →
  undirected_loop_free (WGraph.add_edge u v w g).
Proof.
  intros Huv (Hsym & Hirr & Hnode). split; [|split].
  - intros a b. rewrite !weight_add_edge_eq.
    destruct (decide ((a = u ∧ b = v) ∨ (a = v ∧ b = u))) as [Hab|Hab].
    + by rewrite decide_True by tauto.
    + by rewrite decide_False by tauto.
  - intros a. rewrite weight_add_edge_eq.
    rewrite decide_False; [done|]. intros [[-> ->]|[-> ->]]; done.
  - intros a. rewrite has_node_add_edge. split.
    + intros [Ha|[->| ->]].
      * apply Hnode in Ha as [b Hb]. exists b.
        rewrite weight_add_edge_eq. by case_decide.
      * exists v. rewrite weight_add_edge_eq.
        rewrite decide_True by tauto. by eexists.
      * exists u. rewrite weight_add_edge_eq.
        rewrite decide_True by tauto. by eexists.
    + intros [b Hb]. rewrite weight_add_edge_eq in Hb.
      case_decide as Hab; [tauto|]. left. apply Hnode. by exists b.
Qed.

Lemma pruned_graph_from (M : DataFrame) (min_cooc : Q)
    (pairs : list (string * string)) (g g' : WGraph) :
  undirected_loop_free g →
  foldlM (add_cooc_edge M min_cooc) g pairs = Ok g' →
  undirected_loop_free g'
  ∧ ∀ a b, is_Some (WGraph.weight g' a b)
           ↔ is_Some (WGraph.weight g a b)
             ∨ ((a, b) ∈ pairs ∧ above_threshold M min_cooc (a, b) = true)
             ∨ ((b, a) ∈ pairs ∧ above_threshold M min_cooc (b, a) = true).
Proof.
  revert g. induction pairs as [|[u v] pairs IH]; intros g Hg; cbn [foldlM].
  { intros [= <-]. split; [done|]. intros a b. split; [tauto|].
    intros [?|[[?%elem_of_nil _]|[?%elem_of_nil _]]]; done. }
  destruct (add_cooc_edge_cases M min_cooc g (u, v)) as [->|[-> _]];
    [|done].
  cbn [mbind result_bind fst snd].
  destruct (above_threshold M min_cooc (u, v)) eqn:Hpass.
  - assert (Huv : u ≠ v).
    { unfold above_threshold in Hpass. simpl in Hpass.
      rewrite !andb_true_iff, !bool_decide_eq_true in Hpass. tauto. }
    intros Hfold.
    destruct (IH (WGraph.add_edge u v (df_cell M u v) g))
      as (Hinv & Hedges); [by apply undirected_loop_free_add_edge | done |].
    split; [done|].
    intros a b. rewrite Hedges, weight_add_edge_eq.
    rewrite !elem_of_cons. split.
    + intros [Hw|[[Hin Hp]|[Hin Hp]]]; [|tauto|tauto].
      case_decide as Hab; [|tauto].
      destruct Hab as [[-> ->]|[-> ->]]; tauto.
    + intros [Hw|[[[Heq|Hin] Hp]|[[Heq|Hin] Hp]]]; try tauto.
      * left. case_decide; [by eexists | done].
      * injection Heq as -> ->. left.
        rewrite decide_True by tauto. by eexists.
      * injection Heq as -> ->. left.
        rewrite decide_True by tauto. by eexists.
  - intros Hfold. destruct (IH g Hg Hfold) as (Hinv & Hedges).
    split; [done|].
    intros a b. rewrite Hedges, !elem_of_cons. split; [tauto|].
    intros [Hw|[[[Heq|Hin] Hp]|[[Heq|Hin] Hp]]]; try tauto.
    + injection Heq as -> ->. congruence.
    + injection Heq as -> ->. congruence.
Qed.

(** A pruned graph that was built keeps the loop invariants and joins
    exactly the pairs the loop adds. *)
Lemma pruned_graph_pairs (M : DataFrame) (min_cooc : Q) (g : WGraph) :
  pruned_cooccurrence_graph M min_cooc = Ok g →
  undirected_loop_free g
  ∧ ∀ a b, is_Some (WGraph.weight g a b)
           ↔ cooc_pair M min_cooc a b ∨ cooc_pair M min_cooc b a.
Proof.
  intros Hg.
  destruct (pruned_graph_from M min_cooc (combinations2 (df_columns M)) ∅ g
              undirected_loop_free_empty Hg)
    as (Hinv & Hedges).
  split; [done|].
  intros a b. rewrite Hedges. unfold cooc_pair, WGraph.weight.
  rewrite lookup_empty. simpl. split; [|tauto].
  intros [[? ?]|?]; [done | tauto].
Qed.

Lemma pruned_graph_has_node (M : DataFrame) (min_cooc : Q) (g : WGraph)
    (a : string) :
  pruned_cooccurrence_graph M min_cooc = Ok g →
  WGraph.has_node g a = true ↔ paired M min_cooc a.
Proof.
  intros Hg.
  destruct (pruned_graph_pairs M min_cooc g Hg) as ((_ & _ & Hnode) & Hiff).
  rewrite Hnode. unfold paired. by setoid_rewrite Hiff.
Qed.

(** X15. Building the pruned co-occurrence graph raises nothing but
    [ValueError], and that only when a label of the matrix repeats: over a
    matrix without a repeated label the graph is built.  Two concepts are
    joined in the graph that was built exactly when they are a pair of
    column labels of the matrix, taken in column order, whose first label
    is a row label, whose labels differ and whose matrix value exceeds the
    minimum edge weight.  The graph is undirected, has no self-loop, and
    contains a concept exactly when the concept has such a partner: no node
    is isolated. *)
Theorem pruned_graph_edges (M : DataFrame) (min_cooc : Q) :
  match pruned_cooccurrence_graph M min_cooc with
  | Ok g =>
      (∀ a b, is_Some (WGraph.weight g a b)
              ↔ cooc_pair M min_cooc a b ∨ cooc_pair M min_cooc b a)
      ∧ (∀ a b, WGraph.weight g a b = WGraph.weight g b a)
      ∧ (∀ a, WGraph.weight g a a = None)
      ∧ (∀ a, WGraph.has_node g a = true ↔ paired M min_cooc a)
  | Raise e => e = ValueError ∧ ¬ unique_labels M
  end
  ∧ (unique_labels M → ∃ g, pruned_cooccurrence_graph M min_cooc = Ok g).
Proof.
  split; [|apply pruned_graph_total].
  destruct (pruned_cooccurrence_graph M min_cooc) as [g|e] eqn:Hg.
  - destruct (pruned_graph_pairs M min_cooc g Hg)
      as ((Hsym & Hirr & _) & Hiff).
    split; [done|]. split; [done|]. split; [done|].
    intros a. by apply pruned_graph_has_node.
  - by apply (pruned_graph_raise M min_cooc).
Qed.

Lemma simple_paths_from_shape (g : WGraph) (target : string) (cutoff : nat)
    (visited : list string) (cur : string) (path : list string) :
  NoDup (visited ++ [cur]) →
  path ∈ WGraph.simple_paths_from g target cutoff (visited ++ [cur]) cur →
  NoDup path ∧ last path = Some target
  ∧ (∃ rest, path = (visited ++ [cur]) ++ rest)
  ∧ (length path ≤ length (visited ++ [cur]) + cutoff)%nat.
Proof.
  revert visited cur.
  induction cutoff as [|k IH]; intros visited cur Hnd Hin; simpl in Hin.
  { by apply elem_of_nil in Hin. }
  apply list_elem_of_bind in Hin as (child & Hin & _).
  destruct (decide (child ∈ visited ++ [cur])) as [|Hfresh];
    [by apply elem_of_nil in Hin|].
  destruct (decide (child = target)) as [->|Hne].
  - apply list_elem_of_singleton in Hin as ->.
    split; [|split; [|split]].
    + apply NoDup_app. split; [done|]. split; [|apply NoDup_singleton].
      intros x Hx ->%list_elem_of_singleton. done.
    + by rewrite last_snoc.
    + by exists [target].
    + rewrite length_app. simpl. lia.
  - apply IH in Hin as (Hnd' & Hlast & [rest ->] & Hlen).
    + split; [done|]. split; [done|]. split.
      * exists (child :: rest). by rewrite <- (assoc_L _ _ [child] rest).
      * rewrite !length_app in *. simpl in *. lia.
    + apply NoDup_app. split; [done|]. split; [|apply NoDup_singleton].
      intros x Hx ->%list_elem_of_singleton. done.
Qed.

(** An enumerated path of at least two nodes leads from the source to the
    target, repeats no node and has at most [cutoff] edges. *)
Lemma all_simple_paths_shape (g : WGraph) (source target : string)
    (cutoff : nat) (paths : list (list string)) (path : list string) :
  WGraph.all_simple_paths g source target cutoff = Ok paths →
  path ∈ paths → (2 ≤ length path)%nat →
  head path = Some source ∧ last path = Some target
  ∧ NoDup path ∧ (length path ≤ S cutoff)%nat.
Proof.
  unfold WGraph.all_simple_paths.
  destruct (negb _); [done|].
  destruct (decide (source = target)) as [->|Hne]; intros [= <-] Hin Hlen.
  { apply list_elem_of_singleton in Hin as ->. simpl in Hlen. lia. }
  apply (simple_paths_from_shape g target cutoff [] source) in Hin
    as (Hnd & Hlast & [rest ->] & Hle); [|apply NoDup_singleton].
  done.
Qed.

Lemma score_path_Some (g : WGraph) (G : DiGraph)
    (node_info : gmap string NodeMeta) (path : list string)
    (rec : PathRecord) :
  score_path g G node_info path = Some rec →
  path_nodes rec = path ∧ path_length rec = length path.
Proof.
  unfold score_path. destruct (negb _); [done|]. by intros [= <-].
Qed.

(** X16. Every row of the saved trajectory table is a path from the start
    concept to the end concept whose recorded length is its number of
    nodes, at least 2.  A row other than the fallback row repeats no
    concept, has at most [max_path_len_for_search] edges, and each of its
    steps is an edge of the pruned co-occurrence graph. *)
Theorem trajectory_rows_are_simple_paths (G : DiGraph) (M : DataFrame)
    (node_info : gmap string NodeMeta) (start_node_id end_node_id : string)
    (max_path_len : nat) (min_cooc : Q) (top_n : nat)
    (table : list PathRecord) (best : list string) :
  synthesize_and_plot_trajectory G M node_info start_node_id end_node_id
    max_path_len min_cooc top_n = Ok (Trajectories table best) →
  ∃ g, pruned_cooccurrence_graph M min_cooc = Ok g
    ∧ ∀ rec, rec ∈ table →
        head (path_nodes rec) = Some start_node_id
        ∧ last (path_nodes rec) = Some end_node_id
        ∧ path_length rec = length (path_nodes rec)
        ∧ (2 ≤ path_length rec)%nat
        ∧ (rec = fallback_record start_node_id end_node_id
           ∨ (NoDup (path_nodes rec)
              ∧ (path_length rec ≤ S max_path_len)%nat
              ∧ linked g (path_nodes rec))).
Proof.
  intros Hout.
  assert (Hbuilt : ∃ g, pruned_cooccurrence_graph M min_cooc = Ok g).
  { revert Hout. unfold synthesize_and_plot_trajectory.
    destruct (_ || _ || _ || _); [done|].
    destruct (pruned_cooccurrence_graph M min_cooc) as [g|]; [|done].
    by exists g. }
  destruct Hbuilt as [g Hg].
  exists g. split; [done|]. intros rec Hin.
  destruct (trajectory_table_rows G M node_info start_node_id end_node_id
              max_path_len min_cooc top_n table best rec Hout Hin)
    as [-> | (g' & paths & path & Hg' & Hpaths & Hpath & Hlen & Hrec)].
  { simpl. repeat (split; [done|]). by left. }
  rewrite Hg in Hg'. injection Hg' as <-.
  apply score_path_Some in Hrec as [Hnodes Hlength].
  rewrite Hnodes, Hlength.
  destruct (all_simple_paths_shape g start_node_id end_node_id max_path_len
              paths path Hpaths Hpath Hlen) as (Hhead & Hlast & Hnd & Hle).
  repeat (split; [done|]). right. split; [done|]. split; [done|].
  by eapply all_simple_paths_linked.
Qed.

Lemma trajectory_rows_are_simple_paths_witness :
  ∃ g, pruned_cooccurrence_graph matrix_B 0.3%Q = Ok g
    ∧ ∀ rec, rec ∈ table_B →
        head (path_nodes rec) = Some "m1"
        ∧ last (path_nodes rec) = Some "m2"
        ∧ path_length rec = length (path_nodes rec)
        ∧ (2 ≤ path_length rec)%nat
        ∧ (rec = fallback_record "m1" "m2"
           ∨ (NoDup (path_nodes rec)
              ∧ (path_length rec ≤ S 4)%nat
              ∧ linked g (path_nodes rec))).
Proof.
  apply (trajectory_rows_are_simple_paths graph_B matrix_B registry_B
           "m1" "m2" 4 0.3%Q 20 table_B ["m1"; "m2"]).
  vm_compute. reflexivity.
Defined.

Global Instance better_total : Total better.
Proof.
  intros a b. unfold better.
  destruct (Qlt_le_dec (score a) (score b)) as [Hlt|Hle]; [|by left].
  right. by apply Qlt_le_weak.
Qed.

Global Instance better_trans : Transitive better.
Proof. intros a b c Hab Hbc. unfold better in *. by eapply Qle_trans. Qed.

Lemma length_omap_le {A B} (f : A → option B) (l : list A) :
  (length (omap f l) ≤ length l)%nat.
Proof.
  induction l as [|x l IH]; csimpl; [done|].
  destruct (f x); csimpl; lia.
Qed.

(** X17. With a positive [top_n_paths_to_save], the saved trajectory table
    is not empty, has at most that many rows and is in descending order of
    score; the path chosen for display is the path of its first row, so no
    row scores higher than the displayed path.  When the search enumerates
    no more paths than the table may hold, every enumerated path of at
    least two nodes has a row. *)
Theorem trajectory_table_ranked (G : DiGraph) (M : DataFrame)
    (node_info : gmap string NodeMeta) (start_node_id end_node_id : string)
    (max_path_len : nat) (min_cooc : Q) (top_n : nat)
    (table : list PathRecord) (best : list string) :
  (0 < top_n)%nat →
  synthesize_and_plot_trajectory G M node_info start_node_id end_node_id
    max_path_len min_cooc top_n = Ok (Trajectories table best) →
  (∃ first rest, table = first :: rest ∧ path_nodes first = best
                 ∧ ∀ r, r ∈ table → (score r <= score first)%Q)
  ∧ StronglySorted better table
  ∧ (length table ≤ top_n)%nat
  ∧ ∀ g paths path,
      pruned_cooccurrence_graph M min_cooc = Ok g →
      WGraph.all_simple_paths g start_node_id end_node_id max_path_len
        = Ok paths →
      (length paths ≤ top_n)%nat →
      path ∈ paths → (2 ≤ length path)%nat →
      ∃ r, r ∈ table ∧ path_nodes r = path.
Proof.
  intros Hk. unfold synthesize_and_plot_trajectory.
  destruct (_ || _ || _ || _); [done|].
  destruct (pruned_cooccurrence_graph M min_cooc) as [g|] eqn:Hg; [|done].
  cbn [mbind result_bind].
  destruct (_ || _); [done|].
  destruct (WGraph.all_simple_paths g start_node_id end_node_id max_path_len)
    as [paths|] eqn:Hpaths; [|done].
  cbn [mbind result_bind]. cbv zeta.
  set (found := filter (λ path, 2 ≤ length path)%nat paths).
  set (scored := omap (score_path g G node_info) found).
  assert (Hscored : ∀ path, path ∈ paths → (2 ≤ length path)%nat →
            ∃ r, r ∈ scored ∧ path_nodes r = path).
  { intros path Hin Hlen.
    assert (Hl : linked g path) by by eapply all_simple_paths_linked.
    eexists. split.
    - apply list_elem_of_omap. exists path. split.
      + by apply list_elem_of_filter.
      + by apply score_path_linked.
    - done. }
  assert (Hfallback : scored = [] →
    (∃ first rest,
        [fallback_record start_node_id end_node_id] = first :: rest
        ∧ path_nodes first = [start_node_id; end_node_id]
        ∧ ∀ r, r ∈ [fallback_record start_node_id end_node_id] →
               (score r <= score first)%Q)
    ∧ StronglySorted better [fallback_record start_node_id end_node_id]
    ∧ (length [fallback_record start_node_id end_node_id] ≤ top_n)%nat
    ∧ ∀ g' paths' path,
        Ok g = Ok g' →
        WGraph.all_simple_paths g' start_node_id end_node_id max_path_len
          = Ok paths' →
        (length paths' ≤ top_n)%nat →
        path ∈ paths' → (2 ≤ length path)%nat →
        ∃ r, r ∈ [fallback_record start_node_id end_node_id]
             ∧ path_nodes r = path).
  { intros Hnil. split; [|split; [|split]].
    - eexists _, _. split; [done|]. split; [done|].
      intros r ->%list_elem_of_singleton. apply Qle_refl.
    - repeat constructor.
    - simpl. lia.
    - intros g' paths' path [= <-] Hpaths' _ Hin Hlen.
      rewrite Hpaths in Hpaths'. injection Hpaths' as <-.
      destruct (Hscored path Hin Hlen) as (r & Hr & _).
      rewrite Hnil in Hr. by apply elem_of_nil in Hr. }
  case_bool_decide as Hfound.
  { intros [= <- <-]. apply Hfallback. unfold scored. by rewrite Hfound. }
  case_bool_decide as Hnil.
  { intros [= <- <-]. by apply Hfallback. }
  clear Hfallback. fold scored.
  assert (Hsorted : StronglySorted better (merge_sort better scored)).
  { apply StronglySorted_merge_sort; apply _. }
  assert (Hperm : merge_sort better scored ≡ₚ scored)
    by apply merge_sort_Permutation.
  destruct (merge_sort better scored) as [|r0 sorted] eqn:Hsort; [done|].
  intros [= <- <-]. destruct top_n as [|k]; [lia|]. cbn [take].
  assert (Htable : StronglySorted better (r0 :: take k sorted)).
  { rewrite <- (take_drop k sorted) in Hsorted.
    change (r0 :: take k sorted ++ drop k sorted)
      with ((r0 :: take k sorted) ++ drop k sorted) in Hsorted.
    by apply StronglySorted_app_1_l in Hsorted. }
  split; [|split; [done|split]].
  - exists r0, (take k sorted). split; [done|]. split; [done|].
    intros r [->|Hr]%elem_of_cons; [apply Qle_refl|].
    apply StronglySorted_cons in Htable as [Hall _].
    rewrite Forall_forall in Hall. by apply Hall.
  - simpl. rewrite length_take. lia.
  - intros g' paths' path [= <-] Hpaths' Hle Hin Hlen.
    rewrite Hpaths in Hpaths'. injection Hpaths' as <-.
    destruct (Hscored path Hin Hlen) as (r & Hr & Hnodes).
    exists r. split; [|done].
    rewrite take_ge.
    + by rewrite Hperm.
    + apply Nat.succ_le_mono.
      change (S (length sorted)) with (length (r0 :: sorted)).
      rewrite Hperm. unfold scored, found.
      etrans; [apply length_omap_le|].
      etrans; [apply length_filter|]. done.
Qed.

Lemma trajectory_table_ranked_witness :
  (∃ first rest, table_B = first :: rest ∧ path_nodes first = ["m1"; "m2"]
                 ∧ ∀ r, r ∈ table_B → (score r <= score first)%Q)
  ∧ StronglySorted better table_B
  ∧ (length table_B ≤ 20)%nat
  ∧ ∀ g paths path,
      pruned_cooccurrence_graph matrix_B 0.3%Q = Ok g →
      WGraph.all_simple_paths g "m1" "m2" 4 = Ok paths →
      (length paths ≤ 20)%nat →
      path ∈ paths → (2 ≤ length path)%nat →
      ∃ r, r ∈ table_B ∧ path_nodes r = path.
Proof.
  apply (trajectory_table_ranked graph_B matrix_B registry_B
           "m1" "m2" 4 0.3%Q 20 table_B ["m1"; "m2"]).
  - lia.
  - vm_compute. reflexivity.
Defined.

Lemma length_path_edges (path : list string) :
  length (path_edges path) = (length path - 1)%nat.
Proof.
  induction path as [|u [|v rest] IH]; [done..|].
  cbn [path_edges length] in *. lia.
Qed.

Lemma size_list_to_set_le `{Countable A} (l : list A) :
  (size (list_to_set (C:=gset A) l) ≤ length l)%nat.
Proof.
  induction l as [|x l IH].
  - by rewrite list_to_set_nil, size_empty.
  - rewrite list_to_set_cons, size_union_alt, size_singleton.
    cbn [length].
    assert (size (list_to_set (C:=gset A) l ∖ {[x]})
            ≤ size (list_to_set (C:=gset A) l))%nat
      by (apply subseteq_size; set_solver).
    lia.
Qed.

Lemma size_categories (X : gset Category) : (size X ≤ 6)%nat.
Proof.
  change 6%nat with (size (list_to_set (C:=gset Category) CATEGORY_ORDER)).
  apply subseteq_size. intros c _. apply elem_of_list_to_set.
  apply elem_of_CATEGORY_ORDER.
Qed.

(** X18. In every row of the saved trajectory table the number of explicit
    links and the hierarchical flow score are each at most the number of
    steps of the path, and the category span score is 0 or a number from 3
    to 6 that does not exceed the number of concepts on the path. *)
Theorem trajectory_subscores_bounded (G : DiGraph) (M : DataFrame)
    (node_info : gmap string NodeMeta) (start_node_id end_node_id : string)
    (max_path_len : nat) (min_cooc : Q) (top_n : nat)
    (table : list PathRecord) (best : list string) :
  synthesize_and_plot_trajectory G M node_info start_node_id end_node_id
    max_path_len min_cooc top_n = Ok (Trajectories table best) →
  Forall (λ rec,
    (num_explicit_links rec ≤ path_length rec - 1)%nat
    ∧ (hierarchical_flow_score rec ≤ path_length rec - 1)%nat
    ∧ (category_span_score rec = 0%nat
       ∨ (3 ≤ category_span_score rec ≤ 6)%nat
         ∧ (category_span_score rec ≤ path_length rec)%nat)) table.
Proof.
  intros Hout. apply Forall_forall. intros rec Hin.
  destruct (trajectory_table_rows G M node_info start_node_id end_node_id
              max_path_len min_cooc top_n table best rec Hout Hin)
    as [-> | (g & paths & path & Hg & Hpaths & Hpath & Hlen & Hrec)].
  { simpl. split; [lia|]. split; [lia|]. by left. }
  assert (Hl : linked g path) by by eapply all_simple_paths_linked.
  rewrite (score_path_linked g G node_info path Hl Hlen) in Hrec.
  injection Hrec as <-.
  cbn [num_explicit_links hierarchical_flow_score category_span_score
       path_length].
  split; [|split].
  - unfold explicit_link_count. rewrite <- length_path_edges.
    apply length_filter.
  - unfold hierarchy_score. rewrite <- length_path_edges.
    apply length_filter.
  - unfold category_span. cbv zeta. case_decide as Hspan; [|by left].
    right. split.
    + split; [done|]. apply size_categories.
    + unfold path_categories.
      etrans; [apply size_list_to_set_le|]. apply length_omap_le.
Qed.

Lemma trajectory_subscores_bounded_witness :
  Forall (λ rec,
    (num_explicit_links rec ≤ path_length rec - 1)%nat
    ∧ (hierarchical_flow_score rec ≤ path_length rec - 1)%nat
    ∧ (category_span_score rec = 0%nat
       ∨ (3 ≤ category_span_score rec ≤ 6)%nat
         ∧ (category_span_score rec ≤ path_length rec)%nat)) table_B.
Proof.
  apply (trajectory_subscores_bounded graph_B matrix_B registry_B
           "m1" "m2" 4 0.3%Q 20 table_B ["m1"; "m2"]).
  vm_compute. reflexivity.
Defined.

(** Over a matrix without a repeated label the synthesizer ends in one of
    three ways, each with its cause. *)
Lemma synthesize_outcome_cases (G : DiGraph) (M : DataFrame)
    (node_info : gmap string NodeMeta) (s e : string) (n : nat) (w : Q)
    (k : nat) :
  unique_labels M →
  let out := synthesize_and_plot_trajectory G M node_info s e n w k in
  let both_known := known G node_info s ∧ known G node_info e in
  let both_paired := paired M w s ∧ paired M w e in
  (¬ both_known ∧ out = Ok MissingNode)
  ∨ (both_known ∧ ¬ both_paired ∧ out = Ok EmptyTable)
  ∨ (both_known ∧ both_paired
     ∧ ∃ table best, out = Ok (Trajectories table best)).
Proof.
  intros Huniq out both_known both_paired.
  destruct (pruned_graph_total M w Huniq) as [g Hg].
  pose proof (pruned_graph_has_node M w g s Hg) as Hps.
  pose proof (pruned_graph_has_node M w g e Hg) as Hpe.
  destruct (synthesize_total G M node_info s e n w k Huniq) as [o Ho].
  fold out in Ho.
  destruct (decide (both_known)) as [Hknown|Hunknown].
  - right. destruct Hknown as [[Hs Hds] [He Hde]].
    pose proof (synthesize_past_first_guard G M node_info s e n w k g
                  Hs He Hds Hde Hg) as Hsyn.
    fold out in Hsyn.
    assert (Hk : both_known) by done.
    destruct (WGraph.has_node g s) eqn:Hgs;
      destruct (WGraph.has_node g e) eqn:Hge;
      simpl in Hsyn.
    + right. split; [done|].
      split; [split; [by apply Hps | by apply Hpe]|].
      destruct o as [| |table best]; [| |by eexists _, _].
      * exfalso. revert Hsyn. rewrite Ho.
        destruct (WGraph.all_simple_paths _ _ _ _); [|done]. simpl.
        repeat case_bool_decide; try done.
        by destruct (merge_sort _ _).
      * exfalso. revert Hsyn. rewrite Ho.
        destruct (WGraph.all_simple_paths _ _ _ _); [|done]. simpl.
        repeat case_bool_decide; try done.
        by destruct (merge_sort _ _).
    + left. split; [done|]. split; [|done].
      intros [_ Hp]. apply Hpe in Hp. congruence.
    + left. split; [done|]. split; [|done].
      intros [Hp _]. apply Hps in Hp. congruence.
    + left. split; [done|]. split; [|done].
      intros [Hp _]. apply Hps in Hp. congruence.
  - left. split; [done|].
    unfold out, synthesize_and_plot_trajectory.
    destruct (DiGraph.has_node G s) eqn:Hs; [|done].
    destruct (DiGraph.has_node G e) eqn:He; [|done].
    simpl.
    case_bool_decide as Hds; [done|].
    case_bool_decide as Hde; [done|].
    exfalso. apply Hunknown. unfold both_known, known.
    rewrite <- !not_eq_None_Some. done.
Qed.



(* ===================================================================== *)
(** * The stages between the builders and the scorers *)
(* ===================================================================== *)

(** The scorers read only the nodes and the edges of the link graph. *)
Lemma scorers_read_links_only (G G' : DiGraph) :
  dg_nodes G' = dg_nodes G → dg_edges G' = dg_edges G →
  (∀ M node_info,
     analyze_probabilistic_knowledge_gaps G' M node_info
     = analyze_probabilistic_knowledge_gaps G M node_info)
  ∧ (∀ node_info,
       Atlas.analyze_knowledge_gaps G' node_info
       = Atlas.analyze_knowledge_gaps G node_info)
  ∧ (∀ M node_info s e n w k,
       synthesize_and_plot_trajectory G' M node_info s e n w k
       = synthesize_and_plot_trajectory G M node_info s e n w k).
Proof.
  destruct G as [nodes edges pr cm], G' as [nodes' edges' pr' cm'].
  simpl. intros -> ->. done.
Qed.

(** X20. The centrality and community stage changes no node and no edge of
    the link graph: it only sets the PageRank and community annotations.
    It is skipped exactly on the empty graph, and it raises exactly when
    the graph is not empty and the PageRank routine raises, with that
    routine's error.  The gap scorer, the atlas and the trajectory
    synthesizer therefore give the same result on the graph it returns as
    on the graph it was given. *)
Theorem centrality_stage_keeps_links
    (nx_pagerank : DiGraph → result (gmap string Q))
    (best_partition : UGraph → Z → gmap string Z) (G : DiGraph) :
  match analyze_centrality_and_communities nx_pagerank best_partition G with
  | Ok (signal, G') =>
      dg_nodes G' = dg_nodes G ∧ dg_edges G' = dg_edges G
      ∧ (signal = Skipped ↔ DiGraph.number_of_nodes G = 0%nat)
      ∧ (signal = Skipped → G' = G)
      ∧ (signal = Completed → nx_pagerank G = Ok (dg_pagerank G'))
      ∧ (∀ M node_info,
           analyze_probabilistic_knowledge_gaps G' M node_info
           = analyze_probabilistic_knowledge_gaps G M node_info)
      ∧ (∀ node_info,
           Atlas.analyze_knowledge_gaps G' node_info
           = Atlas.analyze_knowledge_gaps G node_info)
      ∧ (∀ M node_info s e n w k,
           synthesize_and_plot_trajectory G' M node_info s e n w k
           = synthesize_and_plot_trajectory G M node_info s e n w k)
  | Raise err =>
      DiGraph.number_of_nodes G ≠ 0%nat ∧ nx_pagerank G = Raise err
  end.
Proof.
  unfold analyze_centrality_and_communities.
  case_bool_decide as Hempty.
  { repeat (split; [done|]). by apply scorers_read_links_only. }
  destruct (nx_pagerank G) as [pagerank_cent|err]; [|done].
  cbn [mbind result_bind]. cbv zeta.
  case_bool_decide; cbn [dg_nodes dg_edges dg_pagerank].
  - split; [done|]. split; [done|]. split; [done|]. split; [done|].
    split; [done|]. by apply scorers_read_links_only.
  - split; [done|]. split; [done|]. split; [done|]. split; [done|].
    split; [done|]. by apply scorers_read_links_only.
Qed.

Global Instance by_pagerank_total : Total MasterList.by_pagerank.
Proof.
  intros a b. unfold MasterList.by_pagerank.
  destruct (Qlt_le_dec (MasterList.pagerank a) (MasterList.pagerank b))
    as [Hlt|Hle]; [|by left].
  right. by apply Qlt_le_weak.
Qed.

Global Instance by_pagerank_trans : Transitive MasterList.by_pagerank.
Proof.
  intros a b c Hab Hbc. unfold MasterList.by_pagerank in *.
  by eapply Qle_trans.
Qed.

Lemma master_rows_Permutation (G : DiGraph) :
  master_rows (MasterList.create_and_save_node_list G)
  ≡ₚ MasterList.node_data_list G.
Proof.
  unfold MasterList.create_and_save_node_list, master_rows.
  case_bool_decide as Hempty; simpl.
  - unfold MasterList.node_data_list, DiGraph.number_of_nodes in *.
    apply map_size_empty_iff in Hempty. rewrite Hempty.
    by rewrite map_to_list_empty.
  - apply merge_sort_Permutation.
Qed.

Lemma node_ids_node_data_list (G : DiGraph) :
  map MasterList.node_id (MasterList.node_data_list G)
  = map fst (map_to_list (dg_nodes G)).
Proof.
  unfold MasterList.node_data_list. rewrite map_map. done.
Qed.

Lemma elem_of_master_rows (G : DiGraph) (r : MasterList.Row) :
  r ∈ master_rows (MasterList.create_and_save_node_list G)
  ↔ ∃ data, dg_nodes G !! MasterList.node_id r = Some data
            ∧ r = MasterList.node_row G (MasterList.node_id r, data).
Proof.
  rewrite master_rows_Permutation. unfold MasterList.node_data_list.
  rewrite list_elem_of_fmap. split.
  - intros ([n data] & -> & Hin). apply elem_of_map_to_list in Hin.
    by exists data.
  - intros (data & Hdata & Hr). exists (MasterList.node_id r, data).
    split; [done|]. by apply elem_of_map_to_list.
Qed.

(** X21. The master node list is saved exactly when the graph is not
    empty.  It then has one row for every node of the graph and no other
    row, in descending order of PageRank; a row holds the category and the
    colour of the node's attributes, or the defaults when the node has
    none, and the node's PageRank, or 0 when none was set. *)
Theorem master_list_rows (G : DiGraph) :
  let res := MasterList.create_and_save_node_list G in
  (res = None ↔ DiGraph.number_of_nodes G = 0%nat)
  ∧ NoDup (map MasterList.node_id (master_rows res))
  ∧ (∀ n, n ∈ map MasterList.node_id (master_rows res)
          ↔ DiGraph.has_node G n = true)
  ∧ StronglySorted MasterList.by_pagerank (master_rows res)
  ∧ ∀ r, r ∈ master_rows res →
      MasterList.pagerank r
      = default 0%Q (dg_pagerank G !! MasterList.node_id r)
      ∧ ∃ data, dg_nodes G !! MasterList.node_id r = Some data
          ∧ MasterList.category r = category <$> data
          ∧ MasterList.color r = default "grey" (color <$> data).
Proof.
  intros res. split; [|split; [|split; [|split]]].
  - unfold res, MasterList.create_and_save_node_list.
    case_bool_decide; split; done.
  - unfold res. rewrite master_rows_Permutation, node_ids_node_data_list.
    apply NoDup_fst_map_to_list.
  - intros n. unfold res.
    rewrite master_rows_Permutation, node_ids_node_data_list.
    rewrite has_node_spec, elem_of_dom, list_elem_of_fmap. split.
    + intros ([n' data] & -> & Hin). apply elem_of_map_to_list in Hin.
      by exists data.
    + intros [data Hdata]. exists (n, data). split; [done|].
      by apply elem_of_map_to_list.
  - unfold res, MasterList.create_and_save_node_list, master_rows.
    case_bool_decide; simpl; [constructor|].
    apply StronglySorted_merge_sort; apply _.
  - intros r Hr. apply elem_of_master_rows in Hr as (data & Hdata & Hr).
    split; [by rewrite Hr|].
    exists data. split; [done|]. rewrite Hr.
    by destruct data as [[cat col]|].
Qed.

(** X22. In the pipeline the master node list is made from the graph the
    builder returns, with the PageRank values set on it.  Every concept of
    the registry then has a row, which holds the registry's category and
    colour for it and its PageRank value (0 when it has none), and there is
    no other row: the defaults for the category and the colour are never
    written. *)
Theorem master_list_of_built_graph (files : list Document)
    (node_info : gmap string NodeMeta) (pagerank_values : gmap string Q) :
  let G := set_pagerank pagerank_values
             (build_explicit_link_graph files node_info) in
  let rows := master_rows (MasterList.create_and_save_node_list G) in
  (∀ n d, node_info !! n = Some d →
     {| MasterList.node_id := n;
        MasterList.category := Some (category d);
        MasterList.color := color d;
        MasterList.pagerank := default 0%Q (pagerank_values !! n) |} ∈ rows)
  ∧ ∀ r, r ∈ rows →
      ∃ d, node_info !! MasterList.node_id r = Some d
           ∧ MasterList.category r = Some (category d)
           ∧ MasterList.color r = color d.
Proof.
  intros G rows.
  destruct (build_explicit_link_graph_fields files node_info)
    as (Hnodes & _).
  assert (HG : dg_nodes G = Some <$> node_info) by done.
  split.
  - intros n d Hd. apply elem_of_master_rows. exists (Some d).
    cbn [MasterList.node_id]. rewrite HG, lookup_fmap, Hd.
    split; [done|]. by destruct d.
  - intros r Hr. apply elem_of_master_rows in Hr as (data & Hdata & Hr).
    rewrite HG, lookup_fmap in Hdata.
    destruct (node_info !! MasterList.node_id r) as [d|]; [|done].
    injection Hdata as <-. exists d. split; [done|].
    rewrite Hr. by destruct d.
Qed.

(** X23. In the pipeline the scorers receive the registry of the
    extractor, the graph the builder makes from it, annotated by the
    centrality stage, and the matrix of the co-occurrence builder.  A
    concept is then a node of the graph exactly when it is a key of the
    registry, so every label of the matrix is a node of the graph, and the
    trajectory synthesizer stops with the missing-node message exactly
    when the start or the end concept is not a key of the registry. *)
Theorem pipeline_guards_reduce_to_registry
    (spearman : list nat → list nat → option Q)
    (nx_pagerank : DiGraph → result (gmap string Q))
    (best_partition : UGraph → Z → gmap string Z)
    (files : list Document) (signal : StageSignal) (G' : DiGraph) :
  let node_info := get_node_metadata files in
  let G := build_explicit_link_graph files node_info in
  let M := build_cooccurrence_data spearman files node_info in
  analyze_centrality_and_communities nx_pagerank best_partition G
    = Ok (signal, G') →
  (∀ n, DiGraph.has_node G' n = true ↔ is_Some (node_info !! n))
  ∧ (∀ c, c ∈ df_index M → DiGraph.has_node G' c = true)
  ∧ ∀ s e n w k,
      synthesize_and_plot_trajectory G' M node_info s e n w k
        = Ok MissingNode
      ↔ node_info !! s = None ∨ node_info !! e = None.
Proof.
  intros node_info G M Hstage.
  assert (Hnodes : dg_nodes G' = Some <$> node_info).
  { destruct (build_explicit_link_graph_fields files node_info)
      as (Hn & _).
    fold G in Hn. rewrite <- Hn. revert Hstage.
    unfold analyze_centrality_and_communities.
    case_bool_decide; [by intros [= _ <-]|].
    destruct (nx_pagerank G); [|done]. cbn [mbind result_bind]. cbv zeta.
    case_bool_decide; by intros [= _ <-]. }
  assert (Hhas : ∀ n, DiGraph.has_node G' n = true
                      ↔ is_Some (node_info !! n)).
  { intros n. rewrite has_node_spec, Hnodes, dom_fmap_L.
    apply elem_of_dom. }
  split; [done|]. split.
  - intros c Hc. apply Hhas. revert Hc.
    destruct (abundance_table_filled files node_info) as (Hi & _ & _).
    unfold M, build_cooccurrence_data. simpl. rewrite Hi.
    intros [_ Hc]%list_elem_of_filter. by apply elem_of_sorted_keys.
  - intros s e n w k.
    destruct (synthesize_outcome_cases G' M node_info s e n w k
                (built_matrix_unique_labels spearman files node_info))
      as [[Hk Hout]|[(Hk & _ & Hout)|(Hk & _ & table & best & Hout)]];
      rewrite Hout; unfold known in Hk; rewrite !Hhas in Hk.
    + split; [|done]. intros _.
      destruct (node_info !! s), (node_info !! e); try tauto.
      exfalso. apply Hk. by split; split; eexists.
    + split; [done|].
      destruct Hk as [[[? Hs] _] [[? He] _]]. rewrite Hs, He.
      by intros [?|?].
    + split; [done|].
      destruct Hk as [[[? Hs] _] [[? He] _]]. rewrite Hs, He.
      by intros [?|?].
Qed.

Lemma pipeline_guards_reduce_to_registry_witness :
  let node_info := get_node_metadata corpus_AB in
  let G := build_explicit_link_graph corpus_AB node_info in
  let M := build_cooccurrence_data (λ _ _, None) corpus_AB node_info in
  (∀ n, DiGraph.has_node (set_pagerank ∅ G) n = true
        ↔ is_Some (node_info !! n))
  ∧ (∀ c, c ∈ df_index M → DiGraph.has_node (set_pagerank ∅ G) c = true)
  ∧ ∀ s e n w k,
      synthesize_and_plot_trajectory (set_pagerank ∅ G) M node_info s e n w k
        = Ok MissingNode
      ↔ node_info !! s = None ∨ node_info !! e = None.
Proof.
  apply (pipeline_guards_reduce_to_registry (λ _ _, None) (λ _, Ok ∅)
           (λ _ _, ∅) corpus_AB Completed
           (set_pagerank ∅
              (build_explicit_link_graph corpus_AB
                 (get_node_metadata corpus_AB)))).
  vm_compute. reflexivity.
Defined.

(** What refreshing the attributes from the registry leaves: the graph's
    nodes and edges, each node of the registry carrying the registry's
    entry. *)
Lemma refreshed_graph (G : DiGraph) (node_info : gmap string NodeMeta) :
  let G1 := map_fold update_node G node_info in
  dg_edges G1 = dg_edges G
  ∧ dg_pagerank G1 = dg_pagerank G
  ∧ dg_community G1 = dg_community G
  ∧ ∀ n, dg_nodes G1 !! n
         = attrs ← dg_nodes G !! n;
           Some (match node_info !! n with
                 | Some data => Some data
                 | None => attrs
                 end).
Proof.
  apply (map_fold_weak_ind
           (λ G1 (m : gmap string NodeMeta),
              dg_edges G1 = dg_edges G
              ∧ dg_pagerank G1 = dg_pagerank G
              ∧ dg_community G1 = dg_community G
              ∧ ∀ n, dg_nodes G1 !! n
                     = attrs ← dg_nodes G !! n;
                       Some (match m !! n with
                             | Some data => Some data
                             | None => attrs
                             end))).
  - repeat (split; [done|]). intros n. rewrite lookup_empty.
    by destruct (dg_nodes G !! n).
  - intros node data m G1 Hfresh (He & Hp & Hc & Hn).
    unfold update_node.
    destruct (DiGraph.has_node G1 node) eqn:Hhas; simpl.
    + repeat (split; [done|]). intros n.
      destruct (decide (n = node)) as [->|Hne].
      * rewrite !lookup_insert_eq.
        apply has_node_spec, elem_of_dom in Hhas as [x Hx].
        rewrite Hn in Hx.
        by destruct (dg_nodes G !! node).
      * rewrite !lookup_insert_ne by done. apply Hn.
    + repeat (split; [done|]). intros n.
      destruct (decide (n = node)) as [->|Hne].
      * rewrite lookup_insert_eq.
        assert (Hnone : dg_nodes G1 !! node = None).
        { apply not_elem_of_dom. intros Hin.
          apply has_node_spec in Hin. congruence. }
        rewrite Hn in Hnone. rewrite Hn.
        by destruct (dg_nodes G !! node).
      * rewrite lookup_insert_ne by done. apply Hn.
Qed.

(** The effect of the community stage on a graph, and on a graph whose
    nodes carry the registry's entries. *)
Lemma community_stage_spec
    (best_partition : UGraph → Z → gmap string Z)
    (nx_pagerank : DiGraph → result (gmap string Q))
    (G : DiGraph) (node_info : gmap string NodeMeta) :
  let G' := analyze_communities best_partition G node_info in
  dg_edges G' = dg_edges G
  ∧ dg_pagerank G' = dg_pagerank G
  ∧ (∀ n, DiGraph.has_node G' n = DiGraph.has_node G n)
  ∧ (∀ n attrs, dg_nodes G !! n = Some attrs →
       dg_nodes G' !! n
       = Some (match node_info !! n with
               | Some data => Some data
               | None => attrs
               end))
  ∧ (dg_nodes G = Some <$> node_info →
     dg_nodes G' = dg_nodes G
     ∧ ∀ signal G2,
         analyze_centrality_and_communities nx_pagerank best_partition G
           = Ok (signal, G2) →
         dg_community G2 = dg_community G').
Proof.
  intros G'.
  destruct (refreshed_graph G node_info) as (He & Hp & Hc & Hn).
  set (G1 := map_fold update_node G node_info) in *.
  assert (Hnodes : ∀ n attrs, dg_nodes G !! n = Some attrs →
            dg_nodes G' !! n
            = Some (match node_info !! n with
                    | Some data => Some data
                    | None => attrs
                    end)).
  { intros n attrs Hattrs. unfold G', analyze_communities.
    case_bool_decide as Hempty.
    - exfalso. unfold DiGraph.number_of_nodes in Hempty.
      apply map_size_empty_iff in Hempty. rewrite Hempty in Hattrs.
      by rewrite lookup_empty in Hattrs.
    - cbv zeta. fold G1. case_bool_decide; cbn [dg_nodes];
        by rewrite Hn, Hattrs. }
  assert (Hdom : ∀ n, dg_nodes G' !! n = None ↔ dg_nodes G !! n = None).
  { intros n. unfold G', analyze_communities.
    case_bool_decide; [done|]. cbv zeta. fold G1.
    case_bool_decide; cbn [dg_nodes]; rewrite Hn;
      by destruct (dg_nodes G !! n). }
  split; [|split; [|split; [|split; [done|]]]].
  - unfold G', analyze_communities.
    case_bool_decide; [done|]. cbv zeta. fold G1. by case_bool_decide.
  - unfold G', analyze_communities.
    case_bool_decide; [done|]. cbv zeta. fold G1. by case_bool_decide.
  - intros n. unfold DiGraph.has_node. apply bool_decide_ext.
    rewrite !elem_of_dom, <- !not_eq_None_Some. by rewrite Hdom.
  - intros Hbuilt.
    assert (Hsame : dg_nodes G' = dg_nodes G).
    { apply map_eq. intros n.
      destruct (dg_nodes G !! n) as [attrs|] eqn:Hattrs.
      - rewrite (Hnodes n attrs Hattrs).
        rewrite Hbuilt, lookup_fmap in Hattrs.
        by destruct (node_info !! n); simplify_eq.
      - by apply Hdom. }
    split; [done|]. intros signal G2.
    assert (Hsame1 : dg_nodes G1 = dg_nodes G).
    { apply map_eq. intros n. rewrite Hn.
      destruct (dg_nodes G !! n) as [attrs|] eqn:Hattrs; [|done]. simpl.
      rewrite Hbuilt, lookup_fmap in Hattrs.
      by destruct (node_info !! n); simplify_eq. }
    unfold G', analyze_communities, analyze_centrality_and_communities.
    case_bool_decide; [by intros [= _ <-]|].
    destruct (nx_pagerank G); [|done]. cbn [mbind result_bind]. cbv zeta.
    fold G1. unfold to_undirected. cbn [dg_nodes dg_edges ug_nodes].
    rewrite Hsame1, He.
    case_bool_decide; intros [= _ <-]; cbn [dg_community]; [done|].
    done.
Qed.

(** X24. The community stage keeps the nodes and the edges of the graph
    and its PageRank annotation; a node the registry knows leaves with the
    registry's category and colour, every other node with the attributes it
    had. *)
Theorem community_stage_refreshes_attributes
    (best_partition : UGraph → Z → gmap string Z)
    (G : DiGraph) (node_info : gmap string NodeMeta) :
  let G' := analyze_communities best_partition G node_info in
  dg_edges G' = dg_edges G
  ∧ dg_pagerank G' = dg_pagerank G
  ∧ (∀ n, DiGraph.has_node G' n = DiGraph.has_node G n)
  ∧ ∀ n, dg_nodes G' !! n
         = attrs ← dg_nodes G !! n;
           Some (match node_info !! n with
                 | Some data => Some data
                 | None => attrs
                 end).
Proof.
  intros G'.
  destruct (community_stage_spec best_partition (λ _, Ok ∅) G node_info)
    as (He & Hp & Hhas & Hn & _).
  split; [done|]. split; [done|]. split; [done|].
  intros n. destruct (dg_nodes G !! n) as [attrs|] eqn:Hattrs; simpl.
  - by apply Hn.
  - apply not_elem_of_dom. intros Hin.
    apply has_node_spec in Hin. rewrite Hhas in Hin.
    apply has_node_spec, elem_of_dom in Hin as [x Hx]. congruence.
Qed.

(** X25. On the graph the builder makes from the same registry the
    community stage changes no attribute, and it sets the community
    annotation the centrality stage sets on that graph: the partition of
    the same undirected graph with the same seed. *)
Theorem community_stage_on_built_graph
    (best_partition : UGraph → Z → gmap string Z)
    (nx_pagerank : DiGraph → result (gmap string Q))
    (files : list Document) (node_info : gmap string NodeMeta) :
  let G := build_explicit_link_graph files node_info in
  let G' := analyze_communities best_partition G node_info in
  dg_nodes G' = dg_nodes G ∧ dg_edges G' = dg_edges G
  ∧ match analyze_centrality_and_communities nx_pagerank best_partition G
      with
    | Ok (_, G2) => dg_community G2 = dg_community G'
    | Raise _ => True
    end.
Proof.
  intros G G'.
  destruct (community_stage_spec best_partition nx_pagerank G node_info)
    as (He & _ & _ & _ & Hbuilt).
  destruct (build_explicit_link_graph_fields files node_info) as (Hn & _).
  destruct (Hbuilt Hn) as [Hnodes Hcomm].
  split; [done|]. split; [done|].
  destruct (analyze_centrality_and_communities _ _ G) as [[signal G2]|];
    [|done].
  by apply (Hcomm signal).
Qed.
